(** * internal/gotktrix/internal/db/node.go: the Node handle over bbolt

    A shallow embedding of [node.go]: key sanitising ([mustKey]), the
    transaction manager ([Node.TxUpdate], [Node.TxView], [Node.doTx]), the
    CRUD operations, the iterators and the eviction loop, over a functional
    model of the bbolt engine (nested buckets with byte-ordered keys,
    transactions, cursors). *)

From Stdlib Require Import List ZArith Lia Bool Ascii String Sorted OrderedTypeEx.
Import ListNotations.

Set Implicit Arguments.
Set Warnings "-register-all".
Local Open Scope string_scope.
Local Open Scope list_scope.

(* ================================================================== *)
(** ** Byte strings and errors *)

(** Go strings and [[]byte] are byte sequences; [string] is a list of
    8-bit characters, compared byte by byte ([bytes.Compare]). *)
Definition key := string.
Definition bytes := string.

Definition key_ltb (a b : key) : bool := String.ltb a b.
Definition key_eqb (a b : key) : bool := String.eqb a b.
Definition key_lt (a b : key) : Prop := key_ltb a b = true.

(** Go [int] on the 64-bit targets: two's complement wrap-around. *)
Definition wrap_int (z : Z) : Z := (z + 2 ^ 63) mod 2 ^ 64 - 2 ^ 63.
Definition max_int : Z := 2 ^ 63 - 1.

(** The error values that flow through node.go.  The sentinels are the
    package variables [ErrKeyNotFound] and [EachBreak] and bbolt's [Err...];
    [Wrap] is [errors.Wrap]; [Wrapf] is [errors.Wrapf] with its format and
    the argument the format is applied to (the message is
    [fmt.Sprintf(format, arg)]: under [%q] the argument is rendered as a
    quoted, escaped Go string literal); [CodecError] is whatever the value
    codec reports. *)
Inductive err : Type :=
| ErrKeyNotFound
| EachBreak
| ErrTxNotWritable
| ErrTxClosed
| ErrDatabaseNotOpen
| ErrBucketNotFound
| ErrBucketNameRequired
| ErrIncompatibleValue
| ErrKeyRequired
| ErrKeyTooLarge
| ErrValueTooLarge
| CodecError (msg : string)
| Wrap (cause : err) (msg : string)
| Wrapf (cause : err) (format : string) (arg : string).

(** Go's [error] interface value: [None] is [nil]. *)
Definition error := option err.

Fixpoint err_eqb (a b : err) : bool :=
  match a, b with
  | ErrKeyNotFound, ErrKeyNotFound => true
  | EachBreak, EachBreak => true
  | ErrTxNotWritable, ErrTxNotWritable => true
  | ErrTxClosed, ErrTxClosed => true
  | ErrDatabaseNotOpen, ErrDatabaseNotOpen => true
  | ErrBucketNotFound, ErrBucketNotFound => true
  | ErrBucketNameRequired, ErrBucketNameRequired => true
  | ErrIncompatibleValue, ErrIncompatibleValue => true
  | ErrKeyRequired, ErrKeyRequired => true
  | ErrKeyTooLarge, ErrKeyTooLarge => true
  | ErrValueTooLarge, ErrValueTooLarge => true
  | CodecError m, CodecError m' => String.eqb m m'
  | Wrap c m, Wrap c' m' => err_eqb c c' && String.eqb m m'
  | Wrapf c f a, Wrapf c' f' a' =>
    err_eqb c c' && String.eqb f f' && String.eqb a a'
  | _, _ => false
  end.

(** [errors.Is(e, target)]: [e] or one of the causes it wraps is [target]. *)
Fixpoint errors_Is (e target : err) : bool :=
  err_eqb e target ||
  match e with
  | Wrap c _ => errors_Is c target
  | Wrapf c _ _ => errors_Is c target
  | _ => false
  end.

(* ================================================================== *)
(** ** Key sanitising: [mustKey] *)

Definition nul : ascii := Ascii.zero.

(** [const nullKey = "\x00\x00"] *)
Definition nullKey : key := String nul (String nul EmptyString).

(** [strings.Count(key, "\x00")]: the number of null bytes of [key]. *)
Fixpoint count_nul (s : string) : nat :=
  match s with
  | EmptyString => 0
  | String c r => (if Ascii.eqb c nul then 1 else 0) + count_nul r
  end.

Definition mustKey (k : key) : key :=
  if String.eqb k "" then nullKey
  else
    let nulls := count_nul k in
    if Nat.eqb nulls (String.length k) then
      if Nat.leb 2 nulls then
        (* 2 or above, so add 1 more so that it's never 2. *)
        (k ++ String nul EmptyString)%string
      else
        (* 1 null. Keep. *)
        k
    else
      (* No nulls. Return key. *)
      k.

(** A key made of [n] null bytes. *)
Fixpoint nuls (n : nat) : key :=
  match n with
  | O => EmptyString
  | S m => String nul (nuls m)
  end.

(** "consists entirely of null bytes" (the empty key included). *)
Definition all_nul (k : key) : Prop := count_nul k = String.length k.

(* ================================================================== *)
(** ** The engine: buckets, transactions, the database

    bbolt is an external dependency of the repository; it is modelled by its
    documented contract.  A bucket is the list of its entries in ascending
    byte order of their keys; an entry is a leaf value or a nested bucket. *)

Inductive entry : Type :=
| Leaf (v : bytes)
| Sub (b : list (key * entry)).

Definition items := list (key * entry).

Definition is_leaf (kv : key * entry) : bool :=
  match snd kv with Leaf _ => true | Sub _ => false end.

(** The cursor's seek: the entries from the first key [>= k] on. *)
Fixpoint seek (k : key) (l : items) : items :=
  match l with
  | [] => []
  | (k', e) :: r => if key_ltb k' k then seek k r else l
  end.

Definition get (k : key) (l : items) : option entry :=
  match seek k l with
  | (k', e) :: _ => if key_eqb k k' then Some e else None
  | [] => None
  end.

Fixpoint put (k : key) (e : entry) (l : items) : items :=
  match l with
  | [] => [(k, e)]
  | (k', e') :: r =>
    if key_ltb k' k then (k', e') :: put k e r
    else if key_eqb k k' then (k, e) :: r
    else (k, e) :: l
  end.

Fixpoint del (k : key) (l : items) : items :=
  match l with
  | [] => []
  | (k', e') :: r =>
    if key_ltb k' k then (k', e') :: del k r
    else if key_eqb k k' then r
    else l
  end.

(** The engine's invariant on a bucket: keys strictly ascending. *)
Definition sorted (l : items) : Prop :=
  StronglySorted (fun a b => key_lt (fst a) (fst b)) l.

(** A position in a transaction's tree: the names leading to it from the
    root. *)
Definition handle := list key.

Fixpoint bucket_at (root : items) (h : handle) : option items :=
  match h with
  | [] => Some root
  | s :: h' =>
    match get s root with
    | Some (Sub b) => bucket_at b h'
    | _ => None
    end
  end.

Fixpoint update_at (h : handle) (f : items -> items) (root : items) : items :=
  match h with
  | [] => f root
  | s :: h' =>
    match get s root with
    | Some (Sub b) => put s (Sub (update_at h' f b)) root
    | _ => root
    end
  end.

(** The entries a handle sees; a handle whose bucket is gone (outside the
    engine's contract) sees nothing. *)
Definition entries_at (root : items) (h : handle) : items :=
  match bucket_at root h with Some b => b | None => [] end.

Record Tx : Type := mkTx {
  tx_root : items;
  tx_writable : bool;
  tx_open : bool
}.

Definition txid := nat.

Inductive event : Type :=
| EvBegin (t : txid) (writable : bool)
| EvCommit (t : txid)
| EvRollback (t : txid).

(** The database file and every transaction begun on it; [log] records the
    calls that opened or closed a transaction. *)
Record World : Type := mkWorld {
  committed : items;
  opened : bool;
  txs : list Tx;
  log : list event
}.

(** A [*bbolt.Bucket]: the transaction it belongs to and its position in
    that transaction's tree. *)
Record Bucket : Type := mkBucket {
  b_tx : txid;
  b_at : handle
}.

Definition closed_tx : Tx := mkTx [] false false.

Fixpoint list_set {A} (i : nat) (x : A) (l : list A) : list A :=
  match l, i with
  | [], _ => []
  | _ :: r, O => x :: r
  | y :: r, S j => y :: list_set j x r
  end.

Definition tx_lookup (w : World) (t : txid) : Tx := nth t (txs w) closed_tx.

Definition tx_store (w : World) (t : txid) (x : Tx) : World :=
  mkWorld (committed w) (opened w) (list_set t x (txs w)) (log w).

Definition set_root (x : Tx) (r : items) : Tx :=
  mkTx r (tx_writable x) (tx_open x).

Definition close_tx (x : Tx) : Tx := mkTx (tx_root x) (tx_writable x) false.

(** The single writer lock: some writable transaction is still open. *)
Definition writer_active (w : World) : bool :=
  existsb (fun x => tx_writable x && tx_open x) (txs w).

Definition is_commit (e : event) : bool :=
  match e with EvCommit _ => true | _ => false end.

Definition commits (w : World) : nat := List.length (filter is_commit (log w)).

(* ================================================================== *)
(** ** Effects

    A call either returns, panics, or blocks for ever (a second writable
    transaction begun while one is open).  [U] holds the variables that the
    caller's closures capture. *)

Inductive result (A : Type) : Type :=
| Returns (a : A)
| Panics (msg : string)
| Blocks.
Arguments Panics {A} msg.
Arguments Blocks {A}.

Definition M (U A : Type) : Type := U -> World -> result (A * U * World).

Definition ret {U A} (a : A) : M U A := fun u w => Returns (a, u, w).

Definition bind {U A B} (c : M U A) (k : A -> M U B) : M U B :=
  fun u w =>
    match c u w with
    | Returns (a, u', w') => k a u' w'
    | Panics m => Panics m
    | Blocks => Blocks
    end.

Declare Scope m_scope.
Delimit Scope m_scope with m.
Notation "x <- c ;; k" := (bind c (fun x => k))
  (at level 100, c at next level, right associativity) : m_scope.
Notation "' p <- c ;; k" := (bind c (fun x => let 'p := x in k))
  (at level 100, p pattern, c at next level, right associativity) : m_scope.
Local Open Scope m_scope.

Definition panic {U A} (msg : string) : M U A := fun _ _ => Panics msg.

(** [defer d] around [body]: [d] runs when [body] returns, its result is
    dropped. *)
Definition defer {U A B} (d : M U B) (body : M U A) : M U A :=
  a <- body ;; _ <- d ;; ret a.

(** A variable declared by the caller and captured by its closure. *)
Definition with_local {U L A} (init : L) (c : M (L * U) A) : M U (A * L) :=
  fun u w =>
    match c (init, u) w with
    | Returns (a, (l, u'), w') => Returns ((a, l), u', w')
    | Panics m => Panics m
    | Blocks => Blocks
    end.

Definition get_local {U L} : M (L * U) L := fun s w => Returns (fst s, s, w).
Definition set_local {U L} (l : L) : M (L * U) unit :=
  fun s w => Returns (tt, (l, snd s), w).

(** Code that touches only the caller's captured variables. *)
Definition on_locals {U A} (f : U -> A * U) : M U A :=
  fun u w => let '(a, u') := f u in Returns (a, u', w).

(* ================================================================== *)
(** ** bbolt's API, as node.go calls it *)

Definition MaxKeySize : Z := 32768.
Definition MaxValueSize : Z := 2 ^ 31 - 2.

Definition len (s : string) : Z := Z.of_nat (String.length s).

Section Engine.
Context {U : Type}.

(** [db.Begin(writable)] *)
Definition DB_Begin (writable : bool) : M U (err + txid) :=
  fun u w =>
    if negb (opened w) then Returns (inl ErrDatabaseNotOpen, u, w)
    else if writable && writer_active w then Blocks
    else
      let t := List.length (txs w) in
      Returns (inr t, u,
               mkWorld (committed w) (opened w)
                       (txs w ++ [mkTx (committed w) writable true])
                       (log w ++ [EvBegin t writable])).

(** [tx.Writable()] *)
Definition Tx_Writable (t : txid) : M U bool :=
  fun u w => Returns (tx_writable (tx_lookup w t), u, w).

(** [tx.Commit()] *)
Definition Tx_Commit (t : txid) : M U error :=
  fun u w =>
    let x := tx_lookup w t in
    if negb (tx_open x) then Returns (Some ErrTxClosed, u, w)
    else if negb (tx_writable x) then Returns (Some ErrTxNotWritable, u, w)
    else
      Returns (None, u,
               mkWorld (tx_root x) (opened w)
                       (list_set t (close_tx x) (txs w))
                       (log w ++ [EvCommit t])).

(** [tx.Rollback()] *)
Definition Tx_Rollback (t : txid) : M U error :=
  fun u w =>
    let x := tx_lookup w t in
    if negb (tx_open x) then Returns (Some ErrTxClosed, u, w)
    else
      Returns (None, u,
               mkWorld (committed w) (opened w)
                       (list_set t (close_tx x) (txs w))
                       (log w ++ [EvRollback t])).

(** The checks every mutating bucket call starts with. *)
Definition check_writable (x : Tx) : error :=
  if negb (tx_open x) then Some ErrTxClosed
  else if negb (tx_writable x) then Some ErrTxNotWritable
  else None.

(** [b.Get(key)]: nil for an absent key and for a nested bucket; the value
    of a stored key, even an empty one, is not nil. *)
Definition Bucket_Get (b : Bucket) (k : key) : M U (option bytes) :=
  fun u w =>
    let x := tx_lookup w (b_tx b) in
    if negb (tx_open x) then Panics "tx closed"
    else
      match get k (entries_at (tx_root x) (b_at b)) with
      | Some (Leaf v) => Returns (Some v, u, w)
      | _ => Returns (None, u, w)
      end.

(** [b.Put(key, value)] *)
Definition Bucket_Put (b : Bucket) (k : key) (v : bytes) : M U error :=
  fun u w =>
    let x := tx_lookup w (b_tx b) in
    match check_writable x with
    | Some e => Returns (Some e, u, w)
    | None =>
      if (len k =? 0)%Z then Returns (Some ErrKeyRequired, u, w)
      else if (MaxKeySize <? len k)%Z then Returns (Some ErrKeyTooLarge, u, w)
      else if (MaxValueSize <? len v)%Z then Returns (Some ErrValueTooLarge, u, w)
      else
        match get k (entries_at (tx_root x) (b_at b)) with
        | Some (Sub _) => Returns (Some ErrIncompatibleValue, u, w)
        | _ =>
          Returns (None, u,
                   tx_store w (b_tx b)
                     (set_root x (update_at (b_at b) (put k (Leaf v)) (tx_root x))))
        end
    end.

(** [b.Delete(key)] and [cursor.Delete()] on the entry [key]: an absent
    key is not an error. *)
Definition Bucket_Delete (b : Bucket) (k : key) : M U error :=
  fun u w =>
    let x := tx_lookup w (b_tx b) in
    match check_writable x with
    | Some e => Returns (Some e, u, w)
    | None =>
      match get k (entries_at (tx_root x) (b_at b)) with
      | Some (Sub _) => Returns (Some ErrIncompatibleValue, u, w)
      | _ =>
        Returns (None, u,
                 tx_store w (b_tx b)
                   (set_root x (update_at (b_at b) (del k) (tx_root x))))
      end
    end.

Definition Cursor_Delete := Bucket_Delete.

(** [b.DeleteBucket(name)] *)
Definition Bucket_DeleteBucket (b : Bucket) (name : key) : M U error :=
  fun u w =>
    let x := tx_lookup w (b_tx b) in
    match check_writable x with
    | Some e => Returns (Some e, u, w)
    | None =>
      match get name (entries_at (tx_root x) (b_at b)) with
      | None => Returns (Some ErrBucketNotFound, u, w)
      | Some (Leaf _) => Returns (Some ErrIncompatibleValue, u, w)
      | Some (Sub _) =>
        Returns (None, u,
                 tx_store w (b_tx b)
                   (set_root x (update_at (b_at b) (del name) (tx_root x))))
      end
    end.

(** [b.Bucket(name)], and [tx.Bucket(name)] at the root handle: nil when
    there is no nested bucket of that name. *)
Definition Bucket_Bucket (b : Bucket) (name : key) : M U (option Bucket) :=
  fun u w =>
    let x := tx_lookup w (b_tx b) in
    if negb (tx_open x) then Panics "tx closed"
    else
      match get name (entries_at (tx_root x) (b_at b)) with
      | Some (Sub _) => Returns (Some (mkBucket (b_tx b) (b_at b ++ [name])), u, w)
      | _ => Returns (None, u, w)
      end.

(** [b.CreateBucketIfNotExists(name)] *)
Definition Bucket_CreateBucketIfNotExists (b : Bucket) (name : key)
  : M U (err + Bucket) :=
  fun u w =>
    let x := tx_lookup w (b_tx b) in
    match check_writable x with
    | Some e => Returns (inl e, u, w)
    | None =>
      if (len name =? 0)%Z then Returns (inl ErrBucketNameRequired, u, w)
      else
        match get name (entries_at (tx_root x) (b_at b)) with
        | Some (Sub _) => Returns (inr (mkBucket (b_tx b) (b_at b ++ [name])), u, w)
        | Some (Leaf _) => Returns (inl ErrIncompatibleValue, u, w)
        | None =>
          Returns (inr (mkBucket (b_tx b) (b_at b ++ [name])), u,
                   tx_store w (b_tx b)
                     (set_root x (update_at (b_at b) (put name (Sub [])) (tx_root x))))
        end
    end.

(** [b.Cursor()] followed by [First]/[Next] to the end: every entry of
    the bucket in ascending key order, the value nil ([Sub]) for a nested
    bucket.  [Last]/[Prev] walk the same entries in reverse. *)
Definition Cursor_entries (b : Bucket) : M U items :=
  fun u w =>
    let x := tx_lookup w (b_tx b) in
    if negb (tx_open x) then Panics "tx closed"
    else Returns (entries_at (tx_root x) (b_at b), u, w).
End Engine.

(* ================================================================== *)
(** ** NodePath and the value codec (db.go) *)

Definition NodePath := list key.

(** Modelled from the spec: the [KV] type of db.go is not among the
    sources; node.go uses its [db] handle (the [World] here) and its
    pluggable codec, [marshal(value) -> bytes] and
    [unmarshal(bytes, &value) -> Result<(), Error>], the latter overwriting
    the caller's value. *)
Record KV (Val : Type) : Type := mkKV {
  Marshal : Val -> err + bytes;
  Unmarshal : bytes -> Val -> error * Val
}.

Section Path.
Context {U : Type}.

(** Modelled from the spec: [NodePath.Bucket] of db.go is not among the
    sources.  It "walks path segments from the root, descending one nested
    bucket per segment.  On a write-capable transaction, missing
    intermediate buckets are created transparently; on read-only
    transactions, a missing bucket is reported as a distinguished bucket
    not found condition, never silently created"; the empty path denotes
    the root. *)
Fixpoint NodePath_walk (writable : bool) (b : Bucket) (p : NodePath)
  : M U (err + Bucket) :=
  match p with
  | [] => ret (inr b)
  | s :: p' =>
    if writable then
      r <- Bucket_CreateBucketIfNotExists b s ;;
      match r with
      | inl e => ret (inl e)
      | inr b' => NodePath_walk writable b' p'
      end
    else
      r <- Bucket_Bucket b s ;;
      match r with
      | None => ret (inl ErrBucketNotFound)
      | Some b' => NodePath_walk writable b' p'
      end
  end.

(** Modelled from the spec: [NodePath.Bucket(tx)] is the walk above from
    the root of [tx], creating missing buckets exactly when [tx] is
    writable. *)
Definition NodePath_Bucket (p : NodePath) (t : txid) : M U (err + Bucket) :=
  w <- Tx_Writable t ;;
  NodePath_walk w (mkBucket t []) p.

(** Modelled from the spec: [NodePath.BucketExists] of db.go is not among
    the sources.  It resolves the path without creating anything and
    reports whether every segment names an existing bucket. *)
Definition NodePath_BucketExists (p : NodePath) (t : txid) : M U (option Bucket) :=
  r <- NodePath_walk false (mkBucket t []) p ;;
  match r with
  | inl _ => ret None
  | inr b => ret (Some b)
  end.
End Path.

(* ================================================================== *)
(** ** Node (node.go) *)

Section NodeOps.
Context {Val : Type}.

Record Node : Type := mkNode {
  kv : KV Val;
  txn : option txid;
  buck : option Bucket;
  path : NodePath
}.

Definition set_buck (n : Node) (b : option Bucket) : Node :=
  mkNode (kv n) (txn n) b (path n).

(** [func (n *Node) bucket()]: the receiver is a pointer, so the node
    with its cache filled is returned along with the result. *)
Definition Node_bucket {U : Type} (n : Node) : M U (Node * (err + Bucket)) :=
  match buck n with
  | Some b => ret (n, inr b)
  | None =>
    match txn n with
    | None => ret (n, inl ErrTxClosed)
    | Some t =>
      r <- NodePath_Bucket (path n) t ;;
      match r with
      | inl e =>
        if errors_Is e ErrBucketNotFound then ret (n, inl ErrKeyNotFound)
        else ret (n, inl e)
      | inr b => ret (set_buck n (Some b), inr b)
      end
    end
  end.

(** [func (n *Node) bucketExists()]; with no transaction the call
    dereferences the nil [*bbolt.Tx]. *)
Definition Node_bucketExists {U : Type} (n : Node) : M U (Node * bool) :=
  match buck n with
  | Some _ => ret (n, true)
  | None =>
    match txn n with
    | None => panic "nil transaction"
    | Some t =>
      r <- NodePath_BucketExists (path n) t ;;
      match r with
      | Some b => ret (set_buck n (Some b), true)
      | None => ret (n, false)
      end
    end
  end.

Definition Node_doTx {U : Type} (n : Node) (f : Node -> M U error) (writable : bool)
  : M U error :=
  match txn n with
  | Some _ => f n
  | None =>
    r <- DB_Begin writable ;;
    match r with
    | inl e => ret (Some (Wrap e "failed to begin RO transaction"))
    | inr t =>
      defer (Tx_Rollback t)
        (let n := mkNode (kv n) (Some t) None (path n) in
         '(n, pre) <-
           (if (0 <? Z.of_nat (List.length (path n)))%Z && writable then
              '(n, r) <- Node_bucket n ;;
              match r with
              | inl e => ret (n, Some e)
              | inr _ => ret (n, None)
              end
            else ret (n, None)) ;;
         match pre with
         | Some e =>
           ret (Some (Wrap e "failed to fetch bucket for existing path"))
         | None =>
           e <- f n ;;
           match e with
           | Some e => ret (Some e)
           | None =>
             if writable then
               ce <- Tx_Commit t ;;
               match ce with
               | Some ce => ret (Some (Wrap ce "failed to commit to database"))
               | None => ret None
               end
             else ret None
           end
         end)
    end
  end.

(** TxUpdate creates a new Node with an active transaction and calls f.
    If this method is called in a Node that already has a transaction,
    then that transaction is reused. *)
Definition Node_TxUpdate {U : Type} (n : Node) (f : Node -> M U error) : M U error :=
  match txn n with
  | Some t =>
    w <- Tx_Writable t ;;
    if negb w then ret (Some ErrTxNotWritable)
    else Node_doTx n f true
  | None => Node_doTx n f true
  end.

Definition Node_TxView {U : Type} (n : Node) (f : Node -> M U error) : M U error :=
  Node_doTx n f false.

(** FromPath creates a new node with the given full path. *)
Definition Node_FromPath {U : Type} (n : Node) (p : NodePath) : M U Node :=
  let n := mkNode (kv n) (txn n) None p in
  (* Fill the bucket but skip over the error. *)
  '(n, _) <- Node_bucket n ;;
  ret n.

(** Node creates a child node with the given names appended to its
    path. *)
Definition Node_Node {U : Type} (n : Node) (names : list string) : M U Node :=
  if (Z.of_nat (List.length names) =? 0)%Z then panic "Node name can't be empty"
  else Node_FromPath n (path n ++ names).

(** SetIfNone sets the key into the database only if the key does not
    exist. *)
Definition Node_SetIfNone {U : Type} (n : Node) (k : key) (v : Val) : M U error :=
  match Marshal (kv n) v with
  | inl e => ret (Some (Wrap e "Failed to marshal"))
  | inr bytes =>
    let k := mustKey k in
    Node_TxUpdate n (fun n =>
      '(n, r) <- Node_bucket n ;;
      match r with
      | inl e => ret (Some e)
      | inr b =>
        g <- Bucket_Get b k ;;
        match g with
        | Some _ => ret None
        | None => Bucket_Put b k bytes
        end
      end)
  end.

(** Set sets the key into the database. *)
Definition Node_Set {U : Type} (n : Node) (k : key) (v : Val) : M U error :=
  match Marshal (kv n) v with
  | inl e => ret (Some (Wrap e "failed to marshal"))
  | inr bytes =>
    let k := mustKey k in
    Node_TxUpdate n (fun n =>
      '(n, r) <- Node_bucket n ;;
      match r with
      | inl e => ret (Some e)
      | inr b => Bucket_Put b k bytes
      end)
  end.

(** Exists returns true if the given key exists.  The closure assigns
    the captured result variable [exists]. *)
Definition Node_Exists {U : Type} (n : Node) (k : key) : M U bool :=
  '(e, exists_) <-
    with_local false
      (Node_TxView n (fun n =>
         '(n, ok) <- Node_bucketExists n ;;
         if negb ok then ret None
         else
           '(n, r) <- Node_bucket n ;;
           match r with
           | inl e => ret (Some e)
           | inr b =>
             (* If k is empty, then check for the bucket's presence. *)
             x <- (if String.eqb k "" then ret true
                   else g <- Bucket_Get b k ;;
                        ret (match g with Some _ => true | None => false end)) ;;
             _ <- set_local x ;;
             ret None
           end)) ;;
  ret (match e with None => exists_ | Some _ => false end).

(** Get gets the given key from the node; [v] is the caller's value,
    held first among the captured variables. *)
Definition Node_Get {U : Type} (n : Node) (k : key) : M (Val * U) error :=
  let k := mustKey k in
  Node_TxView n (fun n =>
    '(n, r) <- Node_bucket n ;;
    match r with
    | inl e => ret (Some e)
    | inr b =>
      g <- Bucket_Get b k ;;
      match g with
      | None => ret (Some ErrKeyNotFound)
      | Some bytes =>
        e <- on_locals (fun s : Val * U =>
               let '(e, v) := Unmarshal (kv n) bytes (fst s) in (e, (v, snd s))) ;;
        match e with
        | Some e => ret (Some (Wrap e "failed to unmarshal"))
        | None => ret None
        end
      end
    end).

Definition Node_Delete {U : Type} (n : Node) (k : key) : M U error :=
  let k := mustKey k in
  Node_TxUpdate n (fun n =>
    '(n, r) <- Node_bucket n ;;
    match r with
    | inl e =>
      if errors_Is e ErrKeyNotFound then
        (* Already deleted. *)
        ret None
      else ret (Some e)
    | inr b => Bucket_Delete b k
    end).

(** The cursor loop of DropExceptLast, from [cursor.Last()] backwards:
    [c] is what the cursor has still to walk, in descending key order.
    Deleting the entry under the cursor leaves the entries before it
    in place. *)
Fixpoint DropExceptLast_walk {U : Type} (b : Bucket) (c : items) (last : Z)
         (buckets : list key) (lastError : error) : M U (list key * error) :=
  match c with
  | [] => ret (buckets, lastError)
  | (k, v) :: c' =>
    if (0 <? last)%Z then
      DropExceptLast_walk b c' (last - 1)%Z buckets lastError
    else
      match v with
      | Sub _ =>
        DropExceptLast_walk b c' last (buckets ++ [k]) lastError
      | Leaf _ =>
        e <- Cursor_Delete b k ;;
        DropExceptLast_walk b c' last buckets
          (match e with Some _ => e | None => lastError end)
      end
  end.

Fixpoint DropExceptLast_buckets {U : Type} (b : Bucket) (buckets : list key) : M U unit :=
  match buckets with
  | [] => ret tt
  | k :: r => _ <- Bucket_DeleteBucket b k ;; DropExceptLast_buckets b r
  end.

(** DropExceptLast drops the entire node except for the last few
    values. *)
Definition Node_DropExceptLast {U : Type} (n : Node) (last : Z) : M U error :=
  Node_TxUpdate n (fun n =>
    '(n, r) <- Node_bucket n ;;
    match r with
    | inl e => ret (Some e)
    | inr b =>
      c <- Cursor_entries b ;;
      '(buckets, lastError) <- DropExceptLast_walk b (rev c) last [] None ;;
      _ <- DropExceptLast_buckets b buckets ;;
      ret lastError
    end).

(** [for k, _ := cursor.First(); k != nil; k, _ = cursor.Next() { length++ }] *)
Fixpoint count_keys (c : items) (length : Z) : Z :=
  match c with
  | [] => length
  | _ :: c' => count_keys c' (wrap_int (length + 1))
  end.

(** Length queries the number of keys within the node.  [length] is
    captured by the closure and read once the call has returned. *)
Definition Node_Length {U : Type} (n : Node) (prefix : string) : M U (Z * error) :=
  '(e, length) <-
    with_local 0%Z
      (Node_TxView n (fun n =>
         '(n, r) <- Node_bucket n ;;
         match r with
         | inl e =>
           if errors_Is e ErrKeyNotFound then
             (* Ignore ErrKeyNotFound and just don't iterate. *)
             ret None
           else ret (Some e)
         | inr b =>
           c <- Cursor_entries b ;;
           length <- get_local ;;
           _ <- set_local (count_keys c length) ;;
           ret None
         end)) ;;
  ret (length, e).

(** The first loop of Each: [if b != nil { length++ }]. *)
Fixpoint count_values (c : items) (length : Z) : Z :=
  match c with
  | [] => length
  | (_, Leaf _) :: c' => count_values c' (wrap_int (length + 1))
  | (_, Sub _) :: c' => count_values c' length
  end.

(** The second loop of Each.  [fn] is the caller's closure: it sees the
    value just decoded and its own captured variables. *)
Fixpoint Each_visit {U : Type} (codec : KV Val) (c : items) (length : Z)
         (fn : key -> Z -> Val * U -> error * (Val * U)) : M (Val * U) error :=
  match c with
  | [] => ret None
  | (k, Sub _) :: c' => Each_visit codec c' length fn (* bucket *)
  | (k, Leaf b) :: c' =>
    e <- on_locals (fun s : Val * U =>
           let '(e, v) := Unmarshal codec b (fst s) in (e, (v, snd s))) ;;
    match e with
    | Some e => ret (Some (Wrapf e "failed to unmarshal %q" k))
    | None =>
      e <- on_locals (fn k length) ;;
      match e with
      | Some e => if err_eqb e EachBreak then ret None else ret (Some e)
      | None => Each_visit codec c' length fn
      end
    end
  end.

(** Each iterates over the bucket all possible keys with the prefix, or
    no prefix. *)
Definition Node_Each {U : Type} (n : Node) (prefix : string)
           (fn : key -> Z -> Val * U -> error * (Val * U)) : M (Val * U) error :=
  Node_TxView n (fun n =>
    '(n, r) <- Node_bucket n ;;
    match r with
    | inl e =>
      if errors_Is e ErrKeyNotFound then ret None else ret (Some e)
    | inr b =>
      c <- Cursor_entries b ;;
      let length := count_values c 0 in
      Each_visit (kv n) c length fn
    end).

Fixpoint EachKey_visit {U : Type} (c : items) (length : Z)
         (fn : key -> Z -> U -> error * U) : M U error :=
  match c with
  | [] => ret None
  | (k, _) :: c' =>
    e <- on_locals (fn k length) ;;
    match e with
    | Some e => if err_eqb e EachBreak then ret None else ret (Some e)
    | None => EachKey_visit c' length fn
    end
  end.

(** EachKey iterates over keys. *)
Definition Node_EachKey {U : Type} (n : Node) (prefix : string)
           (fn : key -> Z -> U -> error * U) : M U error :=
  Node_TxView n (fun n =>
    '(n, r) <- Node_bucket n ;;
    match r with
    | inl e =>
      if errors_Is e ErrKeyNotFound then ret None else ret (Some e)
    | inr b =>
      c <- Cursor_entries b ;;
      let length := count_keys c 0 in
      EachKey_visit c length fn
    end).
End NodeOps.
Arguments Node Val : clear implicits.

(* ================================================================== *)
(** ** Concrete instances used by the examples *)

(** A codec whose values are already bytes. *)
Definition raw_codec : KV bytes :=
  mkKV (fun v => inr v) (fun b _ => (None, b)).

(** A codec that cannot serialize anything. *)
Definition failing_codec : KV bytes :=
  mkKV (fun _ => inl (CodecError "unsupported type"))
       (fun _ v => (Some (CodecError "unsupported type"), v)).

(** A freshly opened, empty database. *)
Definition empty_db : World := mkWorld [] true [] [].

(** An opened database with the given committed tree and no transaction. *)
Definition db_of (root : items) : World := mkWorld root true [] [].

(** A node of the given path with no transaction. *)
Definition node_at (codec : KV bytes) (p : NodePath) : Node bytes :=
  mkNode codec None None p.

(* ================================================================== *)
(** ** Definitions used to state the theorems *)

(** The identifier [db.Begin] gives to the next transaction. *)
Definition next_tx (w : World) : txid := List.length (txs w).

(** The world while the transaction begun on [w] is open and its tree is
    [root]. *)
Definition in_tx (w : World) (writable : bool) (root : items) : World :=
  mkWorld (committed w) (opened w)
          (txs w ++ [mkTx root writable true])
          (log w ++ [EvBegin (next_tx w) writable]).

(** The world once that transaction has been committed with tree [root]. *)
Definition after_commit (w : World) (root : items) : World :=
  mkWorld root (opened w)
          (txs w ++ [mkTx root true false])
          (log w ++ [EvBegin (next_tx w) true; EvCommit (next_tx w)]).

(** The world once that transaction has been rolled back. *)
Definition after_rollback (w : World) (writable : bool) (root : items) : World :=
  mkWorld (committed w) (opened w)
          (txs w ++ [mkTx root writable false])
          (log w ++ [EvBegin (next_tx w) writable; EvRollback (next_tx w)]).

(** What the walk of [NodePath.Bucket] does to the tree of a writable
    transaction, and the position or error it ends with. *)
Fixpoint create_walk (h : handle) (p : NodePath) (root : items)
  : (err + handle) * items :=
  match p with
  | [] => (inr h, root)
  | s :: p' =>
    if (len s =? 0)%Z then (inl ErrBucketNameRequired, root)
    else
      match get s (entries_at root h) with
      | Some (Sub _) => create_walk (h ++ [s]) p' root
      | Some (Leaf _) => (inl ErrIncompatibleValue, root)
      | None => create_walk (h ++ [s]) p' (update_at h (put s (Sub [])) root)
      end
  end.

(** No segment of the path is the empty name. *)
Definition valid_path (p : NodePath) : bool :=
  forallb (fun s => negb (len s =? 0)%Z) p.

(** The node [doTx] hands to the callback of a fresh transaction [t] once
    the path has been resolved. *)
Definition tx_node {Val} (n : Node Val) (t : txid) (writable : bool) : Node Val :=
  mkNode (kv n) (Some t)
         (if (0 <? Z.of_nat (List.length (path n)))%Z && writable
          then Some (mkBucket t (path n)) else None)
         (path n).

(** What [doTx] does around the callback's call [c] once the transaction
    [t] is begun and the path resolved: commit on success of a writable
    transaction, and the deferred rollback. *)
Definition tx_body {U} (t : txid) (writable : bool) (c : M U error) : M U error :=
  defer (Tx_Rollback t)
    (e <- c ;;
     match e with
     | Some e => ret (Some e)
     | None =>
       if writable then
         ce <- Tx_Commit t ;;
         match ce with
         | Some ce => ret (Some (Wrap ce "failed to commit to database"))
         | None => ret None
         end
       else ret None
     end).

(** [Node.bucket] turns the engine's bucket-not-found into the package's
    key-not-found. *)
Definition bucket_err (e : err) : err :=
  if errors_Is e ErrBucketNotFound then ErrKeyNotFound else e.

(** The database is open and no writable transaction is in progress. *)
Definition idle (w : World) : Prop :=
  opened w = true /\ writer_active w = false.

(** [NodePath.Bucket] succeeds on a writable transaction over [root]. *)
Definition resolves (p : NodePath) (root : items) : bool :=
  match fst (create_walk [] p root) with
  | inr _ => true
  | inl _ => false
  end.

(** The tree of a fresh writable transaction once the path is resolved:
    the committed tree plus the buckets of the path that were missing. *)
Definition resolved_root (p : NodePath) (root : items) : items :=
  snd (create_walk [] p root).

(** The node whose cache holds the bucket of its path in transaction [t]. *)
Definition cached_node {Val} (n : Node Val) (t : txid) : Node Val :=
  mkNode (kv n) (Some t) (Some (mkBucket t (path n))) (path n).

(** The error [b.Put(k, v)] reports on a bucket holding [its], if any. *)
Definition put_error (k : key) (v : bytes) (its : items) : error :=
  if (len k =? 0)%Z then Some ErrKeyRequired
  else if (MaxKeySize <? len k)%Z then Some ErrKeyTooLarge
  else if (MaxValueSize <? len v)%Z then Some ErrValueTooLarge
  else
    match get k its with
    | Some (Sub _) => Some ErrIncompatibleValue
    | _ => None
    end.

(** [k] names a leaf value among [its]. *)
Definition has_value (k : key) (its : items) : bool :=
  match get k its with
  | Some (Leaf _) => true
  | _ => false
  end.

(** A callback that records in the captured flag that it has run. *)
Definition mark_called (n : Node bytes) : M bool error :=
  on_locals (fun _ : bool => (None, true)).

(** A visit callback that only records the key and count it is given. *)
Definition record_key (k : key) (l : Z) (calls : list (key * Z))
  : error * list (key * Z) :=
  (None, calls ++ [(k, l)]).

(** One recorded invocation of a visit callback: the key and count it was
    given and what it returned. *)
Definition call : Type := key * Z * error.
Definition call_key (c : call) : key := fst (fst c).
Definition call_count (c : call) : Z := snd (fst c).
Definition call_result (c : call) : error := snd c.

(** The caller's callback [fn], instrumented to append each invocation to a
    log kept next to its own captured variables. *)
Definition traced {Val U} (fn : key -> Z -> Val * U -> error * (Val * U))
  : key -> Z -> Val * (U * list call) -> error * (Val * (U * list call)) :=
  fun k l s =>
    let '(e, (v', u')) := fn k l (fst s, fst (snd s)) in
    (e, (v', (u', snd (snd s) ++ [(k, l, e)]))).

(** The keys of the leaf entries, in cursor order. *)
Definition leaf_keys (its : items) : list key := map fst (filter is_leaf its).

(** Every recorded invocation returned nil. *)
Definition all_nil (calls : list call) : Prop :=
  Forall (fun c => call_result c = None) calls.

(** The value codec decodes every leaf of [its]. *)
Definition decodes {Val} (codec : KV Val) (its : items) : Prop :=
  forall k b v, In (k, Leaf b) its -> fst (Unmarshal codec b v) = None.

(** A visit callback that breaks at the key [stop]. *)
Definition break_at (stop : key) (k : key) (l : Z) (s : bytes * unit)
  : error * (bytes * unit) :=
  (if String.eqb k stop then Some EachBreak else None, s).

(** Deleting the keys [ks] one after the other. *)
Definition del_all (ks : list key) (its : items) : items :=
  fold_left (fun acc k => del k acc) ks its.

(** A callback of an outer TxUpdate that does its own part, arriving at a
    node [m'] of the same chain, and returns what the nested TxUpdate on
    [m'] returns. *)
Definition nested_update {Val U} (outer_part : Node Val -> M U (error * Node Val))
           (inner : Node Val -> M U error) : Node Val -> M U error :=
  fun m =>
    '(e, m') <- outer_part m ;;
    match e with
    | Some e => ret (Some e)
    | None => Node_TxUpdate m' inner
    end.

(** An outer part that writes [k := v] and goes on with the same node. *)
Definition write_then_continue (k : key) (v : bytes) (m : Node bytes)
  : M unit (error * Node bytes) :=
  '(m, r) <- Node_bucket m ;;
  match r with
  | inl e => ret (Some e, m)
  | inr b => e <- Bucket_Put b k v ;; ret (e, m)
  end.

(** An inner callback that writes [k := v] and then fails with [e]. *)
Definition write_then_fail (k : key) (v : bytes) (e : err) (m : Node bytes)
  : M unit error :=
  '(m, r) <- Node_bucket m ;;
  match r with
  | inl e => ret (Some e)
  | inr b => _ <- Bucket_Put b k v ;; ret (Some e)
  end.

(** What Get returns and leaves in the caller's value, on a bucket holding
    [its]. *)
Definition get_outcome {Val U} (codec : KV Val) (k : key) (its : items)
           (s : Val * U) : error * (Val * U) :=
  match get (mustKey k) its with
  | Some (Leaf b) =>
    let '(e, v) := Unmarshal codec b (fst s) in
    (match e with
     | Some e => Some (Wrap e "failed to unmarshal")
     | None => None
     end, (v, snd s))
  | _ => (Some ErrKeyNotFound, s)
  end.

(** The callback of EachKey, instrumented like [traced]. *)
Definition traced_key {U} (fn : key -> Z -> U -> error * U)
  : key -> Z -> U * list call -> error * (U * list call) :=
  fun k l s =>
    let '(e, u') := fn k l (fst s) in
    (e, (u', snd s ++ [(k, l, e)])).

(** A key-only visit callback that breaks at the key [stop]. *)
Definition break_key_at (stop : key) (k : key) (l : Z) (s : unit)
  : error * unit :=
  (if String.eqb k stop then Some EachBreak else None, s).

(** The entries of [its] whose key is none of [ks]. *)
Definition without (ks : list key) (its : items) : items :=
  filter (fun x => negb (existsb (key_eqb (fst x)) ks)) its.


(** A callback that sets [k] to [v] and, if that worked, reads [k] back
    into the caller's value. *)
Definition set_then_get {Val U} (k : key) (v : Val) (m : Node Val)
  : M (Val * U) error :=
  e <- Node_Set m k v ;;
  match e with
  | Some e => ret (Some e)
  | None => Node_Get m k
  end.

(** The keys of the nested buckets among [its], in order. *)
Definition sub_keys (its : items) : list key :=
  map fst (filter (fun x => negb (is_leaf x)) its).

(** A callback that only derives the child [names] of its node. *)
Definition derive_only {Val U} (names : list string) (m : Node Val) : M U error :=
  _ <- Node_Node m names ;; ret None.

(** A codec of raw bytes that refuses to decode the value ["bad"]. *)
Definition picky_codec : KV bytes :=
  mkKV (fun v => inr v)
       (fun b v => if String.eqb b "bad" then (Some (CodecError "bad value"), v)
                   else (None, b)).

(** A visit callback that always returns nil. *)
Definition visit_all (k : key) (l : Z) (s : bytes * unit) : error * (bytes * unit) :=
  (None, s).

(** What a call that began a transaction on [w] and rolled it back leaves
    in [w']: the committed tree and the number of commits are those of [w],
    the log gained the begin and the rollback of that transaction, the
    transaction is closed, and the writer lock is as it was before the
    call. *)
Definition rolled_back (w w' : World) (writable : bool) : Prop :=
  committed w' = committed w /\
  commits w' = commits w /\
  log w' = log w ++ [EvBegin (next_tx w) writable; EvRollback (next_tx w)] /\
  tx_open (tx_lookup w' (next_tx w)) = false /\
  writer_active w' = writer_active w.

(** What a call that began a writable transaction on [w] and committed it
    with tree [root] leaves in [w']: [root] is the committed tree, there is
    one more commit, the log gained the begin and the commit of that
    transaction, the transaction is closed, and the writer lock is as it
    was before the call. *)
Definition committed_once (w w' : World) (root : items) : Prop :=
  committed w' = root /\
  commits w' = S (commits w) /\
  log w' = log w ++ [EvBegin (next_tx w) true; EvCommit (next_tx w)] /\
  tx_open (tx_lookup w' (next_tx w)) = false /\
  writer_active w' = writer_active w.

(** A callback of an outer TxUpdate that does its own part, arriving at a
    node [m'] of the same chain, calls the nested TxUpdate on [m'] and
    returns what [handle] makes of the nested call's result. *)
Definition nested_update_handled {Val U}
           (outer_part : Node Val -> M U (error * Node Val))
           (inner : Node Val -> M U error) (handle : error -> error)
  : Node Val -> M U error :=
  fun m =>
    '(e, m') <- outer_part m ;;
    match e with
    | Some e => ret (Some e)
    | None => ri <- Node_TxUpdate m' inner ;; ret (handle ri)
    end.

(** The outer callback drops the nested call's error and returns nil. *)
Definition drop_error (e : error) : error := None.

(** A visit callback of Each that only records the key and count it is
    given; the value just decoded stays where it is. *)
Definition record_visit {Val} (k : key) (l : Z) (s : Val * list (key * Z))
  : error * (Val * list (key * Z)) :=
  (None, (fst s, snd s ++ [(k, l)])).

(* ================================================================== *)
(** * Theorems *)

(** ** Keys and sorted entries *)

Lemma key_eqb_eq (a b : key) : key_eqb a b = true <-> a = b.
Proof. apply String.eqb_eq. Qed.

Lemma key_eqb_refl (a : key) : key_eqb a a = true.
Proof. apply String.eqb_refl. Qed.

Lemma key_ltb_irrefl (a : key) : key_ltb a a = false.
Proof.
  unfold key_ltb, String.ltb.
  pose proof (String.compare_antisym a a) as H.
  destruct (String.compare a a); simpl in H; congruence.
Qed.

Lemma key_ltb_asym (a b : key) : key_ltb a b = true -> key_ltb b a = false.
Proof.
  unfold key_ltb, String.ltb. rewrite (String.compare_antisym a b).
  destruct (String.compare b a); simpl; congruence.
Qed.

Lemma key_ltb_neq (a b : key) : key_ltb a b = true -> key_eqb b a = false.
Proof.
  intros H. destruct (key_eqb b a) eqn:E; [|reflexivity].
  apply key_eqb_eq in E; subst. rewrite key_ltb_irrefl in H; discriminate.
Qed.

Lemma get_put_same (k : key) (e : entry) (l : items) : get k (put k e l) = Some e.
Proof.
  unfold get. induction l as [|[k' e'] r IH]; simpl.
  - rewrite key_ltb_irrefl, key_eqb_refl; reflexivity.
  - destruct (key_ltb k' k) eqn:L; simpl.
    + rewrite L; exact IH.
    + destruct (key_eqb k k'); simpl;
        rewrite key_ltb_irrefl, key_eqb_refl; reflexivity.
Qed.

Lemma put_get_id (k : key) (e : entry) (l : items) :
  get k l = Some e -> put k e l = l.
Proof.
  unfold get. induction l as [|[k' e'] r IH]; simpl; [discriminate|].
  destruct (key_ltb k' k) eqn:L.
  - intros H; rewrite (IH H); reflexivity.
  - destruct (key_eqb k k') eqn:E; [|discriminate].
    apply key_eqb_eq in E; subst. intros H; inversion H; reflexivity.
Qed.

Lemma del_get_none (k : key) (l : items) : get k l = None -> del k l = l.
Proof.
  unfold get. induction l as [|[k' e'] r IH]; simpl; [reflexivity|].
  destruct (key_ltb k' k) eqn:L.
  - intros H; rewrite (IH H); reflexivity.
  - destruct (key_eqb k k'); [discriminate|reflexivity].
Qed.

Lemma sorted_tail (a : key * entry) (l : items) : sorted (a :: l) -> sorted l.
Proof. intros H; inversion H; assumption. Qed.

Lemma seek_above (k : key) (l : items) :
  Forall (fun b => key_lt k (fst b)) l -> seek k l = l.
Proof.
  destruct l as [|[k' e'] r]; simpl; [reflexivity|].
  intros H; inversion H as [|? ? Hk _]; subst. simpl in Hk.
  rewrite (key_ltb_asym _ _ Hk); reflexivity.
Qed.

Lemma get_above (k : key) (l : items) :
  Forall (fun b => key_lt k (fst b)) l -> get k l = None.
Proof.
  intros H. unfold get. rewrite (seek_above H).
  destruct l as [|[k' e'] r]; [reflexivity|].
  inversion H as [|? ? Hk _]; subst. simpl in Hk.
  destruct (key_eqb k k') eqn:E; [|reflexivity].
  apply key_eqb_eq in E; subst. unfold key_lt in Hk.
  rewrite key_ltb_irrefl in Hk; discriminate.
Qed.

Lemma get_del_same (k : key) (l : items) : sorted l -> get k (del k l) = None.
Proof.
  induction l as [|[k' e'] r IH]; intros S; simpl; [reflexivity|].
  destruct (key_ltb k' k) eqn:L.
  - unfold get; simpl; rewrite L. apply IH. exact (sorted_tail S).
  - destruct (key_eqb k k') eqn:E.
    + apply key_eqb_eq in E; subst. inversion S; subst.
      apply get_above; assumption.
    + unfold get; simpl; rewrite L, E; reflexivity.
Qed.


(** ** mustKey *)

Lemma count_nul_le (s : string) : count_nul s <= String.length s.
Proof.
  induction s as [|c r IH]; simpl; [lia|].
  destruct (Ascii.eqb c nul); lia.
Qed.

Lemma all_nul_nuls (k : key) : all_nul k -> k = nuls (String.length k).
Proof.
  unfold all_nul. induction k as [|c r IH]; simpl; [reflexivity|].
  pose proof (count_nul_le r) as Hle.
  destruct (Ascii.eqb c nul) eqn:E; intros H; [|lia].
  apply Ascii.eqb_eq in E; subst c.
  f_equal. apply IH. lia.
Qed.

Lemma length_nuls (n : nat) : String.length (nuls n) = n.
Proof. induction n; simpl; congruence. Qed.

Lemma count_nul_nuls (n : nat) : count_nul (nuls n) = n.
Proof. induction n; simpl; congruence. Qed.

Lemma nuls_snoc (n : nat) : (nuls n ++ String nul EmptyString)%string = nuls (S n).
Proof. induction n; simpl; [reflexivity|]. simpl in IHn. rewrite IHn. reflexivity. Qed.

Lemma nuls_inj (n m : nat) : nuls n = nuls m -> n = m.
Proof. intros H. rewrite <- (length_nuls n), <- (length_nuls m), H. reflexivity. Qed.

Lemma mustKey_nuls (n : nat) :
  mustKey (nuls n) =
  match n with
  | 0 => nuls 2
  | 1 => nuls 1
  | _ => nuls (S n)
  end.
Proof.
  destruct n as [|[|n]]; try reflexivity.
  unfold mustKey.
  rewrite count_nul_nuls, length_nuls, Nat.eqb_refl, nuls_snoc.
  reflexivity.
Qed.

(** mustKey never yields the empty key, so [Put] never sees one. *)
Lemma mustKey_nonempty (k : key) : mustKey k <> "".
Proof.
  unfold mustKey. destruct k as [|c r]; [discriminate|].
  repeat match goal with
         | |- context [if ?b then _ else _] => destruct b
         end; discriminate.
Qed.

(** C3, as stated, fails: the key of two null bytes is sanitized to three
    null bytes, and sanitizing that again gives four. *)
Lemma mustKey_not_idempotent :
  all_nul (nuls 2) /\ mustKey (mustKey (nuls 2)) <> mustKey (nuls 2).
Proof. split; [reflexivity | discriminate]. Qed.

(** C3 (amended): for every key [k] that is empty or made only of null
    bytes, [mustKey k] differs from [mustKey ""] when [k] is not empty;
    [mustKey (mustKey k) = mustKey k] holds for the single null byte, and
    for every other such key the second application appends exactly one
    more null byte. *)
Theorem mustKey_nul_keys (k : key) :
  all_nul k ->
  (k <> "" -> mustKey k <> mustKey "") /\
  (k = nuls 1 -> mustKey (mustKey k) = mustKey k) /\
  (k <> nuls 1 ->
   mustKey (mustKey k) = (mustKey k ++ String nul EmptyString)%string).
Proof.
  intros H. apply all_nul_nuls in H.
  remember (String.length k) as n eqn:Hn. clear Hn. subst k.
  repeat split.
  - intros Hne. rewrite mustKey_nuls. change (mustKey "") with (nuls 2).
    destruct n as [|[|n]]; [exfalso; apply Hne; reflexivity| |];
      intros E; apply nuls_inj in E; lia.
  - intros E. apply nuls_inj in E; subst n. reflexivity.
  - intros Hne. rewrite mustKey_nuls.
    destruct n as [|[|n]]; [reflexivity|exfalso; apply Hne; reflexivity|].
    rewrite mustKey_nuls, nuls_snoc. reflexivity.
Qed.

Lemma mustKey_nul_keys_witness :
  all_nul (nuls 3) /\
  mustKey (nuls 3) <> mustKey "" /\
  mustKey (mustKey (nuls 3)) = (mustKey (nuls 3) ++ String nul EmptyString)%string.
Proof.
  split; [reflexivity|].
  destruct (@mustKey_nul_keys (nuls 3) eq_refl) as [H1 [_ H3]].
  split; [apply H1; discriminate | apply H3; discriminate].
Defined.

(** ** The bucket tree *)

Lemma bucket_at_app (root : items) (h p : handle) :
  bucket_at root (h ++ p) =
  match bucket_at root h with
  | Some b => bucket_at b p
  | None => None
  end.
Proof.
  revert root. induction h as [|s h IH]; intros root; simpl; [reflexivity|].
  destruct (get s root) as [[v|b]|]; auto.
Qed.

Lemma update_at_id (h : handle) (f : items -> items) (root b : items) :
  bucket_at root h = Some b -> f b = b -> update_at h f root = root.
Proof.
  revert root. induction h as [|s h IH]; intros root; simpl.
  - intros H E; inversion H; subst; exact E.
  - destruct (get s root) as [[v|c]|] eqn:G; try discriminate.
    intros H E. rewrite (IH _ H E). apply put_get_id; exact G.
Qed.

Lemma bucket_at_update_at (h : handle) (f : items -> items) (root b : items) :
  bucket_at root h = Some b ->
  bucket_at (update_at h f root) h = Some (f b).
Proof.
  revert root. induction h as [|s h IH]; intros root; simpl.
  - intros H; inversion H; reflexivity.
  - destruct (get s root) as [[v|c]|] eqn:G; try discriminate.
    intros H. rewrite get_put_same. apply IH; exact H.
Qed.

Lemma entries_at_some (root : items) (h : handle) (b : items) :
  bucket_at root h = Some b -> entries_at root h = b.
Proof. unfold entries_at; intros ->; reflexivity. Qed.

Lemma bucket_at_empty (p : handle) : entries_at [] p = [].
Proof. unfold entries_at. destruct p; reflexivity. Qed.

Lemma valid_path_cons (s : key) (p : NodePath) :
  valid_path (s :: p) = true -> (len s =? 0)%Z = false /\ valid_path p = true.
Proof.
  unfold valid_path; simpl. intros H. apply andb_true_iff in H.
  destruct H as [H1 H2]. split; [|exact H2].
  destruct (len s =? 0)%Z; [discriminate|reflexivity].
Qed.

(** Resolving a path that exists creates nothing. *)
Lemma create_walk_exists (p : NodePath) (h : handle) (root b : items) :
  valid_path p = true ->
  bucket_at root (h ++ p) = Some b ->
  create_walk h p root = (inr (h ++ p), root).
Proof.
  revert h. induction p as [|s p IH]; intros h V H; simpl.
  - rewrite app_nil_r; reflexivity.
  - apply valid_path_cons in V. destruct V as [Vs Vp]. rewrite Vs.
    pose proof H as H'. rewrite bucket_at_app in H'.
    destruct (bucket_at root h) as [bh|] eqn:Bh; [|discriminate].
    rewrite (entries_at_some _ _ Bh). simpl in H'.
    destruct (get s bh) as [[v|c]|] eqn:G; try discriminate.
    replace (h ++ s :: p) with ((h ++ [s]) ++ p) in * by (rewrite <- app_assoc; reflexivity).
    apply IH; assumption.
Qed.

(** A successful walk ends at the path, whose bucket holds what it held
    before, or nothing when it has just been created. *)
Lemma create_walk_ok (p : NodePath) (h h' : handle) (root root' bh : items) :
  bucket_at root h = Some bh ->
  create_walk h p root = (inr h', root') ->
  h' = h ++ p /\ bucket_at root' (h ++ p) = Some (entries_at root (h ++ p)).
Proof.
  revert h root bh. induction p as [|s p IH]; intros h root bh Bh; simpl.
  - intros E; inversion E; subst. rewrite app_nil_r.
    rewrite (entries_at_some _ _ Bh). auto.
  - destruct (len s =? 0)%Z; [discriminate|].
    rewrite (entries_at_some _ _ Bh).
    replace (h ++ s :: p) with ((h ++ [s]) ++ p) by (rewrite <- app_assoc; reflexivity).
    destruct (get s bh) as [[v|c]|] eqn:G; [discriminate| |].
    + apply IH with (bh := c).
      rewrite bucket_at_app, Bh. simpl. rewrite G. reflexivity.
    + intros E.
      assert (B1 : bucket_at (update_at h (put s (Sub [])) root) (h ++ [s]) = Some []).
      { rewrite bucket_at_app, (bucket_at_update_at _ _ _ Bh). simpl.
        rewrite get_put_same. reflexivity. }
      destruct (IH _ _ _ B1 E) as [E1 E2]. split; [exact E1|].
      rewrite E2. f_equal.
      unfold entries_at at 1. rewrite bucket_at_app, B1.
      unfold entries_at. rewrite (bucket_at_app root (h ++ [s]) p).
      rewrite (bucket_at_app root h [s]), Bh. simpl. rewrite G.
      fold (entries_at [] p). apply bucket_at_empty.
Qed.

(** ** The engine on the transaction just begun *)

Lemma list_set_last {A} (l : list A) (x y : A) :
  list_set (List.length l) x (l ++ [y]) = l ++ [x].
Proof. induction l as [|a l IH]; simpl; [reflexivity|]. rewrite IH; reflexivity. Qed.

Lemma tx_lookup_in_tx (w : World) (wr : bool) (root : items) :
  tx_lookup (in_tx w wr root) (next_tx w) = mkTx root wr true.
Proof. unfold tx_lookup, in_tx, next_tx; simpl. apply nth_middle. Qed.

Lemma tx_store_in_tx (w : World) (wr : bool) (root root' : items) :
  tx_store (in_tx w wr root) (next_tx w) (mkTx root' wr true) = in_tx w wr root'.
Proof.
  unfold tx_store, in_tx, next_tx; simpl. rewrite list_set_last. reflexivity.
Qed.

Lemma DB_Begin_idle {U} (wr : bool) (u : U) (w : World) :
  opened w = true ->
  (wr = true -> writer_active w = false) ->
  DB_Begin wr u w = Returns (inr (next_tx w), u, in_tx w wr (committed w)).
Proof.
  intros O I. unfold DB_Begin, in_tx, next_tx. rewrite O; simpl.
  destruct wr; simpl; [rewrite (I eq_refl)|]; reflexivity.
Qed.

Lemma Tx_Writable_in_tx {U} (wr : bool) (u : U) (w : World) (root : items) :
  Tx_Writable (next_tx w) u (in_tx w wr root) = Returns (wr, u, in_tx w wr root).
Proof. unfold Tx_Writable. rewrite tx_lookup_in_tx. reflexivity. Qed.

Lemma Tx_Commit_in_tx {U} (u : U) (w : World) (root : items) :
  Tx_Commit (next_tx w) u (in_tx w true root) = Returns (None, u, after_commit w root).
Proof.
  unfold Tx_Commit. rewrite tx_lookup_in_tx. simpl.
  unfold after_commit, in_tx, next_tx; simpl.
  rewrite list_set_last, <- app_assoc. reflexivity.
Qed.

Lemma Tx_Rollback_in_tx {U} (wr : bool) (u : U) (w : World) (root : items) :
  Tx_Rollback (next_tx w) u (in_tx w wr root) =
  Returns (None, u, after_rollback w wr root).
Proof.
  unfold Tx_Rollback. rewrite tx_lookup_in_tx. simpl.
  unfold after_rollback, in_tx, next_tx; simpl.
  rewrite list_set_last, <- app_assoc. reflexivity.
Qed.

(** The deferred rollback after a commit finds the transaction closed. *)
Lemma Tx_Rollback_after_commit {U} (u : U) (w : World) (root : items) :
  Tx_Rollback (next_tx w) u (after_commit w root) =
  Returns (Some ErrTxClosed, u, after_commit w root).
Proof.
  unfold Tx_Rollback, tx_lookup, after_commit, next_tx; simpl.
  rewrite nth_middle. reflexivity.
Qed.

Lemma Bucket_Get_in_tx {U} (wr : bool) (h : handle) (k : key) (u : U) (w : World)
      (root : items) :
  Bucket_Get (mkBucket (next_tx w) h) k u (in_tx w wr root) =
  Returns (match get k (entries_at root h) with
           | Some (Leaf v) => Some v
           | _ => None
           end, u, in_tx w wr root).
Proof.
  unfold Bucket_Get; simpl. rewrite tx_lookup_in_tx; simpl.
  destruct (get k (entries_at root h)) as [[v|c]|]; reflexivity.
Qed.

Lemma Bucket_Put_in_tx {U} (h : handle) (k : key) (v : bytes) (u : U) (w : World)
      (root : items) :
  Bucket_Put (mkBucket (next_tx w) h) k v u (in_tx w true root) =
  if (len k =? 0)%Z then Returns (Some ErrKeyRequired, u, in_tx w true root)
  else if (MaxKeySize <? len k)%Z then Returns (Some ErrKeyTooLarge, u, in_tx w true root)
  else if (MaxValueSize <? len v)%Z then Returns (Some ErrValueTooLarge, u, in_tx w true root)
  else
    match get k (entries_at root h) with
    | Some (Sub _) => Returns (Some ErrIncompatibleValue, u, in_tx w true root)
    | _ => Returns (None, u, in_tx w true (update_at h (put k (Leaf v)) root))
    end.
Proof.
  unfold Bucket_Put; simpl. rewrite tx_lookup_in_tx; simpl.
  unfold set_root; simpl. rewrite tx_store_in_tx. reflexivity.
Qed.

Lemma Bucket_Delete_in_tx {U} (h : handle) (k : key) (u : U) (w : World)
      (root : items) :
  Bucket_Delete (mkBucket (next_tx w) h) k u (in_tx w true root) =
  match get k (entries_at root h) with
  | Some (Sub _) => Returns (Some ErrIncompatibleValue, u, in_tx w true root)
  | _ => Returns (None, u, in_tx w true (update_at h (del k) root))
  end.
Proof.
  unfold Bucket_Delete; simpl. rewrite tx_lookup_in_tx; simpl.
  unfold set_root; simpl. rewrite tx_store_in_tx. reflexivity.
Qed.

Lemma Cursor_entries_in_tx {U} (wr : bool) (h : handle) (u : U) (w : World)
      (root : items) :
  Cursor_entries (mkBucket (next_tx w) h) u (in_tx w wr root) =
  Returns (entries_at root h, u, in_tx w wr root).
Proof. unfold Cursor_entries; simpl. rewrite tx_lookup_in_tx. reflexivity. Qed.

Lemma Bucket_CreateBucketIfNotExists_in_tx {U} (h : handle) (s : key) (u : U)
      (w : World) (root : items) :
  Bucket_CreateBucketIfNotExists (mkBucket (next_tx w) h) s u (in_tx w true root) =
  if (len s =? 0)%Z then Returns (inl ErrBucketNameRequired, u, in_tx w true root)
  else
    match get s (entries_at root h) with
    | Some (Sub _) => Returns (inr (mkBucket (next_tx w) (h ++ [s])), u, in_tx w true root)
    | Some (Leaf _) => Returns (inl ErrIncompatibleValue, u, in_tx w true root)
    | None =>
      Returns (inr (mkBucket (next_tx w) (h ++ [s])), u,
               in_tx w true (update_at h (put s (Sub [])) root))
    end.
Proof.
  unfold Bucket_CreateBucketIfNotExists; simpl. rewrite tx_lookup_in_tx; simpl.
  unfold set_root; simpl. rewrite tx_store_in_tx. reflexivity.
Qed.

Lemma Bucket_Bucket_in_tx {U} (wr : bool) (h : handle) (s : key) (u : U)
      (w : World) (root : items) :
  Bucket_Bucket (mkBucket (next_tx w) h) s u (in_tx w wr root) =
  Returns (match get s (entries_at root h) with
           | Some (Sub _) => Some (mkBucket (next_tx w) (h ++ [s]))
           | _ => None
           end, u, in_tx w wr root).
Proof.
  unfold Bucket_Bucket; simpl. rewrite tx_lookup_in_tx; simpl.
  destruct (get s (entries_at root h)) as [[v|c]|]; reflexivity.
Qed.

Lemma entries_at_snoc (root : items) (h : handle) (s : key) (c : items) :
  get s (entries_at root h) = Some (Sub c) -> entries_at root (h ++ [s]) = c.
Proof.
  unfold entries_at. rewrite bucket_at_app.
  destruct (bucket_at root h) as [bh|]; simpl.
  - intros ->; reflexivity.
  - discriminate.
Qed.

(** From here on the engine's calls are rewritten with the equations
    above rather than unfolded. *)
Arguments in_tx : simpl never.
Arguments after_commit : simpl never.
Arguments after_rollback : simpl never.
Arguments next_tx : simpl never.
Arguments DB_Begin : simpl never.
Arguments Tx_Writable : simpl never.
Arguments Tx_Commit : simpl never.
Arguments Tx_Rollback : simpl never.
Arguments Bucket_Get : simpl never.
Arguments Bucket_Put : simpl never.
Arguments Bucket_Delete : simpl never.
Arguments Cursor_Delete : simpl never.
Arguments Bucket_DeleteBucket : simpl never.
Arguments Bucket_Bucket : simpl never.
Arguments Bucket_CreateBucketIfNotExists : simpl never.
Arguments Cursor_entries : simpl never.
Arguments create_walk : simpl never.

(** ** Path resolution inside the transaction *)

Lemma NodePath_walk_create {U} (p : NodePath) (h : handle) (u : U) (w : World)
      (root : items) :
  NodePath_walk true (mkBucket (next_tx w) h) p u (in_tx w true root) =
  Returns (match fst (create_walk h p root) with
           | inl e => inl e
           | inr h' => inr (mkBucket (next_tx w) h')
           end, u, in_tx w true (snd (create_walk h p root))).
Proof.
  revert h root. induction p as [|s p IH]; intros h root; [reflexivity|].
  cbn [NodePath_walk]. unfold bind. rewrite Bucket_CreateBucketIfNotExists_in_tx.
  unfold create_walk; fold create_walk.
  destruct (len s =? 0)%Z; [reflexivity|].
  destruct (get s (entries_at root h)) as [[v|c]|]; [reflexivity| |]; apply IH.
Qed.

Lemma NodePath_walk_lookup {U} (wr : bool) (p : NodePath) (h : handle) (u : U)
      (w : World) (root : items) :
  NodePath_walk false (mkBucket (next_tx w) h) p u (in_tx w wr root) =
  Returns (match bucket_at (entries_at root h) p with
           | Some _ => inr (mkBucket (next_tx w) (h ++ p))
           | None => inl ErrBucketNotFound
           end, u, in_tx w wr root).
Proof.
  revert h. induction p as [|s p IH]; intros h; simpl.
  - rewrite app_nil_r; reflexivity.
  - unfold bind. rewrite Bucket_Bucket_in_tx.
    destruct (get s (entries_at root h)) as [[v|c]|] eqn:G; try reflexivity.
    rewrite IH, (entries_at_snoc _ _ _ G), <- app_assoc. reflexivity.
Qed.

Lemma Node_bucket_create {Val U} (c : KV Val) (p : NodePath) (u : U) (w : World)
      (root : items) :
  Node_bucket (mkNode c (Some (next_tx w)) None p) u (in_tx w true root) =
  match fst (create_walk [] p root) with
  | inl e =>
    Returns ((mkNode c (Some (next_tx w)) None p, inl (bucket_err e)), u,
             in_tx w true (snd (create_walk [] p root)))
  | inr h =>
    Returns ((mkNode c (Some (next_tx w)) (Some (mkBucket (next_tx w) h)) p,
              inr (mkBucket (next_tx w) h)), u,
             in_tx w true (snd (create_walk [] p root)))
  end.
Proof.
  unfold Node_bucket, NodePath_Bucket, bind; cbn.
  rewrite Tx_Writable_in_tx, NodePath_walk_create.
  destruct (fst (create_walk [] p root)) as [e|h]; [|reflexivity].
  unfold bucket_err. destruct (errors_Is e ErrBucketNotFound); reflexivity.
Qed.

Lemma Node_bucket_lookup {Val U} (c : KV Val) (p : NodePath) (u : U) (w : World)
      (root : items) :
  Node_bucket (mkNode c (Some (next_tx w)) None p) u (in_tx w false root) =
  match bucket_at root p with
  | Some _ =>
    Returns ((mkNode c (Some (next_tx w)) (Some (mkBucket (next_tx w) p)) p,
              inr (mkBucket (next_tx w) p)), u, in_tx w false root)
  | None =>
    Returns ((mkNode c (Some (next_tx w)) None p, inl ErrKeyNotFound), u,
             in_tx w false root)
  end.
Proof.
  unfold Node_bucket, NodePath_Bucket, bind; cbn.
  rewrite Tx_Writable_in_tx, NodePath_walk_lookup. cbn.
  destruct (bucket_at root p); reflexivity.
Qed.

Lemma Node_bucketExists_in_tx {Val U} (c : KV Val) (wr : bool) (p : NodePath)
      (u : U) (w : World) (root : items) :
  Node_bucketExists (mkNode c (Some (next_tx w)) None p) u (in_tx w wr root) =
  match bucket_at root p with
  | Some _ =>
    Returns ((mkNode c (Some (next_tx w)) (Some (mkBucket (next_tx w) p)) p, true),
             u, in_tx w wr root)
  | None => Returns ((mkNode c (Some (next_tx w)) None p, false), u, in_tx w wr root)
  end.
Proof.
  unfold Node_bucketExists, NodePath_BucketExists, bind; cbn.
  rewrite NodePath_walk_lookup. cbn.
  destruct (bucket_at root p); reflexivity.
Qed.

(** ** doTx on a node without a transaction *)

Lemma Node_doTx_fresh {Val U} (n : Node Val) (f : Node Val -> M U error)
      (wr : bool) (u : U) (w : World) :
  txn n = None ->
  opened w = true ->
  (wr = true -> writer_active w = false) ->
  Node_doTx n f wr u w =
  if (0 <? Z.of_nat (List.length (path n)))%Z && wr then
    match fst (create_walk [] (path n) (committed w)) with
    | inl e =>
      Returns (Some (Wrap (bucket_err e) "failed to fetch bucket for existing path"),
               u, after_rollback w true (snd (create_walk [] (path n) (committed w))))
    | inr h =>
      tx_body (next_tx w) true
              (f (mkNode (kv n) (Some (next_tx w)) (Some (mkBucket (next_tx w) h)) (path n)))
              u (in_tx w true (snd (create_walk [] (path n) (committed w))))
    end
  else
    tx_body (next_tx w) wr (f (mkNode (kv n) (Some (next_tx w)) None (path n)))
            u (in_tx w wr (committed w)).
Proof.
  intros T O I. unfold Node_doTx. rewrite T.
  unfold bind at 1. rewrite DB_Begin_idle by assumption.
  cbv beta iota zeta. cbn [path kv].
  destruct ((0 <? Z.of_nat (List.length (path n)))%Z && wr) eqn:C.
  - apply andb_true_iff in C. destruct C as [_ ->].
    unfold defer, bind. cbv beta iota. rewrite Node_bucket_create.
    destruct (fst (create_walk [] (path n) (committed w))) as [e|h]; cbv beta iota.
    + unfold ret. rewrite Tx_Rollback_in_tx. reflexivity.
    + reflexivity.
  - reflexivity.
Qed.

Lemma tx_body_commit {U} (c : M U error) (u u' : U) (w : World) (root root' : items) :
  c u (in_tx w true root) = Returns (None, u', in_tx w true root') ->
  tx_body (next_tx w) true c u (in_tx w true root) =
  Returns (None, u', after_commit w root').
Proof.
  intros H. unfold tx_body, defer, bind. rewrite H.
  rewrite Tx_Commit_in_tx. cbn. rewrite Tx_Rollback_after_commit. reflexivity.
Qed.

Lemma tx_body_rollback {U} (wr : bool) (c : M U error) (e : err) (u u' : U)
      (w : World) (root root' : items) :
  c u (in_tx w wr root) = Returns (Some e, u', in_tx w wr root') ->
  tx_body (next_tx w) wr c u (in_tx w wr root) =
  Returns (Some e, u', after_rollback w wr root').
Proof.
  intros H. unfold tx_body, defer, bind. rewrite H. cbn.
  rewrite Tx_Rollback_in_tx. reflexivity.
Qed.

Lemma tx_body_view {U} (c : M U error) (u u' : U) (w : World) (root root' : items) :
  c u (in_tx w false root) = Returns (None, u', in_tx w false root') ->
  tx_body (next_tx w) false c u (in_tx w false root) =
  Returns (None, u', after_rollback w false root').
Proof.
  intros H. unfold tx_body, defer, bind. rewrite H. cbn.
  rewrite Tx_Rollback_in_tx. reflexivity.
Qed.

Lemma resolves_at (p : NodePath) (root : items) :
  resolves p root = true -> fst (create_walk [] p root) = inr p.
Proof.
  unfold resolves. destruct (create_walk [] p root) as [[e|h] root'] eqn:E; simpl.
  - discriminate.
  - intros _. destruct (@create_walk_ok p [] h root root' root eq_refl E) as [-> _].
    reflexivity.
Qed.

Lemma resolves_existing (p : NodePath) (root b : items) :
  valid_path p = true -> bucket_at root p = Some b ->
  resolves p root = true /\ resolved_root p root = root.
Proof.
  intros V B. unfold resolves, resolved_root.
  rewrite (@create_walk_exists p [] root b V B). auto.
Qed.

Lemma resolved_root_bucket (p : NodePath) (root : items) :
  resolves p root = true ->
  bucket_at (resolved_root p root) p = Some (entries_at root p).
Proof.
  unfold resolves, resolved_root.
  destruct (create_walk [] p root) as [[e|h] root'] eqn:E; simpl; [discriminate|].
  intros _. destruct (@create_walk_ok p [] h root root' root eq_refl E) as [_ H].
  exact H.
Qed.

Lemma create_walk_nil (h : handle) (root : items) :
  create_walk h [] root = (inr h, root).
Proof. reflexivity. Qed.

Lemma Node_bucket_cached {Val U} (n : Node Val) (b : Bucket) (u : U) (w : World) :
  buck n = Some b -> Node_bucket n u w = Returns ((n, inr b), u, w).
Proof. intros H. unfold Node_bucket. rewrite H. reflexivity. Qed.

(** A writable transaction begun by TxUpdate: the callback's first call to
    [n.bucket()] yields the bucket of the path, in the tree where the
    path's missing buckets have been created. *)
Lemma TxUpdate_fresh_bucket {Val U} (n : Node Val)
      (k : Node Val * (err + Bucket) -> M U error) (u : U) (w : World) :
  txn n = None -> idle w ->
  resolves (path n) (committed w) = true ->
  Node_TxUpdate n (fun m => bind (Node_bucket m) k) u w =
  tx_body (next_tx w) true
          (k (cached_node n (next_tx w), inr (mkBucket (next_tx w) (path n))))
          u (in_tx w true (resolved_root (path n) (committed w))).
Proof.
  intros T [O I] R. unfold Node_TxUpdate. rewrite T.
  rewrite Node_doTx_fresh by auto.
  pose proof (resolves_at _ _ R) as E. unfold resolved_root.
  destruct (path n) as [|s p] eqn:P.
  - cbn [List.length Z.of_nat Z.ltb Z.compare andb].
    unfold tx_body, defer, bind.
    rewrite Node_bucket_create. rewrite create_walk_nil. cbn [fst snd].
    unfold cached_node. rewrite P. reflexivity.
  - replace ((0 <? Z.of_nat (List.length (s :: p)))%Z && true) with true
      by (symmetry; apply andb_true_iff; split; [apply Z.ltb_lt; simpl; lia|reflexivity]).
    rewrite E. unfold tx_body, defer, bind.
    rewrite Node_bucket_cached with (b := mkBucket (next_tx w) (s :: p)) by reflexivity.
    unfold cached_node. rewrite P. reflexivity.
Qed.

(** A read-only transaction begun by TxView: [n.bucket()] finds the bucket
    or reports [ErrKeyNotFound]; nothing is created. *)
Lemma TxView_fresh_bucket {Val U} (n : Node Val)
      (k : Node Val * (err + Bucket) -> M U error) (u : U) (w : World) :
  txn n = None -> opened w = true ->
  Node_TxView n (fun m => bind (Node_bucket m) k) u w =
  tx_body (next_tx w) false
          (k (match bucket_at (committed w) (path n) with
              | Some _ => (cached_node n (next_tx w),
                           inr (mkBucket (next_tx w) (path n)))
              | None => (mkNode (kv n) (Some (next_tx w)) None (path n),
                         inl ErrKeyNotFound)
              end))
          u (in_tx w false (committed w)).
Proof.
  intros T O. unfold Node_TxView.
  rewrite Node_doTx_fresh by (auto; discriminate).
  rewrite andb_false_r.
  unfold tx_body, defer, bind.
  rewrite Node_bucket_lookup.
  destruct (bucket_at (committed w) (path n)); reflexivity.
Qed.

(** When the path cannot be resolved the callback is never reached. *)
Lemma TxUpdate_fresh_unresolved {Val U} (n : Node Val) (f : Node Val -> M U error)
      (u : U) (w : World) :
  txn n = None -> idle w ->
  resolves (path n) (committed w) = false ->
  exists e,
    fst (create_walk [] (path n) (committed w)) = inl e /\
    Node_TxUpdate n f u w =
    Returns (Some (Wrap (bucket_err e) "failed to fetch bucket for existing path"),
             u, after_rollback w true (resolved_root (path n) (committed w))).
Proof.
  intros T [O I] R. unfold Node_TxUpdate. rewrite T.
  rewrite Node_doTx_fresh by auto.
  unfold resolves in R. unfold resolved_root.
  destruct (path n) as [|s p] eqn:P.
  - rewrite create_walk_nil in R. discriminate.
  - replace ((0 <? Z.of_nat (List.length (s :: p)))%Z && true) with true
      by (symmetry; apply andb_true_iff; split; [apply Z.ltb_lt; simpl; lia|reflexivity]).
    destruct (fst (create_walk [] (s :: p) (committed w))) as [e|h]; [|discriminate].
    exists e. split; reflexivity.
Qed.

(** ** The CRUD operations on a node without a transaction *)

Lemma Node_Set_fresh {Val U} (n : Node Val) (k : key) (v : Val) (b : bytes)
      (u : U) (w : World) :
  txn n = None -> idle w ->
  Marshal (kv n) v = inr b ->
  resolves (path n) (committed w) = true ->
  Node_Set n k v u w =
  let root := resolved_root (path n) (committed w) in
  match put_error (mustKey k) b (entries_at root (path n)) with
  | Some e => Returns (Some e, u, after_rollback w true root)
  | None =>
    Returns (None, u,
             after_commit w (update_at (path n) (put (mustKey k) (Leaf b)) root))
  end.
Proof.
  intros T I Mv R. unfold Node_Set. rewrite Mv.
  rewrite TxUpdate_fresh_bucket by assumption.
  cbv zeta. unfold put_error.
  set (root := resolved_root (path n) (committed w)).
  pose proof (@Bucket_Put_in_tx U (path n) (mustKey k) b u w root) as HP.
  destruct (len (mustKey k) =? 0)%Z;
    [apply tx_body_rollback; exact HP|].
  destruct (MaxKeySize <? len (mustKey k))%Z;
    [apply tx_body_rollback; exact HP|].
  destruct (MaxValueSize <? len b)%Z;
    [apply tx_body_rollback; exact HP|].
  destruct (get (mustKey k) (entries_at root (path n))) as [[x|c]|];
    [apply tx_body_commit; exact HP
    |apply tx_body_rollback; exact HP
    |apply tx_body_commit; exact HP].
Qed.

Lemma Node_SetIfNone_fresh {Val U} (n : Node Val) (k : key) (v : Val) (b : bytes)
      (u : U) (w : World) :
  txn n = None -> idle w ->
  Marshal (kv n) v = inr b ->
  resolves (path n) (committed w) = true ->
  Node_SetIfNone n k v u w =
  let root := resolved_root (path n) (committed w) in
  if has_value (mustKey k) (entries_at root (path n)) then
    Returns (None, u, after_commit w root)
  else
    match put_error (mustKey k) b (entries_at root (path n)) with
    | Some e => Returns (Some e, u, after_rollback w true root)
    | None =>
      Returns (None, u,
               after_commit w (update_at (path n) (put (mustKey k) (Leaf b)) root))
    end.
Proof.
  intros T I Mv R. unfold Node_SetIfNone. rewrite Mv.
  rewrite TxUpdate_fresh_bucket by assumption.
  cbv zeta. unfold put_error, has_value.
  set (root := resolved_root (path n) (committed w)).
  pose proof (@Bucket_Put_in_tx U (path n) (mustKey k) b u w root) as HP.
  pose proof (@Bucket_Get_in_tx U true (path n) (mustKey k) u w root) as HG.
  destruct (get (mustKey k) (entries_at root (path n))) as [[x|c]|].
  - apply tx_body_commit. unfold bind. rewrite HG. reflexivity.
  - assert (HB : bind (Bucket_Get (mkBucket (next_tx w) (path n)) (mustKey k))
                      (fun g => match g with
                                | Some _ => ret None
                                | None => Bucket_Put (mkBucket (next_tx w) (path n)) (mustKey k) b
                                end) u (in_tx w true root)
                 = Bucket_Put (mkBucket (next_tx w) (path n)) (mustKey k) b u (in_tx w true root))
      by (unfold bind; rewrite HG; reflexivity).
    destruct (len (mustKey k) =? 0)%Z;
      [apply tx_body_rollback; rewrite HB; exact HP|].
    destruct (MaxKeySize <? len (mustKey k))%Z;
      [apply tx_body_rollback; rewrite HB; exact HP|].
    destruct (MaxValueSize <? len b)%Z;
      apply tx_body_rollback; rewrite HB; exact HP.
  - assert (HB : bind (Bucket_Get (mkBucket (next_tx w) (path n)) (mustKey k))
                      (fun g => match g with
                                | Some _ => ret None
                                | None => Bucket_Put (mkBucket (next_tx w) (path n)) (mustKey k) b
                                end) u (in_tx w true root)
                 = Bucket_Put (mkBucket (next_tx w) (path n)) (mustKey k) b u (in_tx w true root))
      by (unfold bind; rewrite HG; reflexivity).
    destruct (len (mustKey k) =? 0)%Z;
      [apply tx_body_rollback; rewrite HB; exact HP|].
    destruct (MaxKeySize <? len (mustKey k))%Z;
      [apply tx_body_rollback; rewrite HB; exact HP|].
    destruct (MaxValueSize <? len b)%Z;
      [apply tx_body_rollback; rewrite HB; exact HP|].
    apply tx_body_commit; rewrite HB; exact HP.
Qed.

Lemma Node_Delete_fresh {Val U} (n : Node Val) (k : key) (u : U) (w : World) :
  txn n = None -> idle w ->
  resolves (path n) (committed w) = true ->
  Node_Delete n k u w =
  let root := resolved_root (path n) (committed w) in
  match get (mustKey k) (entries_at root (path n)) with
  | Some (Sub _) => Returns (Some ErrIncompatibleValue, u, after_rollback w true root)
  | _ => Returns (None, u, after_commit w (update_at (path n) (del (mustKey k)) root))
  end.
Proof.
  intros T I R. unfold Node_Delete.
  rewrite TxUpdate_fresh_bucket by assumption.
  cbv zeta.
  set (root := resolved_root (path n) (committed w)).
  pose proof (@Bucket_Delete_in_tx U (path n) (mustKey k) u w root) as HD.
  destruct (get (mustKey k) (entries_at root (path n))) as [[x|c]|];
    [apply tx_body_commit; exact HD
    |apply tx_body_rollback; exact HD
    |apply tx_body_commit; exact HD].
Qed.

Lemma Node_Exists_fresh {Val U} (n : Node Val) (k : key) (u : U) (w : World) :
  txn n = None -> opened w = true ->
  Node_Exists n k u w =
  Returns (match bucket_at (committed w) (path n) with
           | Some its => String.eqb k "" || has_value k its
           | None => false
           end, u, after_rollback w false (committed w)).
Proof.
  intros T O. unfold Node_Exists, with_local, Node_TxView, bind at 1.
  rewrite Node_doTx_fresh by (auto; discriminate).
  rewrite andb_false_r.
  unfold tx_body, defer, bind. rewrite Node_bucketExists_in_tx.
  destruct (bucket_at (committed w) (path n)) as [its|] eqn:B; cbn.
  - unfold has_value.
    destruct (String.eqb k "") eqn:E; cbn.
    + rewrite Tx_Rollback_in_tx. reflexivity.
    + rewrite Bucket_Get_in_tx. rewrite (entries_at_some _ _ B).
      destruct (get k its) as [[x|c]|]; cbn; rewrite Tx_Rollback_in_tx; reflexivity.
  - rewrite Tx_Rollback_in_tx. reflexivity.
Qed.

(** ** What a finished transaction leaves behind *)

Lemma committed_after_commit (w : World) (root : items) :
  committed (after_commit w root) = root.
Proof. reflexivity. Qed.

Lemma committed_after_rollback (w : World) (wr : bool) (root : items) :
  committed (after_rollback w wr root) = committed w.
Proof. reflexivity. Qed.

Lemma commits_after_commit (w : World) (root : items) :
  commits (after_commit w root) = S (commits w).
Proof.
  unfold commits, after_commit; simpl.
  rewrite filter_app, length_app; simpl. lia.
Qed.

Lemma commits_after_rollback (w : World) (wr : bool) (root : items) :
  commits (after_rollback w wr root) = commits w.
Proof.
  unfold commits, after_rollback; simpl.
  rewrite filter_app, length_app; simpl. lia.
Qed.

Lemma idle_after_commit (w : World) (root : items) :
  idle w -> idle (after_commit w root).
Proof.
  intros [O I]. split; [exact O|].
  unfold writer_active, after_commit; simpl.
  rewrite existsb_app. fold (writer_active w). rewrite I. reflexivity.
Qed.

Lemma rolled_back_after_rollback (w : World) (wr : bool) (root : items) :
  rolled_back w (after_rollback w wr root) wr.
Proof.
  unfold rolled_back.
  split; [reflexivity|]. split; [apply commits_after_rollback|].
  split; [reflexivity|]. split.
  - unfold tx_lookup, after_rollback, next_tx; cbn [txs].
    rewrite nth_middle. reflexivity.
  - unfold writer_active, after_rollback; cbn [txs].
    rewrite existsb_app. cbn. rewrite andb_false_r, orb_false_r. reflexivity.
Qed.

Lemma committed_once_after_commit (w : World) (root : items) :
  committed_once w (after_commit w root) root.
Proof.
  unfold committed_once.
  split; [reflexivity|]. split; [apply commits_after_commit|].
  split; [reflexivity|]. split.
  - unfold tx_lookup, after_commit, next_tx; cbn [txs].
    rewrite nth_middle. reflexivity.
  - unfold writer_active, after_commit; cbn [txs].
    rewrite existsb_app. cbn. rewrite orb_false_r. reflexivity.
Qed.

(** ** C7: Set and a value that does not serialize *)

(** C7: if the codec fails to serialize the value, Set returns the encode
    error (wrapped) without opening a transaction: the world, its list of
    transactions and its log included, is exactly what it was. *)
Theorem Set_encode_error_leaves_state {Val U} (n : Node Val) (k : key) (v : Val)
        (e : err) (u : U) (w : World) :
  Marshal (kv n) v = inl e ->
  Node_Set n k v u w = Returns (Some (Wrap e "failed to marshal"), u, w).
Proof. intros H. unfold Node_Set. rewrite H. reflexivity. Qed.

Lemma Set_encode_error_leaves_state_witness :
  Marshal (kv (node_at failing_codec ["rooms"])) "1" =
    inl (CodecError "unsupported type") /\
  Node_Set (node_at failing_codec ["rooms"]) "a" "1" tt empty_db =
    Returns (Some (Wrap (CodecError "unsupported type") "failed to marshal"),
             tt, empty_db).
Proof.
  split; [reflexivity|].
  apply (@Set_encode_error_leaves_state bytes unit (node_at failing_codec ["rooms"])).
  reflexivity.
Defined.

(** ** C1: Set then Exists *)

(** Where mustKey leaves the key as it is, Exists looks up the very key
    Set stored. *)
Lemma Set_then_Exists_unsanitized {Val U} (n : Node Val) (k : key) (v : Val)
      (u u1 : U) (w w1 : World) :
  txn n = None -> idle w ->
  mustKey k = k ->
  Node_Set n k v u w = Returns (None, u1, w1) ->
  exists w2, Node_Exists n k u1 w1 = Returns (true, u1, w2).
Proof.
  intros T I K H.
  destruct (Marshal (kv n) v) as [e|b] eqn:Mv.
  { unfold Node_Set in H. rewrite Mv in H. discriminate. }
  destruct (resolves (path n) (committed w)) eqn:R.
  2:{ unfold Node_Set in H. rewrite Mv in H.
      destruct (TxUpdate_fresh_unresolved n
                  (fun m => bind (Node_bucket m)
                     (fun x => let '(n0, r) := x in
                               match r with
                               | inl e => ret (Some e)
                               | inr b0 => Bucket_Put b0 (mustKey k) b
                               end)) u T I R) as [e [_ E]].
      rewrite E in H. discriminate. }
  rewrite (Node_Set_fresh _ _ _ _ T I Mv R) in H. cbv zeta in H.
  destruct (put_error (mustKey k) b _); [discriminate|].
  inversion H; subst u1 w1.
  eexists. rewrite Node_Exists_fresh by (auto; apply I).
  rewrite committed_after_commit.
  rewrite (bucket_at_update_at _ _ _ (resolved_root_bucket _ _ R)).
  unfold has_value. rewrite K, get_put_same, orb_true_r. reflexivity.
Qed.

(** C1 at the failing input: on an empty database, [Set] of the key made of
    two null bytes succeeds, and [Exists] of that same key then answers
    false: Set stored it under three null bytes, Exists looks up two. *)
Theorem Exists_misses_sanitized_key :
  exists w1 w2,
    Node_Set (node_at raw_codec ["rooms"]) nullKey "v" tt empty_db =
      Returns (None, tt, w1) /\
    committed w1 = [("rooms", Sub [(nuls 3, Leaf "v")])] /\
    Node_Exists (node_at raw_codec ["rooms"]) nullKey tt w1 =
      Returns (false, tt, w2).
Proof.
  eexists. eexists. split; [vm_compute; reflexivity|].
  split; vm_compute; reflexivity.
Qed.

(** ** C2: TxUpdate when the path cannot be resolved *)

(** C2, as stated, fails: the bucket ["a"] holds a value under ["b"], so
    the path a/b cannot be resolved; TxUpdate returns that error and the
    callback, which would have set the flag, has not run. *)
Lemma TxUpdate_unresolved_skips_callback :
  exists w',
    Node_TxUpdate (node_at raw_codec ["a"; "b"]) mark_called false
                  (db_of [("a", Sub [("b", Leaf "v")])]) =
    Returns (Some (Wrap ErrIncompatibleValue "failed to fetch bucket for existing path"),
             false, w').
Proof. eexists. vm_compute. reflexivity. Qed.

(** C2 (amended): when TxUpdate begins a fresh writable transaction on a
    node with a non-empty path, a failure to resolve the bucket is fatal to
    the call: whatever the callback, it is not invoked, TxUpdate returns
    the resolution error wrapped, and the transaction is rolled back: the
    committed tree and the number of commits are unchanged, the log ends
    with the rollback of the transaction just begun, that transaction is
    closed and no writer is left active.  When the bucket resolves, the
    callback is invoked on the node holding it; a failure of the callback
    rolls the transaction back in the same way, and its success commits the
    callback's tree, once, and closes the transaction. *)
Theorem TxUpdate_resolution_failure_is_fatal {Val U} (n n' : Node Val)
        (r : err + Bucket) (u u1 : U) (w w1 : World) :
  txn n = None -> idle w -> path n <> [] ->
  Node_bucket (mkNode (kv n) (Some (next_tx w)) None (path n)) u
              (in_tx w true (committed w)) = Returns ((n', r), u1, w1) ->
  match r with
  | inl e =>
    exists w',
      (forall f, Node_TxUpdate n f u w =
                 Returns (Some (Wrap e "failed to fetch bucket for existing path"),
                          u, w')) /\
      rolled_back w w' true /\ writer_active w' = false
  | inr _ =>
    forall f,
      Node_TxUpdate n f u w = tx_body (next_tx w) true (f n') u1 w1 /\
      (forall e u' root',
          f n' u1 w1 = Returns (Some e, u', in_tx w true root') ->
          exists w', Node_TxUpdate n f u w = Returns (Some e, u', w') /\
                     rolled_back w w' true /\ writer_active w' = false) /\
      (forall u' root',
          f n' u1 w1 = Returns (None, u', in_tx w true root') ->
          exists w', Node_TxUpdate n f u w = Returns (None, u', w') /\
                     committed_once w w' root' /\ writer_active w' = false)
  end.
Proof.
  intros T I P H. rewrite Node_bucket_create in H.
  assert (C : ((0 <? Z.of_nat (List.length (path n)))%Z && true) = true).
  { apply andb_true_iff; split; [|reflexivity]. apply Z.ltb_lt.
    destruct (path n); [congruence|simpl; lia]. }
  assert (D : forall f, Node_TxUpdate n f u w = Node_doTx n f true u w)
    by (intros f; unfold Node_TxUpdate; rewrite T; reflexivity).
  destruct I as [O I].
  assert (Wr : forall root, writer_active (after_rollback w true root) = false).
  { intros root.
    destruct (rolled_back_after_rollback w true root) as [_ [_ [_ [_ ->]]]].
    exact I. }
  assert (Wc : forall root, writer_active (after_commit w root) = false).
  { intros root.
    destruct (committed_once_after_commit w root) as [_ [_ [_ [_ ->]]]].
    exact I. }
  destruct (fst (create_walk [] (path n) (committed w))) as [e|h] eqn:E;
    inversion H; subst n' r u1 w1; clear H.
  - eexists. split; [|split].
    + intros f. rewrite D, Node_doTx_fresh by auto. rewrite C, E. reflexivity.
    + apply rolled_back_after_rollback.
    + apply Wr.
  - intros f.
    assert (F : Node_TxUpdate n f u w =
                tx_body (next_tx w) true
                  (f (mkNode (kv n) (Some (next_tx w))
                             (Some (mkBucket (next_tx w) h)) (path n)))
                  u (in_tx w true (snd (create_walk [] (path n) (committed w))))).
    { rewrite D, Node_doTx_fresh by auto. rewrite C, E. reflexivity. }
    split; [exact F|split].
    + intros e u' root' Hf. eexists. split; [|split].
      * rewrite F. apply tx_body_rollback. exact Hf.
      * apply rolled_back_after_rollback.
      * apply Wr.
    + intros u' root' Hf. eexists. split; [|split].
      * rewrite F. apply tx_body_commit. exact Hf.
      * apply committed_once_after_commit.
      * apply Wc.
Qed.

Lemma TxUpdate_resolution_failure_is_fatal_witness :
  exists w',
    (forall f, Node_TxUpdate (node_at raw_codec ["a"; "b"]) f false
                             (db_of [("a", Sub [("b", Leaf "v")])]) =
               Returns (Some (Wrap ErrIncompatibleValue
                                   "failed to fetch bucket for existing path"),
                        false, w')) /\
    (committed w' = [("a", Sub [("b", Leaf "v")])] /\
     commits w' = 0 /\
     log w' = [EvBegin 0 true; EvRollback 0] /\
     tx_open (tx_lookup w' 0) = false /\
     writer_active w' = false) /\
    writer_active w' = false.
Proof.
  refine (@TxUpdate_resolution_failure_is_fatal bytes bool
            (node_at raw_codec ["a"; "b"]) _ (inl ErrIncompatibleValue) false false
            (db_of [("a", Sub [("b", Leaf "v")])]) _ _ _ _ _).
  - reflexivity.
  - split; reflexivity.
  - discriminate.
  - vm_compute. reflexivity.
Defined.

Lemma resolved_entries (p : NodePath) (root : items) :
  resolves p root = true ->
  entries_at (resolved_root p root) p = entries_at root p.
Proof. intros R. apply entries_at_some, resolved_root_bucket, R. Qed.

(** ** C8: SetIfNone *)

(** C8: on a node whose bucket already holds a value under the (sanitized)
    key, SetIfNone of a serializable value returns nil and commits the tree
    as it was, so the stored value and every other entry are unchanged; when
    the key holds no value, SetIfNone and Set both return, leave one and the
    same world, and succeed or fail together. *)
Theorem SetIfNone_keeps_or_sets {Val U} (n : Node Val) (k : key) (v : Val)
        (u : U) (w : World) :
  txn n = None -> idle w ->
  (forall its old b,
      bucket_at (committed w) (path n) = Some its ->
      valid_path (path n) = true ->
      get (mustKey k) its = Some (Leaf old) ->
      Marshal (kv n) v = inr b ->
      exists w', Node_SetIfNone n k v u w = Returns (None, u, w') /\
                 committed w' = committed w) /\
  (has_value (mustKey k) (entries_at (committed w) (path n)) = false ->
   exists e1 e2 w',
     Node_SetIfNone n k v u w = Returns (e1, u, w') /\
     Node_Set n k v u w = Returns (e2, u, w') /\
     (e1 = None <-> e2 = None)).
Proof.
  intros T I. split.
  - intros its old b B V G Mv.
    destruct (resolves_existing _ _ V B) as [R RR].
    eexists. split.
    + rewrite (Node_SetIfNone_fresh _ _ _ _ T I Mv R). cbv zeta.
      rewrite RR, (entries_at_some _ _ B). unfold has_value. rewrite G.
      reflexivity.
    + reflexivity.
  - intros A.
    destruct (Marshal (kv n) v) as [e|b] eqn:Mv.
    { exists (Some (Wrap e "Failed to marshal")), (Some (Wrap e "failed to marshal")), w.
      unfold Node_SetIfNone, Node_Set. rewrite Mv.
      repeat split; intros; discriminate. }
    destruct (resolves (path n) (committed w)) eqn:R.
    + rewrite (Node_SetIfNone_fresh _ _ _ _ T I Mv R).
      rewrite (Node_Set_fresh _ _ _ _ T I Mv R). cbv zeta.
      rewrite (resolved_entries _ _ R), A.
      destruct (put_error (mustKey k) b (entries_at (committed w) (path n)));
        do 3 eexists; repeat split; intros; (reflexivity || discriminate).
    + unfold Node_SetIfNone, Node_Set. rewrite Mv.
      match goal with
      | |- context [Node_TxUpdate n ?f u w = Returns (_, u, _) /\
                    Node_TxUpdate n ?g u w = _ /\ _] =>
        destruct (TxUpdate_fresh_unresolved n f u T I R) as [e1 [E1 H1]];
        destruct (TxUpdate_fresh_unresolved n g u T I R) as [e2 [E2 H2]]
      end.
      rewrite H1, H2. rewrite E1 in E2; inversion E2; subst e2.
      do 3 eexists; repeat split; intros; discriminate.
Qed.

Lemma SetIfNone_keeps_or_sets_witness :
  (exists w',
      Node_SetIfNone (node_at raw_codec ["rooms"]) "a" "2" tt
                     (db_of [("rooms", Sub [("a", Leaf "1")])]) =
        Returns (None, tt, w') /\
      committed w' = [("rooms", Sub [("a", Leaf "1")])]) /\
  (exists e1 e2 w',
      Node_SetIfNone (node_at raw_codec ["rooms"]) "b" "2" tt
                     (db_of [("rooms", Sub [("a", Leaf "1")])]) =
        Returns (e1, tt, w') /\
      Node_Set (node_at raw_codec ["rooms"]) "b" "2" tt
               (db_of [("rooms", Sub [("a", Leaf "1")])]) =
        Returns (e2, tt, w') /\
      (e1 = None <-> e2 = None)).
Proof.
  split.
  - refine (proj1 (@SetIfNone_keeps_or_sets bytes unit (node_at raw_codec ["rooms"])
                     "a" "2" tt (db_of [("rooms", Sub [("a", Leaf "1")])])
                     eq_refl (conj eq_refl eq_refl))
                  [("a", Leaf "1")] "1" "2" _ _ _ _); reflexivity.
  - refine (proj2 (@SetIfNone_keeps_or_sets bytes unit (node_at raw_codec ["rooms"])
                     "b" "2" tt (db_of [("rooms", Sub [("a", Leaf "1")])])
                     eq_refl (conj eq_refl eq_refl)) _); reflexivity.
Defined.

(** ** C9: Delete *)

(** C9, as stated, fails.  Deleting the empty key succeeds, and Exists of
    the empty key then answers true, since it reports the bucket's presence;
    and deleting on a node whose bucket is missing creates that bucket. *)
Lemma Delete_then_Exists_empty_key :
  (exists w1 w2,
      Node_Delete (node_at raw_codec ["rooms"]) "" tt
                  (db_of [("rooms", Sub [("a", Leaf "1")])]) =
        Returns (None, tt, w1) /\
      Node_Exists (node_at raw_codec ["rooms"]) "" tt w1 =
        Returns (true, tt, w2)) /\
  (exists w1,
      Node_Delete (node_at raw_codec ["rooms"]) "a" tt empty_db =
        Returns (None, tt, w1) /\
      committed empty_db = [] /\
      committed w1 = [("rooms", Sub [])]).
Proof.
  split.
  - eexists. eexists. split; vm_compute; reflexivity.
  - eexists. split; [vm_compute; reflexivity|]. split; reflexivity.
Qed.

(** C9 (amended): Delete never errors on absence.  On a node whose bucket
    does not exist but whose path can be created, Delete returns nil and
    stores no entry: the write transaction creates the path's missing
    buckets and the node's bucket is empty.  On a bucket that lacks the key,
    Delete returns nil and the stored tree is unchanged.  After a successful
    Delete of a key that mustKey leaves as it is, Exists answers false. *)
Theorem Delete_absent_is_not_an_error {Val U} (n : Node Val) (k : key)
        (u : U) (w : World) :
  txn n = None -> idle w ->
  (bucket_at (committed w) (path n) = None ->
   resolves (path n) (committed w) = true ->
   exists w', Node_Delete n k u w = Returns (None, u, w') /\
              committed w' = resolved_root (path n) (committed w) /\
              bucket_at (committed w') (path n) = Some []) /\
  (forall its,
      bucket_at (committed w) (path n) = Some its ->
      valid_path (path n) = true ->
      get (mustKey k) its = None ->
      exists w', Node_Delete n k u w = Returns (None, u, w') /\
                 committed w' = committed w) /\
  (forall u1 w1,
      Node_Delete n k u w = Returns (None, u1, w1) ->
      sorted (entries_at (committed w) (path n)) ->
      mustKey k = k ->
      exists w2, Node_Exists n k u1 w1 = Returns (false, u1, w2)).
Proof.
  intros T I. split; [|split].
  - intros B R.
    pose proof (resolved_root_bucket _ _ R) as RB.
    unfold entries_at in RB. rewrite B in RB.
    rewrite Node_Delete_fresh by assumption. cbv zeta.
    rewrite (entries_at_some _ _ RB).
    change (get (mustKey k) []) with (@None entry). cbv iota.
    eexists. split; [reflexivity|].
    rewrite committed_after_commit.
    rewrite (update_at_id _ _ _ RB) by reflexivity. auto.
  - intros its B V G.
    destruct (resolves_existing _ _ V B) as [R RR].
    rewrite Node_Delete_fresh by assumption. cbv zeta.
    rewrite RR, (entries_at_some _ _ B), G.
    eexists. split; [reflexivity|].
    rewrite committed_after_commit.
    apply (update_at_id _ _ _ B). apply del_get_none; exact G.
  - intros u1 w1 H S K.
    destruct (resolves (path n) (committed w)) eqn:R.
    2:{ unfold Node_Delete in H.
        match type of H with
        | Node_TxUpdate n ?f u w = _ =>
          destruct (TxUpdate_fresh_unresolved n f u T I R) as [e [_ E]]
        end.
        rewrite E in H. discriminate. }
    rewrite Node_Delete_fresh in H by assumption. cbv zeta in H.
    pose proof (resolved_root_bucket _ _ R) as RB.
    assert (W : u1 = u /\
                w1 = after_commit w (update_at (path n) (del (mustKey k))
                                               (resolved_root (path n) (committed w)))).
    { destruct (get (mustKey k) (entries_at (resolved_root (path n) (committed w)) (path n)))
        as [[x|c]|]; inversion H; auto. }
    destruct W as [-> ->].
    eexists. rewrite Node_Exists_fresh by (auto; apply I).
    rewrite committed_after_commit, (bucket_at_update_at _ _ _ RB).
    unfold has_value. rewrite K, (get_del_same _ S).
    destruct (String.eqb k "") eqn:E; [|reflexivity].
    apply String.eqb_eq in E. subst k. discriminate K.
Qed.

Lemma Delete_absent_is_not_an_error_witness :
  (exists w', Node_Delete (node_at raw_codec ["rooms"]) "b" tt empty_db =
                Returns (None, tt, w') /\
              committed w' = resolved_root ["rooms"] [] /\
              bucket_at (committed w') ["rooms"] = Some []) /\
  (exists w', Node_Delete (node_at raw_codec ["rooms"]) "b" tt
                          (db_of [("rooms", Sub [("a", Leaf "1")])]) =
                Returns (None, tt, w') /\
              committed w' = [("rooms", Sub [("a", Leaf "1")])]).
Proof.
  split.
  - refine (proj1 (@Delete_absent_is_not_an_error bytes unit
                     (node_at raw_codec ["rooms"]) "b" tt empty_db
                     eq_refl (conj eq_refl eq_refl)) _ _); reflexivity.
  - refine (proj1 (proj2 (@Delete_absent_is_not_an_error bytes unit
                            (node_at raw_codec ["rooms"]) "b" tt
                            (db_of [("rooms", Sub [("a", Leaf "1")])])
                            eq_refl (conj eq_refl eq_refl)))
                  [("a", Leaf "1")] _ _ _); reflexivity.
Defined.

(** ** Counting loops *)

Lemma wrap_int_small (z : Z) : (- 2 ^ 63 <= z <= max_int)%Z -> wrap_int z = z.
Proof.
  unfold wrap_int, max_int. intros H.
  rewrite Z.mod_small by lia. lia.
Qed.

Lemma count_keys_length (c : items) (z : Z) :
  (0 <= z)%Z -> (z + Z.of_nat (List.length c) <= max_int)%Z ->
  count_keys c z = (z + Z.of_nat (List.length c))%Z.
Proof.
  revert z. induction c as [|a c IH]; intros z Hz Hb; simpl in *; [lia|].
  rewrite wrap_int_small by (unfold max_int in *; lia).
  rewrite IH by lia. lia.
Qed.

Lemma count_values_length (c : items) (z : Z) :
  (0 <= z)%Z -> (z + Z.of_nat (List.length (filter is_leaf c)) <= max_int)%Z ->
  count_values c z = (z + Z.of_nat (List.length (filter is_leaf c)))%Z.
Proof.
  revert z. induction c as [|[k [v|b]] c IH]; intros z Hz Hb; simpl in *.
  - lia.
  - rewrite wrap_int_small by (unfold max_int in *; lia).
    rewrite IH by lia. lia.
  - apply IH; assumption.
Qed.

Lemma EachKey_visit_record (c : items) (length : Z) (calls : list (key * Z))
      (w : World) :
  EachKey_visit c length record_key calls w =
  Returns (None, calls ++ map (fun kv => (fst kv, length)) c, w).
Proof.
  revert calls. induction c as [|[k e] c IH]; intros calls; simpl.
  - rewrite app_nil_r. reflexivity.
  - unfold bind, on_locals, record_key. cbv beta iota zeta.
    fold record_key. rewrite IH, <- app_assoc. reflexivity.
Qed.

Lemma Node_Length_fresh {Val U} (n : Node Val) (prefix : string) (u : U) (w : World) :
  txn n = None -> opened w = true ->
  Node_Length n prefix u w =
  Returns ((count_keys (entries_at (committed w) (path n)) 0, None), u,
           after_rollback w false (committed w)).
Proof.
  intros T O. unfold Node_Length, with_local, bind at 1.
  rewrite TxView_fresh_bucket by assumption.
  unfold tx_body, defer, bind.
  destruct (bucket_at (committed w) (path n)) as [its|] eqn:B; cbn.
  - rewrite Cursor_entries_in_tx. cbn. rewrite Tx_Rollback_in_tx.
    unfold entries_at. rewrite B. reflexivity.
  - rewrite Tx_Rollback_in_tx. unfold entries_at. rewrite B. reflexivity.
Qed.

Lemma Node_EachKey_fresh {Val U} (n : Node Val) (prefix : string)
      (fn : key -> Z -> U -> error * U) (u : U) (w : World) :
  txn n = None -> opened w = true ->
  Node_EachKey n prefix fn u w =
  tx_body (next_tx w) false
          (EachKey_visit (entries_at (committed w) (path n))
                         (count_keys (entries_at (committed w) (path n)) 0) fn)
          u (in_tx w false (committed w)).
Proof.
  intros T O. unfold Node_EachKey.
  rewrite TxView_fresh_bucket by assumption.
  unfold tx_body, defer, bind, entries_at.
  destruct (bucket_at (committed w) (path n)) as [its|] eqn:B.
  - rewrite Cursor_entries_in_tx. unfold entries_at. rewrite B. reflexivity.
  - reflexivity.
Qed.

(** ** C6: Each *)

Lemma err_eqb_EachBreak (e : err) : err_eqb e EachBreak = true <-> e = EachBreak.
Proof. destruct e; simpl; split; intros H; congruence. Qed.

Lemma all_nil_nth (calls : list call) (i : nat) (c : call) :
  all_nil calls -> nth_error calls i = Some c -> call_result c = None.
Proof.
  intros A H. apply nth_error_In in H.
  unfold all_nil in A. rewrite Forall_forall in A. apply A; exact H.
Qed.

Lemma decodes_tail {Val} (codec : KV Val) (x : key * entry) (c : items) :
  decodes codec (x :: c) -> decodes codec c.
Proof. intros D k b v H. apply (D k b v). right; exact H. Qed.

(** The second loop of Each, with the callback's invocations recorded:
    every invocation is given [length]; the keys visited are a prefix of
    the leaves in order; and either all invocations returned nil and every
    leaf was visited, or all returned nil and a leaf failed to decode, or
    the last one returned an error which ended the loop. *)
Lemma Each_visit_trace {Val U} (codec : KV Val)
      (fn : key -> Z -> Val * U -> error * (Val * U)) (length : Z) (c : items) :
  forall v u calls0 w,
  exists r v' u' calls1,
    Each_visit codec c length (traced fn) (v, (u, calls0)) w =
      Returns (r, (v', (u', calls0 ++ calls1)), w) /\
    Forall (fun x => call_count x = length) calls1 /\
    map call_key calls1 = firstn (List.length calls1) (leaf_keys c) /\
    ((all_nil calls1 /\ List.length calls1 = List.length (leaf_keys c) /\ r = None) \/
     (all_nil calls1 /\ ~ decodes codec c) \/
     (exists pre k e,
         calls1 = pre ++ [(k, length, Some e)] /\ all_nil pre /\
         r = if err_eqb e EachBreak then None else Some e)).
Proof.
  induction c as [|[k [b|sub]] c IH]; intros v u calls0 w.
  - exists None, v, u, []. rewrite app_nil_r. simpl.
    repeat split; auto. left. repeat split; constructor.
  - cbn [Each_visit]. unfold bind at 1, on_locals at 1. cbn [fst snd].
    destruct (Unmarshal codec b v) as [[e0|] v1] eqn:Eu; cbv beta iota zeta.
    + exists (Some (Wrapf e0 "failed to unmarshal %q" k)), v1, u, [].
      rewrite app_nil_r.
      split; [reflexivity|]. split; [constructor|]. split; [reflexivity|].
      right; left. split; [constructor|].
      intros D. specialize (D k b v (or_introl eq_refl)).
      rewrite Eu in D. discriminate D.
    + unfold bind at 1, on_locals at 1, traced at 1. cbn [fst snd].
      destruct (fn k length (v1, u)) as [[e|] [v2 u2]]; cbv beta iota zeta.
      * exists (if err_eqb e EachBreak then None else Some e), v2, u2,
               [(k, length, Some e)].
        split; [destruct (err_eqb e EachBreak); reflexivity|].
        split; [repeat constructor|]. split; [reflexivity|].
        right; right. exists [], k, e. repeat split. constructor.
      * destruct (IH v2 u2 (calls0 ++ [(k, length, None)]) w)
          as [r [v' [u' [calls1 [E [F [K R]]]]]]].
        exists r, v', u', ((k, length, None) :: calls1).
        split; [rewrite <- app_assoc in E; exact E|].
        split; [constructor; [reflexivity|exact F]|].
        split; [unfold leaf_keys in *; simpl; rewrite K; reflexivity|].
        destruct R as [[A [L Rn]]|[[A Nd]|[pre [k' [e [Ec [A Rn]]]]]]].
        -- left. split; [constructor; [reflexivity|exact A]|].
           split; [unfold leaf_keys in *; simpl; rewrite L; reflexivity|exact Rn].
        -- right; left. split; [constructor; [reflexivity|exact A]|].
           intros D. apply Nd. exact (decodes_tail D).
        -- right; right. exists ((k, length, None) :: pre), k', e.
           split; [rewrite Ec; reflexivity|].
           split; [constructor; [reflexivity|exact A]|exact Rn].
  - cbn [Each_visit].
    destruct (IH v u calls0 w) as [r [v' [u' [calls1 [E [F [K R]]]]]]].
    exists r, v', u', calls1. repeat split; try assumption.
    destruct R as [R|[[A Nd]|R]]; [left; exact R| |right; right; exact R].
    right; left. split; [exact A|]. intros D. apply Nd. exact (decodes_tail D).
Qed.

(** Each on a node without a transaction: a missing bucket is an empty
    walk. *)
Lemma Node_Each_fresh {Val U} (n : Node Val) (prefix : string)
      (fn : key -> Z -> Val * U -> error * (Val * U)) (s : Val * U) (w : World) :
  txn n = None -> opened w = true ->
  Node_Each n prefix fn s w =
  tx_body (next_tx w) false
          (Each_visit (kv n) (entries_at (committed w) (path n))
                      (count_values (entries_at (committed w) (path n)) 0) fn)
          s (in_tx w false (committed w)).
Proof.
  intros T O. unfold Node_Each.
  rewrite TxView_fresh_bucket by assumption.
  unfold tx_body, defer, bind, entries_at.
  destruct (bucket_at (committed w) (path n)) as [its|] eqn:B.
  - rewrite Cursor_entries_in_tx. unfold entries_at. rewrite B. reflexivity.
  - reflexivity.
Qed.

(** C6: on a bucket holding [N] leaf entries (nested buckets not counted),
    Each gives the count [N] to every invocation of the callback and visits
    the leaves in key order; if an invocation returns [EachBreak] it is the
    last one and Each returns nil; if it returns any other error it is the
    last one and Each returns that error; if every invocation returns nil
    and every leaf decodes, all [N] leaves are visited and Each returns
    nil. *)
Theorem Each_total_count_and_break {Val U} (n : Node Val) (prefix : string)
        (fn : key -> Z -> Val * U -> error * (Val * U))
        (v0 : Val) (u0 : U) (w : World) :
  txn n = None -> opened w = true ->
  let its := entries_at (committed w) (path n) in
  let N := List.length (leaf_keys its) in
  (Z.of_nat N <= max_int)%Z ->
  exists r v' u' calls w',
    Node_Each n prefix (traced fn) (v0, (u0, [])) w =
      Returns (r, (v', (u', calls)), w') /\
    committed w' = committed w /\
    Forall (fun c => call_count c = Z.of_nat N) calls /\
    map call_key calls = firstn (List.length calls) (leaf_keys its) /\
    (forall i c, nth_error calls i = Some c ->
                 call_result c = Some EachBreak ->
                 List.length calls = S i /\ r = None) /\
    (forall i c e, nth_error calls i = Some c ->
                   call_result c = Some e -> e <> EachBreak ->
                   List.length calls = S i /\ r = Some e) /\
    (all_nil calls -> decodes (kv n) its ->
     List.length calls = N /\ r = None).
Proof.
  intros T O its N L.
  assert (Hc : count_values its 0 = Z.of_nat N).
  { unfold N, leaf_keys in *. rewrite length_map in *.
    rewrite count_values_length by (simpl; lia). reflexivity. }
  destruct (Each_visit_trace (kv n) fn (Z.of_nat N) its
                             v0 u0 [] (in_tx w false (committed w)))
    as [r [v' [u' [calls [E [F [K R]]]]]]].
  simpl in E.
  exists r, v', u', calls, (after_rollback w false (committed w)).
  split.
  { rewrite Node_Each_fresh by assumption. fold its. rewrite Hc.
    unfold tx_body, defer, bind. rewrite E.
    destruct r; cbn; rewrite Tx_Rollback_in_tx; reflexivity. }
  split; [reflexivity|]. split; [exact F|]. split; [exact K|].
  assert (Last : forall i c e,
             nth_error calls i = Some c -> call_result c = Some e ->
             List.length calls = S i /\
             r = if err_eqb e EachBreak then None else Some e).
  { intros i c e Hn Hr.
    destruct R as [[A _]|[[A _]|[pre [k [e' [Ec [A Rn]]]]]]].
    - rewrite (@all_nil_nth _ _ _ A Hn) in Hr. discriminate.
    - rewrite (@all_nil_nth _ _ _ A Hn) in Hr. discriminate.
    - subst calls.
      destruct (Nat.lt_ge_cases i (List.length pre)) as [Hlt|Hge].
      + rewrite nth_error_app1 in Hn by exact Hlt.
        rewrite (@all_nil_nth _ _ _ A Hn) in Hr. discriminate.
      + rewrite nth_error_app2 in Hn by exact Hge.
        destruct (i - List.length pre) as [|j] eqn:Ei; simpl in Hn.
        * inversion Hn; subst c. simpl in Hr. inversion Hr; subst e'.
          rewrite length_app; simpl. split; [lia|exact Rn].
        * destruct j; discriminate. }
  split; [|split].
  - intros i c Hn Hr. destruct (Last i c _ Hn Hr) as [Hl Hres]. auto.
  - intros i c e Hn Hr Hne. destruct (Last i c _ Hn Hr) as [Hl Hres].
    split; [exact Hl|]. rewrite Hres.
    destruct (err_eqb e EachBreak) eqn:Eb; [|reflexivity].
    apply err_eqb_EachBreak in Eb. contradiction.
  - intros A D.
    destruct R as [[_ [Hl Hr]]|[[_ Nd]|[pre [k [e [Ec _]]]]]]; [auto|contradiction|].
    subst calls. unfold all_nil in A. rewrite Forall_app in A.
    destruct A as [_ A]. inversion A as [|? ? Hx _]. discriminate Hx.
Qed.

Lemma Each_total_count_and_break_witness :
  exists r v' u' calls w',
    Node_Each (node_at raw_codec ["rooms"]) "" (traced (break_at "c")) ("", (tt, []))
              (db_of [("rooms", Sub [("a", Leaf "1"); ("b", Sub []);
                                     ("c", Leaf "3"); ("d", Leaf "4")])]) =
      Returns (r, (v', (u', calls)), w') /\
    committed w' = [("rooms", Sub [("a", Leaf "1"); ("b", Sub []);
                                   ("c", Leaf "3"); ("d", Leaf "4")])] /\
    Forall (fun c => call_count c = 3%Z) calls /\
    map call_key calls = firstn (List.length calls) ["a"; "c"; "d"] /\
    (forall i c, nth_error calls i = Some c ->
                 call_result c = Some EachBreak ->
                 List.length calls = S i /\ r = None) /\
    (forall i c e, nth_error calls i = Some c ->
                   call_result c = Some e -> e <> EachBreak ->
                   List.length calls = S i /\ r = Some e) /\
    (all_nil calls ->
     decodes raw_codec [("a", Leaf "1"); ("b", Sub []); ("c", Leaf "3"); ("d", Leaf "4")] ->
     List.length calls = 3 /\ r = None).
Proof.
  apply (@Each_total_count_and_break bytes unit (node_at raw_codec ["rooms"]) ""
           (break_at "c") "" tt
           (db_of [("rooms", Sub [("a", Leaf "1"); ("b", Sub []);
                                  ("c", Leaf "3"); ("d", Leaf "4")])])).
  - reflexivity.
  - reflexivity.
  - vm_compute. discriminate.
Defined.

(** ** C10: the prefix argument *)

(** The second loop of Each with the recording callback, on a bucket whose
    values all decode: every leaf is visited, in order, with [length]. *)
Lemma Each_visit_record {Val} (codec : KV Val) (c : items) (length : Z) :
  decodes codec c ->
  forall (v : Val) (calls : list (key * Z)) (w : World),
  exists v',
    Each_visit codec c length record_visit (v, calls) w =
      Returns (None, (v', calls ++ map (fun k => (k, length)) (leaf_keys c)), w).
Proof.
  induction c as [|[k [b|sub]] c IH]; intros D v calls w.
  - exists v. cbn. rewrite app_nil_r. reflexivity.
  - cbn [Each_visit]. unfold bind at 1, on_locals at 1. cbn [fst snd].
    pose proof (D k b v (or_introl eq_refl)) as Dk.
    destruct (Unmarshal codec b v) as [e0 v1]. simpl in Dk. subst e0.
    cbv beta iota zeta. unfold bind at 1, on_locals at 1, record_visit at 1.
    cbn [fst snd]. cbv beta iota zeta.
    destruct (IH (decodes_tail D) v1 (calls ++ [(k, length)]) w) as [v' E].
    exists v'. rewrite E. rewrite <- app_assoc. reflexivity.
  - cbn [Each_visit]. apply IH. exact (decodes_tail D).
Qed.

(** C10: Each, EachKey and Length do not look at their prefix argument: any
    two prefixes give the same computation.  In particular, whatever the
    prefix and whether or not the keys start with it: on a bucket of [N]
    entries Length answers [N] and EachKey visits every key, in order, with
    count [N]; on a bucket of [L] values, all of which decode, Each visits
    the key of every value, in order, with count [L], and returns nil. *)
Theorem prefix_is_ignored {Val U} (n : Node Val) (p1 p2 : string) :
  (forall fn, Node_Each (U:=U) n p1 fn = Node_Each n p2 fn) /\
  (forall fn, Node_EachKey (U:=U) n p1 fn = Node_EachKey n p2 fn) /\
  Node_Length (U:=U) n p1 = Node_Length n p2 /\
  (forall (u : U) w,
      txn n = None -> opened w = true ->
      let its := entries_at (committed w) (path n) in
      (Z.of_nat (List.length its) <= max_int)%Z ->
      Node_Length n p1 u w =
        Returns ((Z.of_nat (List.length its), None), u,
                 after_rollback w false (committed w)) /\
      Node_EachKey n p1 record_key [] w =
        Returns (None, map (fun kv => (fst kv, Z.of_nat (List.length its))) its,
                 after_rollback w false (committed w))) /\
  (forall (v0 : Val) w,
      txn n = None -> opened w = true ->
      let its := entries_at (committed w) (path n) in
      (Z.of_nat (List.length (leaf_keys its)) <= max_int)%Z ->
      decodes (kv n) its ->
      exists v',
        Node_Each n p1 record_visit (v0, []) w =
          Returns (None,
                   (v', map (fun k => (k, Z.of_nat (List.length (leaf_keys its))))
                            (leaf_keys its)),
                   after_rollback w false (committed w))).
Proof.
  split; [reflexivity|]. split; [reflexivity|]. split; [reflexivity|].
  split.
  - intros u w T O its L. split.
    + rewrite Node_Length_fresh by assumption. fold its.
      rewrite count_keys_length by (simpl; lia).
      reflexivity.
    + rewrite Node_EachKey_fresh by assumption. fold its.
      rewrite count_keys_length by (simpl; lia). simpl.
      apply tx_body_view. apply EachKey_visit_record.
  - intros v0 w T O its L D.
    assert (Hc : count_values its 0 = Z.of_nat (List.length (leaf_keys its))).
    { unfold leaf_keys in *. rewrite length_map in *.
      rewrite count_values_length by (simpl; lia). reflexivity. }
    destruct (@Each_visit_record Val (kv n) its
                (Z.of_nat (List.length (leaf_keys its))) D v0 []
                (in_tx w false (committed w))) as [v' E].
    exists v'. rewrite Node_Each_fresh by assumption. fold its. rewrite Hc.
    apply tx_body_view. exact E.
Qed.

Lemma prefix_is_ignored_witness :
  (Node_Length (node_at raw_codec ["rooms"]) "zz" tt
               (db_of [("rooms", Sub [("a", Leaf "1"); ("b", Sub []); ("c", Leaf "3")])]) =
     Returns ((3%Z, None), tt,
              after_rollback
                (db_of [("rooms", Sub [("a", Leaf "1"); ("b", Sub []); ("c", Leaf "3")])])
                false [("rooms", Sub [("a", Leaf "1"); ("b", Sub []); ("c", Leaf "3")])]) /\
   Node_EachKey (node_at raw_codec ["rooms"]) "zz" record_key []
                (db_of [("rooms", Sub [("a", Leaf "1"); ("b", Sub []); ("c", Leaf "3")])]) =
     Returns (None, [("a", 3%Z); ("b", 3%Z); ("c", 3%Z)],
              after_rollback
                (db_of [("rooms", Sub [("a", Leaf "1"); ("b", Sub []); ("c", Leaf "3")])])
                false [("rooms", Sub [("a", Leaf "1"); ("b", Sub []); ("c", Leaf "3")])])) /\
  (exists v',
      Node_Each (node_at raw_codec ["rooms"]) "zz" record_visit ("", [])
                (db_of [("rooms", Sub [("a", Leaf "1"); ("b", Sub []); ("c", Leaf "3")])]) =
        Returns (None, (v', [("a", 2%Z); ("c", 2%Z)]),
                 after_rollback
                   (db_of [("rooms", Sub [("a", Leaf "1"); ("b", Sub []); ("c", Leaf "3")])])
                   false [("rooms", Sub [("a", Leaf "1"); ("b", Sub []); ("c", Leaf "3")])])).
Proof.
  pose proof (@prefix_is_ignored bytes unit (node_at raw_codec ["rooms"]) "zz" "")
    as [_ [_ [_ [HK HE]]]].
  split.
  - refine (HK tt
              (db_of [("rooms", Sub [("a", Leaf "1"); ("b", Sub []); ("c", Leaf "3")])])
              _ _ _); try reflexivity.
    vm_compute. discriminate.
  - refine (HE ""
              (db_of [("rooms", Sub [("a", Leaf "1"); ("b", Sub []); ("c", Leaf "3")])])
              _ _ _ _); try reflexivity.
    + vm_compute. discriminate.
    + intros k b v Hin. reflexivity.
Defined.

(** ** C4: DropExceptLast *)

Lemma put_put (k : key) (e1 e2 : entry) (l : items) :
  put k e2 (put k e1 l) = put k e2 l.
Proof.
  induction l as [|[k' e'] r IH]; simpl.
  - rewrite key_ltb_irrefl, key_eqb_refl. reflexivity.
  - destruct (key_ltb k' k) eqn:L; simpl.
    + rewrite L, IH. reflexivity.
    + destruct (key_eqb k k') eqn:E; simpl;
        rewrite key_ltb_irrefl, key_eqb_refl; reflexivity.
Qed.

Lemma update_at_compose (h : handle) (f g : items -> items) (root : items) :
  update_at h g (update_at h f root) = update_at h (fun x => g (f x)) root.
Proof.
  revert root. induction h as [|s h IH]; intros root; simpl; [reflexivity|].
  destruct (get s root) as [[v|b]|] eqn:G; simpl; rewrite ?G; try reflexivity.
  rewrite get_put_same, put_put, IH. reflexivity.
Qed.

Lemma update_at_ext (h : handle) (f g : items -> items) (root b : items) :
  bucket_at root h = Some b -> f b = g b -> update_at h f root = update_at h g root.
Proof.
  revert root. induction h as [|s h IH]; intros root; simpl.
  - intros H E; inversion H; subst; exact E.
  - destruct (get s root) as [[v|c]|]; try discriminate.
    intros H E. rewrite (IH _ H E). reflexivity.
Qed.

Lemma seek_In (k : key) (l : items) (x : key * entry) :
  In x (seek k l) -> In x l.
Proof.
  induction l as [|[k' e'] r IH]; simpl; [auto|].
  destruct (key_ltb k' k); simpl; auto.
Qed.

Lemma get_In (k : key) (e : entry) (l : items) : get k l = Some e -> In (k, e) l.
Proof.
  unfold get. destruct (seek k l) as [|[k' e'] r] eqn:S; [discriminate|].
  destruct (key_eqb k k') eqn:E; [|discriminate].
  apply key_eqb_eq in E; subst k'. intros H; inversion H; subst e'.
  apply (seek_In k). rewrite S. left; reflexivity.
Qed.

Lemma del_incl (k : key) (l : items) (x : key * entry) : In x (del k l) -> In x l.
Proof.
  induction l as [|[k' e'] r IH]; simpl; [auto|].
  destruct (key_ltb k' k); simpl.
  - intros [H|H]; auto.
  - destruct (key_eqb k k'); simpl; auto.
Qed.

Lemma all_leaves_get (k : key) (l : items) :
  forallb is_leaf l = true ->
  match get k l with Some (Sub _) => False | _ => True end.
Proof.
  intros A. destruct (get k l) as [[v|c]|] eqn:G; auto.
  apply get_In in G. rewrite forallb_forall in A.
  specialize (A _ G). discriminate.
Qed.

Lemma all_leaves_del (k : key) (l : items) :
  forallb is_leaf l = true -> forallb is_leaf (del k l) = true.
Proof.
  intros A. rewrite forallb_forall in *. intros x H.
  apply A. exact (del_incl _ _ _ H).
Qed.

(** The first [last] entries the cursor meets are passed over. *)
Lemma DropExceptLast_walk_skip {U} (b : Bucket) (c : items) (last : Z)
      (buckets : list key) (lastError : error) (u : U) (w : World) :
  (0 <= last)%Z ->
  DropExceptLast_walk b c last buckets lastError u w =
  DropExceptLast_walk b (skipn (Z.to_nat last) c) 0 buckets lastError u w.
Proof.
  revert last. induction c as [|[k v] c IH]; intros last H.
  - rewrite skipn_nil. reflexivity.
  - cbn [DropExceptLast_walk]. destruct (0 <? last)%Z eqn:L.
    + apply Z.ltb_lt in L. rewrite IH by lia.
      replace (Z.to_nat last) with (S (Z.to_nat (last - 1))) by lia.
      reflexivity.
    + apply Z.ltb_ge in L. replace last with 0%Z by lia. reflexivity.
Qed.

(** Past them, on a bucket of leaves, every entry met is deleted. *)
Lemma DropExceptLast_walk_leaves {U} (h : handle) (d : items)
      (buckets : list key) (lastError : error) (u : U) (w : World) :
  forallb is_leaf d = true ->
  forall root its,
    bucket_at root h = Some its ->
    forallb is_leaf its = true ->
    DropExceptLast_walk (mkBucket (next_tx w) h) d 0 buckets lastError u
                        (in_tx w true root) =
    Returns ((buckets, lastError), u,
             in_tx w true (update_at h (del_all (map fst d)) root)).
Proof.
  induction d as [|[k [x|sub]] d IH]; intros Ld root its B Li.
  - simpl. rewrite (update_at_id _ _ _ B) by reflexivity. reflexivity.
  - simpl in Ld. cbn [DropExceptLast_walk Z.ltb Z.compare].
    unfold bind, Cursor_Delete. rewrite Bucket_Delete_in_tx.
    rewrite (entries_at_some _ _ B).
    pose proof (all_leaves_get k _ Li) as G.
    assert (Step : DropExceptLast_walk (mkBucket (next_tx w) h) d 0 buckets lastError u
                     (in_tx w true (update_at h (del k) root)) =
                   Returns ((buckets, lastError), u,
                            in_tx w true (update_at h (del_all (map fst ((k, Leaf x) :: d))) root))).
    { rewrite (IH Ld _ _ (bucket_at_update_at _ _ _ B) (all_leaves_del k _ Li)).
      rewrite update_at_compose. reflexivity. }
    destruct (get k its) as [[v|c]|]; [exact Step|contradiction|exact Step].
  - simpl in Ld. discriminate.
Qed.

Lemma sorted_app_lt (a b : items) :
  sorted (a ++ b) ->
  Forall (fun d => Forall (fun r => key_lt (fst d) (fst r)) b) a.
Proof.
  induction a as [|x a IH]; simpl; intros S; constructor.
  - inversion S as [|? ? _ F]; subst. apply Forall_app in F. apply F.
  - apply IH. exact (sorted_tail S).
Qed.

Lemma sorted_drop_middle (a b : items) (x : key * entry) :
  sorted (a ++ x :: b) -> sorted (a ++ b).
Proof.
  induction a as [|y a IH]; simpl; intros S.
  - exact (sorted_tail S).
  - inversion S as [|? ? S' F]; subst. constructor; [apply IH; exact S'|].
    apply Forall_app in F. destruct F as [Fa Fb].
    apply Forall_app. split; [exact Fa|]. inversion Fb; assumption.
Qed.

Lemma del_middle (a b : items) (k : key) (e : entry) :
  sorted (a ++ (k, e) :: b) -> del k (a ++ (k, e) :: b) = a ++ b.
Proof.
  induction a as [|[k' e'] a IH]; simpl; intros S.
  - rewrite key_ltb_irrefl, key_eqb_refl. reflexivity.
  - inversion S as [|? ? S' F]; subst.
    apply Forall_app in F. destruct F as [_ F]. inversion F as [|? ? Hk _]; subst.
    simpl in Hk. unfold key_lt in Hk. rewrite Hk, (IH S'). reflexivity.
Qed.

(** Deleting the keys of a prefix, greatest first, leaves the rest. *)
Lemma del_all_prefix (pre rest : items) :
  sorted (pre ++ rest) ->
  del_all (map fst (rev pre)) (pre ++ rest) = rest.
Proof.
  induction pre as [|[k e] pre IH] using rev_ind; intros S; [reflexivity|].
  rewrite rev_app_distr. simpl. rewrite <- app_assoc in *. simpl in *.
  rewrite (del_middle _ _ _ _ S). apply IH. exact (sorted_drop_middle _ _ _ S).
Qed.

Lemma Node_DropExceptLast_leaves {Val U} (n : Node Val) (last : Z) (u : U)
      (w : World) (its : items) :
  txn n = None -> idle w ->
  valid_path (path n) = true ->
  bucket_at (committed w) (path n) = Some its ->
  sorted its -> forallb is_leaf its = true ->
  (0 <= last)%Z ->
  Node_DropExceptLast n last u w =
  Returns (None, u,
           after_commit w
             (update_at (path n)
                        (fun _ => skipn (List.length its - Z.to_nat last) its)
                        (committed w))).
Proof.
  intros T I V B S L K.
  destruct (resolves_existing _ _ V B) as [R RR].
  unfold Node_DropExceptLast.
  rewrite TxUpdate_fresh_bucket by assumption. rewrite RR.
  set (m := List.length its - Z.to_nat last).
  assert (E : update_at (path n) (fun _ => skipn m its) (committed w) =
              update_at (path n) (del_all (map fst (rev (firstn m its)))) (committed w)).
  { apply (update_at_ext _ _ _ _ B). symmetry.
    pose proof (del_all_prefix (firstn m its) (skipn m its)) as D.
    rewrite firstn_skipn in D. exact (D S). }
  rewrite E. apply tx_body_commit.
  unfold bind. rewrite Cursor_entries_in_tx, (entries_at_some _ _ B).
  rewrite DropExceptLast_walk_skip by exact K.
  rewrite skipn_rev. fold m.
  rewrite (@DropExceptLast_walk_leaves U (path n) (rev (firstn m its)) [] None u w)
    with (its := its).
  - reflexivity.
  - rewrite forallb_forall in *. intros x H. apply L.
    apply in_rev in H. rewrite <- (firstn_skipn m its).
    apply in_or_app. left. exact H.
  - exact B.
  - exact L.
Qed.

(** C4: on a bucket of [N] leaf entries and no nested bucket, with keys in
    the engine's ascending order, DropExceptLast(K) for [0 <= K] returns nil
    and commits the tree in which the bucket holds exactly its last [K]
    entries, unchanged: when [N > K] the [N - K] entries dropped all have
    keys smaller than every entry kept; when [N <= K] nothing is deleted and
    the committed tree is what it was. *)
Theorem DropExceptLast_keeps_greatest {Val U} (n : Node Val) (K : Z) (u : U)
        (w : World) (its : items) :
  txn n = None -> idle w ->
  valid_path (path n) = true ->
  bucket_at (committed w) (path n) = Some its ->
  sorted its -> forallb is_leaf its = true ->
  (0 <= K)%Z ->
  let N := List.length its in
  let dropped := firstn (N - Z.to_nat K) its in
  let kept := skipn (N - Z.to_nat K) its in
  exists w',
    Node_DropExceptLast n K u w = Returns (None, u, w') /\
    committed w' = update_at (path n) (fun _ => kept) (committed w) /\
    bucket_at (committed w') (path n) = Some kept /\
    its = dropped ++ kept /\
    ((K < Z.of_nat N)%Z ->
     List.length kept = Z.to_nat K /\ List.length dropped = N - Z.to_nat K) /\
    Forall (fun d => Forall (fun r => key_lt (fst d) (fst r)) kept) dropped /\
    ((Z.of_nat N <= K)%Z -> kept = its /\ committed w' = committed w).
Proof.
  intros T I V B S L HK N dropped kept.
  eexists. split; [apply Node_DropExceptLast_leaves; eassumption|].
  rewrite committed_after_commit. fold N. fold kept.
  split; [reflexivity|].
  split; [apply (bucket_at_update_at _ (fun _ => kept) _ B)|].
  split; [symmetry; apply firstn_skipn|].
  split; [|split].
  - intros H. unfold kept, dropped. rewrite length_skipn, length_firstn.
    fold N. lia.
  - apply sorted_app_lt. unfold dropped, kept. rewrite firstn_skipn. exact S.
  - intros H. assert (E : kept = its).
    { unfold kept. replace (N - Z.to_nat K) with 0 by lia. reflexivity. }
    split; [exact E|]. rewrite E. apply (update_at_id _ _ _ B). reflexivity.
Qed.

Lemma DropExceptLast_keeps_greatest_witness :
  exists w',
    Node_DropExceptLast (node_at raw_codec ["rooms"]) 2 tt
      (db_of [("rooms", Sub [("a", Leaf "1"); ("b", Leaf "2"); ("c", Leaf "3")])]) =
      Returns (None, tt, w') /\
    committed w' = [("rooms", Sub [("b", Leaf "2"); ("c", Leaf "3")])] /\
    bucket_at (committed w') ["rooms"] = Some [("b", Leaf "2"); ("c", Leaf "3")] /\
    [("a", Leaf "1"); ("b", Leaf "2"); ("c", Leaf "3")] =
      [("a", Leaf "1")] ++ [("b", Leaf "2"); ("c", Leaf "3")] /\
    ((2 < 3)%Z ->
     List.length [("b", Leaf "2"); ("c", Leaf "3")] = 2 /\
     List.length [("a", Leaf "1")] = 1) /\
    Forall (fun d : key * entry =>
              Forall (fun r : key * entry => key_lt (fst d) (fst r))
                     [("b", Leaf "2"); ("c", Leaf "3")])
           [("a", Leaf "1")] /\
    ((3 <= 2)%Z ->
     [("b", Leaf "2"); ("c", Leaf "3")] =
       [("a", Leaf "1"); ("b", Leaf "2"); ("c", Leaf "3")] /\
     committed w' = [("rooms", Sub [("a", Leaf "1"); ("b", Leaf "2"); ("c", Leaf "3")])]).
Proof.
  apply (@DropExceptLast_keeps_greatest bytes unit (node_at raw_codec ["rooms"]) 2 tt
           (db_of [("rooms", Sub [("a", Leaf "1"); ("b", Leaf "2"); ("c", Leaf "3")])])
           [("a", Leaf "1"); ("b", Leaf "2"); ("c", Leaf "3")]).
  - reflexivity.
  - split; reflexivity.
  - reflexivity.
  - reflexivity.
  - repeat constructor.
  - reflexivity.
  - lia.
Defined.

(** ** C5: nested TxUpdate *)

Lemma TxUpdate_fresh_general {Val U} (n : Node Val) (f : Node Val -> M U error)
      (u : U) (w : World) :
  txn n = None -> idle w ->
  resolves (path n) (committed w) = true ->
  Node_TxUpdate n f u w =
  tx_body (next_tx w) true (f (tx_node n (next_tx w) true))
          u (in_tx w true (resolved_root (path n) (committed w))).
Proof.
  intros T [O I] R. unfold Node_TxUpdate. rewrite T.
  rewrite Node_doTx_fresh by auto.
  pose proof (resolves_at _ _ R) as E. unfold resolved_root, tx_node.
  destruct ((0 <? Z.of_nat (List.length (path n)))%Z && true) eqn:C.
  - rewrite E. reflexivity.
  - destruct (path n) as [|s p]; [reflexivity|].
    apply andb_false_iff in C. destruct C as [C|C]; [|discriminate].
    apply Z.ltb_ge in C. simpl in C. lia.
Qed.

(** A TxUpdate on a node that carries the open writable transaction is the
    call of its callback: nothing is begun, committed or rolled back. *)
Lemma TxUpdate_inherited {Val U} (m : Node Val) (f : Node Val -> M U error)
      (u : U) (w : World) (root : items) :
  txn m = Some (next_tx w) ->
  Node_TxUpdate m f u (in_tx w true root) = f m u (in_tx w true root).
Proof.
  intros T. unfold Node_TxUpdate. rewrite T. unfold bind.
  rewrite Tx_Writable_in_tx. cbn. unfold Node_doTx. rewrite T. reflexivity.
Qed.

(** C5, as stated, fails: the outer callback writes [a := 1] and calls the
    nested TxUpdate on the node it holds; the nested callback writes
    [b := 2] and returns [ErrKeyNotFound], which the nested call returns;
    the outer callback drops that error and returns nil.  The outermost
    call then commits, and the committed tree holds both writes. *)
Lemma nested_TxUpdate_inner_error_committed :
  exists w1 w2 w',
    write_then_continue "a" "1" (tx_node (node_at raw_codec ["rooms"]) 0 true) tt
                        (in_tx empty_db true (resolved_root ["rooms"] [])) =
      Returns ((None, cached_node (node_at raw_codec ["rooms"]) 0), tt, w1) /\
    Node_TxUpdate (cached_node (node_at raw_codec ["rooms"]) 0)
                  (write_then_fail "b" "2" ErrKeyNotFound) tt w1 =
      Returns (Some ErrKeyNotFound, tt, w2) /\
    Node_TxUpdate (node_at raw_codec ["rooms"])
                  (nested_update_handled (write_then_continue "a" "1")
                                         (write_then_fail "b" "2" ErrKeyNotFound)
                                         drop_error)
                  tt empty_db =
      Returns (None, tt, w') /\
    committed w' = [("rooms", Sub [("a", Leaf "1"); ("b", Leaf "2")])] /\
    commits w' = 1 /\
    log w' = [EvBegin 0 true; EvCommit 0].
Proof.
  eexists. eexists. eexists.
  split; [vm_compute; reflexivity|].
  split; [vm_compute; reflexivity|].
  split; [vm_compute; reflexivity|].
  split; [reflexivity|]. split; reflexivity.
Qed.

(** C5 (amended): an outer TxUpdate on a node without a transaction whose
    callback, after its own part, calls a nested TxUpdate on a node
    carrying the same transaction.  The nested call only runs its callback
    and returns its result: it begins, commits and rolls back nothing.
    What the outermost call does follows from what the outer callback
    returns.  If it returns the nested call's result, the outer call
    commits once, the tree with the writes of both, when that result is
    nil, and rolls the whole transaction back when it is an error: the
    committed tree is what it was and nothing is committed.  If the outer
    callback makes something else of the nested call's result, the outer
    call commits once when that is nil, the nested callback's error
    notwithstanding, and rolls back when it is an error. *)
Theorem nested_TxUpdate_commits_once {Val U} (n m' : Node Val)
        (outer_part : Node Val -> M U (error * Node Val))
        (inner : Node Val -> M U error)
        (u u2 u3 : U) (w : World) (root2 root3 : items) (ri : error) :
  txn n = None -> idle w ->
  resolves (path n) (committed w) = true ->
  outer_part (tx_node n (next_tx w) true) u
             (in_tx w true (resolved_root (path n) (committed w))) =
    Returns ((None, m'), u2, in_tx w true root2) ->
  txn m' = Some (next_tx w) ->
  inner m' u2 (in_tx w true root2) = Returns (ri, u3, in_tx w true root3) ->
  Node_TxUpdate m' inner u2 (in_tx w true root2) =
    inner m' u2 (in_tx w true root2) /\
  (exists w',
      Node_TxUpdate n (nested_update outer_part inner) u w = Returns (ri, u3, w') /\
      match ri with
      | None => committed_once w w' root3
      | Some _ => rolled_back w w' true
      end) /\
  (forall handle : error -> error,
      exists w',
        Node_TxUpdate n (nested_update_handled outer_part inner handle) u w =
          Returns (handle ri, u3, w') /\
        match handle ri with
        | None => committed_once w w' root3
        | Some _ => rolled_back w w' true
        end).
Proof.
  intros T I R Ho Tm Hi.
  split; [apply TxUpdate_inherited; exact Tm|].
  split.
  - assert (Hn : nested_update outer_part inner (tx_node n (next_tx w) true) u
                   (in_tx w true (resolved_root (path n) (committed w))) =
                 Returns (ri, u3, in_tx w true root3)).
    { unfold nested_update, bind. rewrite Ho. cbv beta iota zeta.
      rewrite TxUpdate_inherited by exact Tm. exact Hi. }
    rewrite TxUpdate_fresh_general by assumption.
    destruct ri as [e|].
    + eexists. split; [apply tx_body_rollback; exact Hn|].
      apply rolled_back_after_rollback.
    + eexists. split; [apply tx_body_commit; exact Hn|].
      apply committed_once_after_commit.
  - intros handle.
    assert (Hn : nested_update_handled outer_part inner handle
                   (tx_node n (next_tx w) true) u
                   (in_tx w true (resolved_root (path n) (committed w))) =
                 Returns (handle ri, u3, in_tx w true root3)).
    { unfold nested_update_handled, bind. rewrite Ho. cbv beta iota zeta.
      rewrite TxUpdate_inherited by exact Tm. rewrite Hi. reflexivity. }
    rewrite TxUpdate_fresh_general by assumption.
    destruct (handle ri) as [e|].
    + eexists. split; [apply tx_body_rollback; exact Hn|].
      apply rolled_back_after_rollback.
    + eexists. split; [apply tx_body_commit; exact Hn|].
      apply committed_once_after_commit.
Qed.

Lemma nested_TxUpdate_commits_once_witness :
  (exists w',
      Node_TxUpdate (node_at raw_codec ["rooms"])
                    (nested_update (write_then_continue "a" "1")
                                   (write_then_fail "b" "2" ErrKeyNotFound))
                    tt empty_db =
        Returns (Some ErrKeyNotFound, tt, w') /\
      (committed w' = [] /\
       commits w' = 0 /\
       log w' = [EvBegin 0 true; EvRollback 0] /\
       tx_open (tx_lookup w' 0) = false /\
       writer_active w' = false)) /\
  (exists w',
      Node_TxUpdate (node_at raw_codec ["rooms"])
                    (nested_update_handled (write_then_continue "a" "1")
                                           (write_then_fail "b" "2" ErrKeyNotFound)
                                           drop_error)
                    tt empty_db =
        Returns (None, tt, w') /\
      (committed w' = [("rooms", Sub [("a", Leaf "1"); ("b", Leaf "2")])] /\
       commits w' = 1 /\
       log w' = [EvBegin 0 true; EvCommit 0] /\
       tx_open (tx_lookup w' 0) = false /\
       writer_active w' = false)).
Proof.
  unshelve epose proof
    (@nested_TxUpdate_commits_once bytes unit
       (node_at raw_codec ["rooms"])
       (mkNode raw_codec (Some 0) (Some (mkBucket 0 ["rooms"])) ["rooms"])
       (write_then_continue "a" "1") (write_then_fail "b" "2" ErrKeyNotFound)
       tt tt tt empty_db
       [("rooms", Sub [("a", Leaf "1")])]
       [("rooms", Sub [("a", Leaf "1"); ("b", Leaf "2")])]
       (Some ErrKeyNotFound) _ _ _ _ _ _) as H.
  - reflexivity.
  - split; reflexivity.
  - reflexivity.
  - vm_compute. reflexivity.
  - reflexivity.
  - vm_compute. reflexivity.
  - split; [exact (proj1 (proj2 H))|exact (proj2 (proj2 H) drop_error)].
Defined.

(** ** The engine's order invariant

    Writing and deleting keep a bucket's keys strictly ascending, so the
    [sorted] hypotheses above hold of every bucket built by these
    operations. *)

Lemma key_lt_trans (a b c : key) : key_lt a b -> key_lt b c -> key_lt a c.
Proof.
  unfold key_lt, key_ltb, String.ltb. intros H1 H2.
  destruct (String.compare a b) eqn:E1; try discriminate.
  destruct (String.compare b c) eqn:E2; try discriminate.
  apply String_as_OT.cmp_lt in E1. apply String_as_OT.cmp_lt in E2.
  pose proof (@String_as_OT.lt_trans _ _ _ E1 E2) as E3.
  apply String_as_OT.cmp_lt in E3. unfold String_as_OT.cmp in E3.
  rewrite E3. reflexivity.
Qed.

Lemma key_trichotomy (a b : key) :
  key_ltb a b = false -> key_eqb b a = false -> key_lt b a.
Proof.
  unfold key_lt, key_ltb, String.ltb. intros H1 H2.
  rewrite (String.compare_antisym b a).
  destruct (String.compare a b) eqn:E; simpl; try reflexivity; try discriminate.
  apply String.compare_eq_iff in E. subst b.
  rewrite key_eqb_refl in H2. discriminate.
Qed.

Lemma put_In (k : key) (e : entry) (l : items) (x : key * entry) :
  In x (put k e l) -> x = (k, e) \/ In x l.
Proof.
  induction l as [|[k' e'] r IH]; simpl.
  - intros [H|[]]; auto.
  - destruct (key_ltb k' k).
    + intros [H|H]; auto. destruct (IH H); auto.
    + destruct (key_eqb k k'); intros [H|H]; auto.
Qed.

Lemma sorted_put (k : key) (e : entry) (l : items) :
  sorted l -> sorted (put k e l).
Proof.
  induction l as [|[k' e'] r IH]; simpl; intros S.
  - repeat constructor.
  - inversion S as [|? ? Sr F]; subst.
    destruct (key_ltb k' k) eqn:L.
    + constructor; [apply IH; exact Sr|].
      apply Forall_forall. intros x Hx. apply put_In in Hx.
      destruct Hx as [->|Hx]; [exact L|].
      rewrite Forall_forall in F. apply F; exact Hx.
    + destruct (key_eqb k k') eqn:E.
      * apply key_eqb_eq in E. subst k'. constructor; assumption.
      * pose proof (key_trichotomy _ _ L E) as Hk.
        constructor; [exact S|]. constructor; [exact Hk|].
        apply Forall_forall. intros x Hx. rewrite Forall_forall in F.
        exact (key_lt_trans Hk (F _ Hx)).
Qed.

Lemma sorted_del (k : key) (l : items) : sorted l -> sorted (del k l).
Proof.
  induction l as [|[k' e'] r IH]; simpl; intros S; [exact S|].
  inversion S as [|? ? Sr F]; subst.
  destruct (key_ltb k' k).
  - constructor; [apply IH; exact Sr|].
    apply Forall_forall. intros x Hx. rewrite Forall_forall in F.
    apply F. exact (del_incl _ _ _ Hx).
  - destruct (key_eqb k k'); assumption.
Qed.

(** A successful Set leaves the node's bucket sorted, with the value under
    the sanitized key. *)
Lemma Set_keeps_bucket_sorted {Val U} (n : Node Val) (k : key) (v : Val)
      (u u1 : U) (w w1 : World) :
  txn n = None -> idle w ->
  sorted (entries_at (committed w) (path n)) ->
  Node_Set n k v u w = Returns (None, u1, w1) ->
  exists b its,
    Marshal (kv n) v = inr b /\
    bucket_at (committed w1) (path n) = Some its /\
    sorted its /\ get (mustKey k) its = Some (Leaf b).
Proof.
  intros T I S H.
  destruct (Marshal (kv n) v) as [e|b] eqn:Mv.
  { unfold Node_Set in H. rewrite Mv in H. discriminate. }
  destruct (resolves (path n) (committed w)) eqn:R.
  2:{ unfold Node_Set in H. rewrite Mv in H.
      match type of H with
      | Node_TxUpdate n ?f u w = _ =>
        destruct (TxUpdate_fresh_unresolved n f u T I R) as [e [_ E]]
      end.
      rewrite E in H. discriminate. }
  rewrite Node_Set_fresh with (b := b) in H by assumption. cbv zeta in H.
  destruct (put_error (mustKey k) b _); [discriminate|].
  inversion H; subst u1 w1.
  exists b, (put (mustKey k) (Leaf b) (entries_at (committed w) (path n))).
  split; [reflexivity|]. split; [|split].
  - rewrite committed_after_commit.
    apply bucket_at_update_at. apply resolved_root_bucket. exact R.
  - apply sorted_put. exact S.
  - apply get_put_same.
Qed.

(* ================================================================== *)
(** * Further properties of node.go *)

(** ** mustKey keeps keys apart *)

Lemma mustKey_plain (k : key) : ~ all_nul k -> mustKey k = k.
Proof.
  unfold all_nul, mustKey. intros H.
  destruct k as [|c r]; [exfalso; apply H; reflexivity|].
  cbn [String.eqb]. destruct (Nat.eqb _ _) eqn:E; [|reflexivity].
  apply Nat.eqb_eq in E. contradiction.
Qed.

Lemma all_nul_of_nuls (n : nat) : all_nul (nuls n).
Proof. unfold all_nul. rewrite count_nul_nuls, length_nuls. reflexivity. Qed.

Lemma mustKey_nuls_is_nuls (n : nat) : exists m, mustKey (nuls n) = nuls m.
Proof.
  rewrite mustKey_nuls. destruct n as [|[|n]]; eexists; reflexivity.
Qed.

Lemma mustKey_injective (k1 k2 : key) : mustKey k1 = mustKey k2 -> k1 = k2.
Proof.
  intros H.
  destruct (Nat.eq_dec (count_nul k1) (String.length k1)) as [A1|A1];
    destruct (Nat.eq_dec (count_nul k2) (String.length k2)) as [A2|A2].
  - apply all_nul_nuls in A1. apply all_nul_nuls in A2.
    rewrite A1, A2 in *.
    remember (String.length k1) as n1. remember (String.length k2) as n2.
    clear Heqn1 Heqn2 A1 A2.
    rewrite !mustKey_nuls in H.
    destruct n1 as [|[|n1]]; destruct n2 as [|[|n2]];
      apply nuls_inj in H; try lia; try reflexivity.
    f_equal. lia.
  - exfalso. apply A2. rewrite (mustKey_plain A2) in H.
    apply all_nul_nuls in A1. rewrite A1 in H.
    destruct (mustKey_nuls_is_nuls (String.length k1)) as [m Hm].
    rewrite Hm in H. subst k2. apply all_nul_of_nuls.
  - exfalso. apply A1. rewrite (mustKey_plain A1) in H.
    apply all_nul_nuls in A2. rewrite A2 in H.
    destruct (mustKey_nuls_is_nuls (String.length k2)) as [m Hm].
    rewrite Hm in H. subst k1. apply all_nul_of_nuls.
  - rewrite (mustKey_plain A1), (mustKey_plain A2) in H. exact H.
Qed.

(** X1: mustKey never sends two different keys to the same stored key, and
    only the empty key is stored under the two-byte sentinel [nullKey]. *)
Theorem mustKey_separates (k1 k2 : key) :
  k1 <> k2 ->
  mustKey k1 <> mustKey k2 /\ (k1 <> "" -> mustKey k1 <> nullKey).
Proof.
  intros H. split.
  - intros E. apply H. exact (mustKey_injective _ _ E).
  - intros Hne E. apply Hne. apply mustKey_injective. exact E.
Qed.

Lemma mustKey_separates_witness :
  "" <> nuls 2 /\ mustKey "" <> mustKey (nuls 2) /\ mustKey (nuls 2) <> nullKey.
Proof.
  split; [discriminate|].
  split.
  - apply (proj1 (@mustKey_separates "" (nuls 2) ltac:(discriminate))).
  - apply (proj2 (@mustKey_separates (nuls 2) "" ltac:(discriminate))).
    discriminate.
Defined.

(** ** Get *)

Lemma Node_Get_fresh {Val U} (n : Node Val) (k : key) (s : Val * U) (w : World) :
  txn n = None -> opened w = true ->
  Node_Get n k s w =
  Returns (get_outcome (kv n) k (entries_at (committed w) (path n)) s,
           after_rollback w false (committed w)).
Proof.
  intros T O. unfold Node_Get.
  rewrite TxView_fresh_bucket by assumption.
  unfold get_outcome, entries_at.
  destruct (bucket_at (committed w) (path n)) as [its|] eqn:B.
  - unfold tx_body, defer, bind. rewrite Bucket_Get_in_tx.
    rewrite (entries_at_some _ _ B).
    destruct (get (mustKey k) its) as [[b|c]|]; cbn;
      try (rewrite Tx_Rollback_in_tx; destruct s; reflexivity).
    unfold on_locals. cbn.
    destruct (Unmarshal (kv n) b (fst s)) as [[e|] v']; cbn;
      rewrite Tx_Rollback_in_tx; reflexivity.
  - change (get (mustKey k) []) with (@None entry).
    unfold tx_body, defer, bind. cbn.
    rewrite Tx_Rollback_in_tx. destruct s; reflexivity.
Qed.

(** What a successful Set on a node without transaction commits. *)
Lemma Set_success_commits {Val U} (n : Node Val) (k : key) (v : Val)
      (u u1 : U) (w w1 : World) :
  txn n = None -> idle w ->
  Node_Set n k v u w = Returns (None, u1, w1) ->
  exists b,
    Marshal (kv n) v = inr b /\ u1 = u /\
    resolves (path n) (committed w) = true /\
    put_error (mustKey k) b (entries_at (committed w) (path n)) = None /\
    w1 = after_commit w (update_at (path n) (put (mustKey k) (Leaf b))
                                   (resolved_root (path n) (committed w))).
Proof.
  intros T I H.
  destruct (Marshal (kv n) v) as [e|b] eqn:Mv.
  { unfold Node_Set in H. rewrite Mv in H. discriminate. }
  destruct (resolves (path n) (committed w)) eqn:R.
  2:{ unfold Node_Set in H. rewrite Mv in H.
      match type of H with
      | Node_TxUpdate n ?f u w = _ =>
        destruct (TxUpdate_fresh_unresolved n f u T I R) as [e [_ E]]
      end.
      rewrite E in H. discriminate. }
  rewrite Node_Set_fresh with (b := b) in H by assumption. cbv zeta in H.
  rewrite (resolved_entries _ _ R) in H.
  destruct (put_error (mustKey k) b (entries_at (committed w) (path n))) eqn:P;
    [discriminate|].
  inversion H. exists b. auto.
Qed.

Lemma entries_after_update (p : NodePath) (root : items) (f : items -> items) :
  resolves p root = true ->
  entries_at (update_at p f (resolved_root p root)) p = f (entries_at root p).
Proof.
  intros R. apply entries_at_some.
  apply bucket_at_update_at. apply resolved_root_bucket. exact R.
Qed.

(** X2: after a successful Set(k, v), Get(k) finds the bytes Set stored,
    for every key (Get sanitizes the key as Set does): if the codec decodes
    them, Get returns nil with the decoded value in the caller's variable,
    and the stored tree is untouched. *)
Theorem Set_then_Get {Val U U'} (n : Node Val) (k : key) (v out v' : Val) (b : bytes)
        (u u1 : U) (s : U') (w w1 : World) :
  txn n = None -> idle w ->
  Node_Set n k v u w = Returns (None, u1, w1) ->
  Marshal (kv n) v = inr b ->
  Unmarshal (kv n) b out = (None, v') ->
  exists w2,
    Node_Get n k (out, s) w1 = Returns (None, (v', s), w2) /\
    committed w2 = committed w1.
Proof.
  intros T I H Mv Um.
  destruct (@Set_success_commits _ _ n k v u u1 w w1 T I H) as [b' [Mv' [_ [R [_ ->]]]]].
  rewrite Mv in Mv'. inversion Mv'; subst b'.
  eexists. split.
  - rewrite Node_Get_fresh by (auto; apply I).
    rewrite committed_after_commit, entries_after_update by exact R.
    unfold get_outcome. rewrite get_put_same. cbn [fst snd]. rewrite Um.
    reflexivity.
  - reflexivity.
Qed.

Lemma Set_then_Get_witness :
  exists w2,
    Node_Get (node_at raw_codec ["rooms"]) (nuls 2) ("", tt)
             (after_commit empty_db [("rooms", Sub [(nuls 3, Leaf "v")])]) =
      Returns (None, ("v", tt), w2) /\
    committed w2 = [("rooms", Sub [(nuls 3, Leaf "v")])].
Proof.
  apply (@Set_then_Get bytes unit unit (node_at raw_codec ["rooms"]) (nuls 2)
           "v" "" "v" "v" tt tt tt empty_db).
  - reflexivity.
  - split; reflexivity.
  - vm_compute. reflexivity.
  - reflexivity.
  - reflexivity.
Defined.

(** X3: Get reports [ErrKeyNotFound] when the bucket is missing, when the
    key is absent and when the key names a nested bucket; the caller's value
    is left as it was, nothing is created and nothing committed.  When the
    stored bytes do not decode, Get returns the codec's error wrapped. *)
Theorem Get_errors {Val U} (n : Node Val) (k : key) (s : Val * U) (w : World) :
  txn n = None -> opened w = true ->
  (has_value (mustKey k) (entries_at (committed w) (path n)) = false ->
   Node_Get n k s w =
     Returns (Some ErrKeyNotFound, s, after_rollback w false (committed w))) /\
  (forall b e v',
      get (mustKey k) (entries_at (committed w) (path n)) = Some (Leaf b) ->
      Unmarshal (kv n) b (fst s) = (Some e, v') ->
      Node_Get n k s w =
        Returns (Some (Wrap e "failed to unmarshal"), (v', snd s),
                 after_rollback w false (committed w))).
Proof.
  intros T O. split.
  - intros A. rewrite Node_Get_fresh by assumption.
    unfold get_outcome. unfold has_value in A.
    destruct (get (mustKey k) (entries_at (committed w) (path n))) as [[b|c]|];
      [discriminate|reflexivity|reflexivity].
  - intros b e v' G Um. rewrite Node_Get_fresh by assumption.
    unfold get_outcome. rewrite G, Um. reflexivity.
Qed.

Lemma Get_errors_witness :
  Node_Get (node_at raw_codec ["rooms"]) "b" ("old", tt)
           (db_of [("rooms", Sub [("a", Leaf "1"); ("b", Sub [])])]) =
    Returns (Some ErrKeyNotFound, ("old", tt),
             after_rollback (db_of [("rooms", Sub [("a", Leaf "1"); ("b", Sub [])])])
                            false [("rooms", Sub [("a", Leaf "1"); ("b", Sub [])])]) /\
  Node_Get (node_at failing_codec ["rooms"]) "a" ("old", tt)
           (db_of [("rooms", Sub [("a", Leaf "1"); ("b", Sub [])])]) =
    Returns (Some (Wrap (CodecError "unsupported type") "failed to unmarshal"),
             ("old", tt),
             after_rollback (db_of [("rooms", Sub [("a", Leaf "1"); ("b", Sub [])])])
                            false [("rooms", Sub [("a", Leaf "1"); ("b", Sub [])])]).
Proof.
  split.
  - apply (proj1 (@Get_errors bytes unit (node_at raw_codec ["rooms"]) "b" ("old", tt)
                    (db_of [("rooms", Sub [("a", Leaf "1"); ("b", Sub [])])])
                    eq_refl eq_refl)).
    reflexivity.
  - apply (proj2 (@Get_errors bytes unit (node_at failing_codec ["rooms"]) "a" ("old", tt)
                    (db_of [("rooms", Sub [("a", Leaf "1"); ("b", Sub [])])])
                    eq_refl eq_refl) "1" (CodecError "unsupported type") "old");
      reflexivity.
Defined.

(** ** Writes and the other keys *)

Lemma get_cons (k' a : key) (x : entry) (l : items) :
  get k' ((a, x) :: l) =
  if key_ltb a k' then get k' l
  else if key_eqb k' a then Some x else None.
Proof. unfold get; simpl. destruct (key_ltb a k'); reflexivity. Qed.

Lemma key_eqb_neq (a b : key) : a <> b -> key_eqb a b = false.
Proof.
  intros H. destruct (key_eqb a b) eqn:E; [|reflexivity].
  apply key_eqb_eq in E. contradiction.
Qed.

Lemma sorted_head_below (a : key) (x : entry) (l : items) (k : key) :
  sorted ((a, x) :: l) -> key_lt k a ->
  Forall (fun b => key_lt k (fst b)) ((a, x) :: l).
Proof.
  intros S H. inversion S as [|? ? _ F]; subst.
  constructor; [exact H|].
  rewrite Forall_forall in *. intros y Hy.
  exact (key_lt_trans H (F _ Hy)).
Qed.

Lemma get_put_other (k k' : key) (e : entry) (l : items) :
  sorted l -> k <> k' -> get k' (put k e l) = get k' l.
Proof.
  intros S N. induction l as [|[a x] r IH]; simpl.
  - rewrite get_cons, (key_eqb_neq (not_eq_sym N)).
    destruct (key_ltb k k'); reflexivity.
  - destruct (key_ltb a k) eqn:L.
    + rewrite !get_cons, (IH (sorted_tail S)). reflexivity.
    + destruct (key_eqb k a) eqn:E.
      * apply key_eqb_eq in E. subst a. rewrite !get_cons.
        rewrite (key_eqb_neq (not_eq_sym N)). reflexivity.
      * rewrite get_cons, (key_eqb_neq (not_eq_sym N)).
        destruct (key_ltb k k') eqn:L'; [reflexivity|].
        symmetry. apply get_above.
        apply (sorted_head_below S).
        apply (key_lt_trans (b := k)).
        -- apply key_trichotomy; [exact L'|apply key_eqb_neq; exact (not_eq_sym N)].
        -- apply key_trichotomy; [exact L|exact E].
Qed.

Lemma get_del_other (k k' : key) (l : items) :
  sorted l -> k <> k' -> get k' (del k l) = get k' l.
Proof.
  intros S N. induction l as [|[a x] r IH]; simpl; [reflexivity|].
  destruct (key_ltb a k) eqn:L.
  - rewrite !get_cons, (IH (sorted_tail S)). reflexivity.
  - destruct (key_eqb k a) eqn:E; [|reflexivity].
    apply key_eqb_eq in E. subst a. rewrite get_cons.
    rewrite (key_eqb_neq (not_eq_sym N)).
    destruct (key_ltb k k') eqn:L'; [reflexivity|].
    apply get_above. inversion S as [|? ? _ F]; subst.
    rewrite Forall_forall in *. intros y Hy.
    apply (key_lt_trans (b := k)); [|exact (F _ Hy)].
    apply key_trichotomy; [exact L'|apply key_eqb_neq; exact (not_eq_sym N)].
Qed.

Lemma Delete_success_commits {Val U} (n : Node Val) (k : key)
      (u u1 : U) (w w1 : World) :
  txn n = None -> idle w ->
  Node_Delete n k u w = Returns (None, u1, w1) ->
  u1 = u /\ resolves (path n) (committed w) = true /\
  w1 = after_commit w (update_at (path n) (del (mustKey k))
                                 (resolved_root (path n) (committed w))).
Proof.
  intros T I H.
  destruct (resolves (path n) (committed w)) eqn:R.
  2:{ unfold Node_Delete in H.
      match type of H with
      | Node_TxUpdate n ?f u w = _ =>
        destruct (TxUpdate_fresh_unresolved n f u T I R) as [e [_ E]]
      end.
      rewrite E in H. discriminate. }
  rewrite Node_Delete_fresh in H by assumption. cbv zeta in H.
  destruct (get (mustKey k) (entries_at (resolved_root (path n) (committed w)) (path n)))
    as [[x|c]|]; inversion H; auto.
Qed.

(** X4: after a successful Delete(k), Get(k) reports [ErrKeyNotFound], for
    every key, the empty key and the all-null keys included (Get sanitizes
    the key as Delete does), and leaves the caller's value as it was. *)
Theorem Delete_then_Get {Val U U'} (n : Node Val) (k : key) (u u1 : U)
        (s : Val * U') (w w1 : World) :
  txn n = None -> idle w ->
  sorted (entries_at (committed w) (path n)) ->
  Node_Delete n k u w = Returns (None, u1, w1) ->
  exists w2, Node_Get n k s w1 = Returns (Some ErrKeyNotFound, s, w2).
Proof.
  intros T I S H.
  destruct (@Delete_success_commits _ _ n k u u1 w w1 T I H) as [_ [R ->]].
  eexists. rewrite Node_Get_fresh by (auto; apply I).
  rewrite committed_after_commit, entries_after_update by exact R.
  unfold get_outcome. rewrite (get_del_same _ S). reflexivity.
Qed.

Lemma Delete_then_Get_witness :
  exists w2,
    Node_Get (node_at raw_codec ["rooms"]) (nuls 2) ("old", tt)
             (after_commit (db_of [("rooms", Sub [(nuls 2, Leaf "e"); (nuls 3, Leaf "v")])])
                           [("rooms", Sub [(nuls 2, Leaf "e")])]) =
      Returns (Some ErrKeyNotFound, ("old", tt), w2).
Proof.
  apply (@Delete_then_Get bytes unit unit (node_at raw_codec ["rooms"]) (nuls 2)
           tt tt ("old", tt)
           (db_of [("rooms", Sub [(nuls 2, Leaf "e"); (nuls 3, Leaf "v")])])).
  - reflexivity.
  - split; reflexivity.
  - repeat constructor.
  - vm_compute. reflexivity.
Defined.

(** X5: a successful Set or Delete of a key leaves Get of every other key
    as it was: same result, same decoded value. *)
Theorem writes_leave_other_keys {Val U U'} (n : Node Val) (k k' : key) (v : Val)
        (u u1 : U) (s : Val * U') (w w1 : World) :
  txn n = None -> idle w ->
  sorted (entries_at (committed w) (path n)) ->
  k <> k' ->
  Node_Set n k v u w = Returns (None, u1, w1) \/
  Node_Delete n k u w = Returns (None, u1, w1) ->
  exists r w2 w3,
    Node_Get n k' s w = Returns (r, w2) /\
    Node_Get n k' s w1 = Returns (r, w3).
Proof.
  intros T I S N H.
  assert (N' : mustKey k <> mustKey k')
    by (intros E; apply N; exact (mustKey_injective _ _ E)).
  exists (get_outcome (kv n) k' (entries_at (committed w) (path n)) s),
         (after_rollback w false (committed w)),
         (after_rollback w1 false (committed w1)).
  split; [apply Node_Get_fresh; auto; apply I|].
  destruct H as [H|H].
  - destruct (@Set_success_commits _ _ n k v u u1 w w1 T I H) as [b [_ [_ [R [_ ->]]]]].
    rewrite Node_Get_fresh by (auto; apply I).
    rewrite committed_after_commit, entries_after_update by exact R.
    unfold get_outcome. rewrite (get_put_other _ S N'). reflexivity.
  - destruct (@Delete_success_commits _ _ n k u u1 w w1 T I H) as [_ [R ->]].
    rewrite Node_Get_fresh by (auto; apply I).
    rewrite committed_after_commit, entries_after_update by exact R.
    unfold get_outcome. rewrite (get_del_other S N'). reflexivity.
Qed.

Lemma writes_leave_other_keys_witness :
  exists r w2 w3,
    Node_Get (node_at raw_codec ["rooms"]) "a" ("", tt)
             (db_of [("rooms", Sub [("a", Leaf "1"); ("c", Leaf "3")])]) =
      Returns (r, w2) /\
    Node_Get (node_at raw_codec ["rooms"]) "a" ("", tt)
             (after_commit (db_of [("rooms", Sub [("a", Leaf "1"); ("c", Leaf "3")])])
                [("rooms", Sub [("a", Leaf "1"); ("b", Leaf "2"); ("c", Leaf "3")])]) =
      Returns (r, w3).
Proof.
  apply (@writes_leave_other_keys bytes unit unit (node_at raw_codec ["rooms"])
           "b" "a" "2" tt tt ("", tt)
           (db_of [("rooms", Sub [("a", Leaf "1"); ("c", Leaf "3")])])).
  - reflexivity.
  - split; reflexivity.
  - repeat constructor.
  - discriminate.
  - left. vm_compute. reflexivity.
Defined.

(** ** Read-only transactions and a closed database *)

Lemma TxView_fresh_general {Val U} (n : Node Val) (f : Node Val -> M U error)
      (u : U) (w : World) :
  txn n = None -> opened w = true ->
  Node_TxView n f u w =
  tx_body (next_tx w) false (f (mkNode (kv n) (Some (next_tx w)) None (path n)))
          u (in_tx w false (committed w)).
Proof.
  intros T O. unfold Node_TxView.
  rewrite Node_doTx_fresh by (auto; discriminate).
  rewrite andb_false_r. reflexivity.
Qed.

Lemma TxUpdate_read_only {Val U} (m : Node Val) (f : Node Val -> M U error)
      (u : U) (w : World) (root : items) :
  txn m = Some (next_tx w) ->
  Node_TxUpdate m f u (in_tx w false root) =
  Returns (Some ErrTxNotWritable, u, in_tx w false root).
Proof.
  intros T. unfold Node_TxUpdate. rewrite T. unfold bind.
  rewrite Tx_Writable_in_tx. reflexivity.
Qed.

(** X6: inside the callback of a TxView, a TxUpdate on the node handed to
    the callback fails with [ErrTxNotWritable] without running its own
    callback; so Set, SetIfNone (of a serializable value), Delete and
    DropExceptLast called there return [ErrTxNotWritable], and the TxView
    ends with the committed tree as it was. *)
Theorem writes_in_view_fail {Val U} (n : Node Val) (k : key) (v : Val) (b : bytes)
        (last : Z) (u : U) (w : World) :
  txn n = None -> opened w = true ->
  Marshal (kv n) v = inr b ->
  (forall f, Node_TxView n (fun m => Node_TxUpdate m f) u w =
             Returns (Some ErrTxNotWritable, u, after_rollback w false (committed w))) /\
  Node_TxView n (fun m => Node_Set m k v) u w =
    Returns (Some ErrTxNotWritable, u, after_rollback w false (committed w)) /\
  Node_TxView n (fun m => Node_SetIfNone m k v) u w =
    Returns (Some ErrTxNotWritable, u, after_rollback w false (committed w)) /\
  Node_TxView n (fun m => Node_Delete m k) u w =
    Returns (Some ErrTxNotWritable, u, after_rollback w false (committed w)) /\
  Node_TxView n (fun m => Node_DropExceptLast m last) u w =
    Returns (Some ErrTxNotWritable, u, after_rollback w false (committed w)).
Proof.
  intros T O Mv.
  assert (G : forall f, Node_TxView n (fun m => Node_TxUpdate m f) u w =
                        Returns (Some ErrTxNotWritable, u,
                                 after_rollback w false (committed w))).
  { intros f. rewrite TxView_fresh_general by assumption.
    apply tx_body_rollback. apply TxUpdate_read_only. reflexivity. }
  split; [exact G|].
  repeat split.
  - rewrite TxView_fresh_general by assumption.
    apply tx_body_rollback. unfold Node_Set. cbn [kv]. rewrite Mv.
    apply TxUpdate_read_only. reflexivity.
  - rewrite TxView_fresh_general by assumption.
    apply tx_body_rollback. unfold Node_SetIfNone. cbn [kv]. rewrite Mv.
    apply TxUpdate_read_only. reflexivity.
  - apply G.
  - apply G.
Qed.

Lemma writes_in_view_fail_witness :
  Node_TxView (node_at raw_codec ["rooms"])
              (fun m => Node_Set m "a" "2") tt
              (db_of [("rooms", Sub [("a", Leaf "1")])]) =
    Returns (Some ErrTxNotWritable, tt,
             after_rollback (db_of [("rooms", Sub [("a", Leaf "1")])]) false
                            [("rooms", Sub [("a", Leaf "1")])]).
Proof.
  apply (proj1 (proj2 (@writes_in_view_fail bytes unit (node_at raw_codec ["rooms"])
                         "a" "2" "2" 0 tt (db_of [("rooms", Sub [("a", Leaf "1")])])
                         eq_refl eq_refl eq_refl))).
Defined.

Lemma Node_doTx_closed {Val U} (n : Node Val) (f : Node Val -> M U error)
      (wr : bool) (u : U) (w : World) :
  txn n = None -> opened w = false ->
  Node_doTx n f wr u w =
  Returns (Some (Wrap ErrDatabaseNotOpen "failed to begin RO transaction"), u, w).
Proof.
  intros T O. unfold Node_doTx. rewrite T. unfold bind, DB_Begin.
  rewrite O. reflexivity.
Qed.

(** X7: on a database that is not open, a node without transaction cannot
    begin one: TxUpdate and TxView return the engine's error wrapped without
    running the callback, Set (of a serializable value) and Delete return
    that error, Exists answers false and Length answers 0 with the error;
    the world is left exactly as it was. *)
Theorem closed_database {Val U} (n : Node Val) (k : key) (v : Val) (b : bytes)
        (prefix : string) (u : U) (w : World) :
  txn n = None -> opened w = false ->
  Marshal (kv n) v = inr b ->
  let e := Wrap ErrDatabaseNotOpen "failed to begin RO transaction" in
  (forall f, Node_TxUpdate n f u w = Returns (Some e, u, w)) /\
  (forall f, Node_TxView n f u w = Returns (Some e, u, w)) /\
  Node_Set n k v u w = Returns (Some e, u, w) /\
  Node_Delete n k u w = Returns (Some e, u, w) /\
  Node_Exists n k u w = Returns (false, u, w) /\
  Node_Length n prefix u w = Returns ((0%Z, Some e), u, w).
Proof.
  intros T O Mv e.
  assert (G : forall f, Node_TxUpdate n f u w = Returns (Some e, u, w)).
  { intros f. unfold Node_TxUpdate. rewrite T. apply Node_doTx_closed; assumption. }
  split; [exact G|].
  split; [intros f; apply Node_doTx_closed; assumption|].
  split; [unfold Node_Set; rewrite Mv; apply G|].
  split; [apply G|].
  split.
  - unfold Node_Exists, with_local, Node_TxView, bind.
    rewrite Node_doTx_closed by assumption. reflexivity.
  - unfold Node_Length, with_local, Node_TxView, bind.
    rewrite Node_doTx_closed by assumption. reflexivity.
Qed.

Lemma closed_database_witness :
  Node_Set (node_at raw_codec ["rooms"]) "a" "1" tt (mkWorld [] false [] []) =
    Returns (Some (Wrap ErrDatabaseNotOpen "failed to begin RO transaction"), tt,
             mkWorld [] false [] []) /\
  Node_Exists (node_at raw_codec ["rooms"]) "a" tt (mkWorld [] false [] []) =
    Returns (false, tt, mkWorld [] false [] []).
Proof.
  pose proof (@closed_database bytes unit (node_at raw_codec ["rooms"]) "a" "1" "1" ""
                tt (mkWorld [] false [] []) eq_refl eq_refl eq_refl) as H.
  cbv zeta in H. split; apply H.
Defined.

(** ** Deriving nodes *)

Lemma Node_FromPath_no_tx {Val U} (n : Node Val) (p : NodePath) (u : U) (w : World) :
  txn n = None ->
  Node_FromPath n p u w = Returns (mkNode (kv n) None None p, u, w).
Proof.
  intros T. unfold Node_FromPath, bind, Node_bucket. cbn. rewrite T. reflexivity.
Qed.

Lemma Node_Node_no_tx {Val U} (m : Node Val) (c : list string) (u : U) (w : World) :
  txn m = None -> c <> [] ->
  Node_Node m c u w = Returns (mkNode (kv m) None None (path m ++ c), u, w).
Proof.
  intros Tm Hc. unfold Node_Node.
  destruct c as [|x c]; [congruence|]. cbn [List.length Z.of_nat].
  replace (Z.pos (Pos.of_succ_nat (List.length c)) =? 0)%Z with false by reflexivity.
  apply Node_FromPath_no_tx. exact Tm.
Qed.

(** X8: on a node without transaction, Node(names...) returns the node of
    the path extended by the names, touching nothing; deriving in two steps
    is deriving in one, and is FromPath of the whole path; with no names it
    panics. *)
Theorem Node_Node_composes {Val U} (n : Node Val) (a b : list string)
        (u : U) (w : World) :
  txn n = None -> a <> [] -> b <> [] ->
  Node_Node n a u w = Returns (mkNode (kv n) None None (path n ++ a), u, w) /\
  (m <- Node_Node n a ;; Node_Node m b) u w = Node_Node n (a ++ b) u w /\
  Node_Node n (a ++ b) u w = Node_FromPath n (path n ++ a ++ b) u w /\
  Node_Node n [] u w = Panics "Node name can't be empty".
Proof.
  intros T Ha Hb.
  assert (Hab : a ++ b <> []) by (destruct a; [congruence|discriminate]).
  split; [apply Node_Node_no_tx; assumption|].
  split.
  - unfold bind. rewrite (@Node_Node_no_tx _ _ n a u w T Ha).
    rewrite Node_Node_no_tx; [|reflexivity|exact Hb].
    rewrite Node_Node_no_tx; [|exact T|exact Hab].
    cbn [kv path]. rewrite app_assoc. reflexivity.
  - split; [|reflexivity].
    rewrite Node_Node_no_tx; [|exact T|exact Hab].
    rewrite Node_FromPath_no_tx by exact T. reflexivity.
Qed.

Lemma Node_Node_composes_witness :
  (m <- Node_Node (node_at raw_codec []) ["rooms"] ;; Node_Node m ["!abc:example.org"])
    tt empty_db =
  Node_Node (node_at raw_codec []) (["rooms"] ++ ["!abc:example.org"]) tt empty_db /\
  Node_Node (node_at raw_codec []) (["rooms"] ++ ["!abc:example.org"]) tt empty_db =
  Node_FromPath (node_at raw_codec []) ([] ++ ["rooms"] ++ ["!abc:example.org"]) tt empty_db.
Proof.
  pose proof (@Node_Node_composes bytes unit (node_at raw_codec []) ["rooms"]
                ["!abc:example.org"] tt empty_db eq_refl
                ltac:(discriminate) ltac:(discriminate)) as H.
  split; apply H.
Defined.

(** ** Operations inside an open writable transaction *)

Lemma create_walk_step (h : handle) (s : key) (p : NodePath) (root : items) :
  create_walk h (s :: p) root =
  if (len s =? 0)%Z then (inl ErrBucketNameRequired, root)
  else
    match get s (entries_at root h) with
    | Some (Sub _) => create_walk (h ++ [s]) p root
    | Some (Leaf _) => (inl ErrIncompatibleValue, root)
    | None => create_walk (h ++ [s]) p (update_at h (put s (Sub [])) root)
    end.
Proof. reflexivity. Qed.

Lemma create_walk_app (p q : NodePath) (h : handle) (root : items) :
  create_walk h (p ++ q) root =
  match create_walk h p root with
  | (inr h', root') => create_walk h' q root'
  | (inl e, root') => (inl e, root')
  end.
Proof.
  revert h root. induction p as [|s p IH]; intros h root; [reflexivity|].
  cbn [app]. rewrite !create_walk_step.
  destruct (len s =? 0)%Z; [reflexivity|].
  destruct (get s (entries_at root h)) as [[x|c]|]; [reflexivity| |]; apply IH.
Qed.

Lemma create_walk_valid (p : NodePath) (h h' : handle) (root root' : items) :
  create_walk h p root = (inr h', root') -> valid_path p = true.
Proof.
  revert h root. induction p as [|s p IH]; intros h root; [reflexivity|].
  rewrite create_walk_step. unfold valid_path in *. cbn [forallb].
  destruct (len s =? 0)%Z; [discriminate|]. cbn [negb andb].
  destruct (get s (entries_at root h)) as [[x|c]|]; [discriminate| |]; apply IH.
Qed.

(** Resolving a path again finds it and creates nothing more. *)
Lemma create_walk_again (p : NodePath) (root : items) :
  resolves p root = true ->
  create_walk [] p (resolved_root p root) = (inr p, resolved_root p root).
Proof.
  intros R. pose proof (resolved_root_bucket _ _ R) as B.
  unfold resolves, resolved_root in *.
  destruct (create_walk [] p root) as [[e|h] root'] eqn:E; [discriminate|].
  cbn [snd] in *.
  apply (@create_walk_exists p [] root' (entries_at root p)
           (create_walk_valid _ _ _ E) B).
Qed.

Lemma resolves_prefix (p q : NodePath) (root : items) :
  resolves (p ++ q) root = true -> resolves p root = true.
Proof.
  unfold resolves. rewrite create_walk_app.
  destruct (create_walk [] p root) as [[e|h] root']; [discriminate|reflexivity].
Qed.

(** Resolving the parent first does not change what resolving the child
    arrives at. *)
Lemma create_walk_after_prefix (p q : NodePath) (root : items) :
  resolves (p ++ q) root = true ->
  create_walk [] (p ++ q) (resolved_root p root) = create_walk [] (p ++ q) root.
Proof.
  intros R. pose proof (resolves_prefix _ _ _ R) as Rp.
  rewrite !create_walk_app. rewrite (create_walk_again _ _ Rp).
  pose proof (resolves_at _ _ Rp) as E. unfold resolved_root.
  destruct (create_walk [] p root) as [[e|h] root']; cbn [fst snd] in *;
    [discriminate|]. inversion E; subst h. reflexivity.
Qed.

Lemma Node_bucket_tx_node {Val U} (n : Node Val) (u : U) (w : World) (root : items) :
  Node_bucket (tx_node n (next_tx w) true) u (in_tx w true root) =
  Returns ((cached_node n (next_tx w), inr (mkBucket (next_tx w) (path n))),
           u, in_tx w true root).
Proof.
  unfold tx_node, cached_node. destruct (path n) as [|s p] eqn:P.
  - cbn [List.length Z.of_nat Z.ltb Z.compare andb].
    rewrite Node_bucket_create, create_walk_nil. reflexivity.
  - replace ((0 <? Z.of_nat (List.length (s :: p)))%Z && true) with true
      by (symmetry; apply andb_true_iff; split; [apply Z.ltb_lt; simpl; lia|reflexivity]).
    apply Node_bucket_cached. reflexivity.
Qed.


Lemma Node_Get_in_tx {Val U} (c : Node Val) (q : handle) (k : key)
      (s : Val * U) (w : World) (root : items) :
  txn c = Some (next_tx w) ->
  buck c = Some (mkBucket (next_tx w) q) ->
  Node_Get c k s (in_tx w true root) =
  Returns (get_outcome (kv c) k (entries_at root q) s, in_tx w true root).
Proof.
  intros T B. unfold Node_Get, Node_TxView, Node_doTx. rewrite T.
  unfold bind. rewrite (Node_bucket_cached _ _ _ B). cbv beta iota zeta.
  rewrite Bucket_Get_in_tx. unfold get_outcome.
  destruct (get (mustKey k) (entries_at root q)) as [[b|y]|]; cbn;
    try (destruct s; reflexivity).
  unfold on_locals. cbn.
  destruct (Unmarshal (kv c) b (fst s)) as [[e|] v']; reflexivity.
Qed.

Lemma Node_Node_in_tx {Val U} (n : Node Val) (names : list string) (u : U)
      (w : World) :
  names <> [] ->
  resolves (path n ++ names) (committed w) = true ->
  Node_Node (tx_node n (next_tx w) true) names u
            (in_tx w true (resolved_root (path n) (committed w))) =
  Returns (mkNode (kv n) (Some (next_tx w))
                  (Some (mkBucket (next_tx w) (path n ++ names))) (path n ++ names),
           u, in_tx w true (resolved_root (path n ++ names) (committed w))).
Proof.
  intros Hn R. unfold Node_Node.
  destruct names as [|x names]; [congruence|]. cbn [List.length Z.of_nat].
  replace (Z.pos (Pos.of_succ_nat (List.length names)) =? 0)%Z with false by reflexivity.
  unfold Node_FromPath, bind. cbn [kv txn path tx_node].
  rewrite Node_bucket_create, (create_walk_after_prefix _ _ _ R).
  rewrite (resolves_at _ _ R). reflexivity.
Qed.



(** X10: inside one TxUpdate, a Get after a Set of the same key reads the
    value just written, before anything is committed; the transaction then
    commits the write. *)
Theorem Get_sees_Set_in_transaction {Val U} (n : Node Val) (k : key)
        (v out v' : Val) (b : bytes) (s : U) (w : World) :
  txn n = None -> idle w ->
  resolves (path n) (committed w) = true ->
  Marshal (kv n) v = inr b ->
  put_error (mustKey k) b (entries_at (committed w) (path n)) = None ->
  Unmarshal (kv n) b out = (None, v') ->
  Node_TxUpdate n (set_then_get k v) (out, s) w =
  Returns (None, (v', s),
           after_commit w (update_at (path n) (put (mustKey k) (Leaf b))
                                     (resolved_root (path n) (committed w)))).
Proof.
  intros T I R Mv P Um.
  rewrite TxUpdate_fresh_general by assumption.
  apply tx_body_commit.
  unfold set_then_get, bind.
  set (root := resolved_root (path n) (committed w)).
  assert (ES : Node_Set (tx_node n (next_tx w) true) k v (out, s) (in_tx w true root) =
               Returns (None, (out, s),
                        in_tx w true (update_at (path n) (put (mustKey k) (Leaf b)) root))).
  { unfold Node_Set. cbn [kv tx_node]. rewrite Mv.
    rewrite TxUpdate_inherited by reflexivity.
    unfold bind. rewrite Node_bucket_tx_node. cbv beta iota zeta.
    rewrite Bucket_Put_in_tx. unfold put_error in P.
    rewrite <- (resolved_entries _ _ R) in P. fold root in P.
    destruct (len (mustKey k) =? 0)%Z; [discriminate|].
    destruct (MaxKeySize <? len (mustKey k))%Z; [discriminate|].
    destruct (MaxValueSize <? len b)%Z; [discriminate|].
    destruct (get (mustKey k) (entries_at root (path n))) as [[x|y]|];
      [reflexivity|discriminate|reflexivity]. }
  rewrite ES. cbv beta iota. subst root.
  unfold Node_Get, Node_TxView, Node_doTx. cbn [txn tx_node].
  unfold bind. rewrite Node_bucket_tx_node. cbv beta iota zeta.
  rewrite Bucket_Get_in_tx.
  rewrite (entries_at_some _ _
             (bucket_at_update_at _ (put (mustKey k) (Leaf b)) _
                                  (resolved_root_bucket _ _ R))).
  rewrite get_put_same. cbv beta iota. unfold on_locals. cbn [fst snd kv cached_node].
  rewrite Um. reflexivity.
Qed.

Lemma Get_sees_Set_in_transaction_witness :
  Node_TxUpdate (node_at raw_codec ["rooms"]) (set_then_get "k" "v") ("", tt) empty_db =
  Returns (None, ("v", tt),
           after_commit empty_db
             (update_at ["rooms"] (put (mustKey "k") (Leaf "v"))
                        (resolved_root ["rooms"] (committed empty_db)))).
Proof.
  apply (@Get_sees_Set_in_transaction bytes unit (node_at raw_codec ["rooms"])
           "k" "v" "" "v" "v" tt empty_db); try reflexivity.
  split; reflexivity.
Defined.

(** ** EachKey *)

Lemma EachKey_visit_trace {U} (fn : key -> Z -> U -> error * U) (length : Z)
      (c : items) :
  forall u calls0 w,
  exists r u' calls1,
    EachKey_visit c length (traced_key fn) (u, calls0) w =
      Returns (r, (u', calls0 ++ calls1), w) /\
    Forall (fun x => call_count x = length) calls1 /\
    map call_key calls1 = firstn (List.length calls1) (map fst c) /\
    ((all_nil calls1 /\ List.length calls1 = List.length c /\ r = None) \/
     (exists pre k e,
         calls1 = pre ++ [(k, length, Some e)] /\ all_nil pre /\
         r = if err_eqb e EachBreak then None else Some e)).
Proof.
  induction c as [|[k x] c IH]; intros u calls0 w.
  - exists None, u, []. rewrite app_nil_r. simpl.
    repeat split; auto. left. repeat split; constructor.
  - cbn [EachKey_visit]. unfold bind at 1, on_locals at 1, traced_key at 1.
    cbn [fst snd].
    destruct (fn k length u) as [[e|] u2]; cbv beta iota zeta.
    + exists (if err_eqb e EachBreak then None else Some e), u2, [(k, length, Some e)].
      split; [destruct (err_eqb e EachBreak); reflexivity|].
      split; [repeat constructor|]. split; [reflexivity|].
      right. exists [], k, e. repeat split. constructor.
    + destruct (IH u2 (calls0 ++ [(k, length, None)]) w)
        as [r [u' [calls1 [E [F [K R]]]]]].
      exists r, u', ((k, length, None) :: calls1).
      split; [rewrite <- app_assoc in E; exact E|].
      split; [constructor; [reflexivity|exact F]|].
      split; [simpl; rewrite K; reflexivity|].
      destruct R as [[A [L Rn]]|[pre [k' [e [Ec [A Rn]]]]]].
      * left. split; [constructor; [reflexivity|exact A]|].
        split; [simpl; rewrite L; reflexivity|exact Rn].
      * right. exists ((k, length, None) :: pre), k', e.
        split; [rewrite Ec; reflexivity|].
        split; [constructor; [reflexivity|exact A]|exact Rn].
Qed.

(** X11: EachKey counts and visits every direct entry of the bucket, nested
    buckets included: every invocation of the callback is given the number
    of all entries, the keys are visited in cursor order, an invocation
    returning [EachBreak] is the last and EachKey returns nil, one returning
    another error is the last and EachKey returns that error, and if all
    return nil every entry is visited. *)
Theorem EachKey_counts_every_entry {Val U} (n : Node Val) (prefix : string)
        (fn : key -> Z -> U -> error * U) (u0 : U) (w : World) :
  txn n = None -> opened w = true ->
  let its := entries_at (committed w) (path n) in
  let N := List.length its in
  (Z.of_nat N <= max_int)%Z ->
  exists r u' calls w',
    Node_EachKey n prefix (traced_key fn) (u0, []) w =
      Returns (r, (u', calls), w') /\
    committed w' = committed w /\
    Forall (fun c => call_count c = Z.of_nat N) calls /\
    map call_key calls = firstn (List.length calls) (map fst its) /\
    (forall i c, nth_error calls i = Some c ->
                 call_result c = Some EachBreak ->
                 List.length calls = S i /\ r = None) /\
    (forall i c e, nth_error calls i = Some c ->
                   call_result c = Some e -> e <> EachBreak ->
                   List.length calls = S i /\ r = Some e) /\
    (all_nil calls -> List.length calls = N /\ r = None).
Proof.
  intros T O its N L.
  assert (Hc : count_keys its 0 = Z.of_nat N)
    by (rewrite count_keys_length by (simpl; fold N; lia); reflexivity).
  destruct (EachKey_visit_trace fn (Z.of_nat N) its u0 []
                                (in_tx w false (committed w)))
    as [r [u' [calls [E [F [K R]]]]]].
  simpl in E.
  exists r, u', calls, (after_rollback w false (committed w)).
  split.
  { rewrite Node_EachKey_fresh by assumption. fold its. rewrite Hc.
    unfold tx_body, defer, bind. rewrite E.
    destruct r; cbn; rewrite Tx_Rollback_in_tx; reflexivity. }
  split; [reflexivity|]. split; [exact F|]. split; [exact K|].
  assert (Last : forall i c e,
             nth_error calls i = Some c -> call_result c = Some e ->
             List.length calls = S i /\
             r = if err_eqb e EachBreak then None else Some e).
  { intros i c e Hn Hr.
    destruct R as [[A _]|[pre [k [e' [Ec [A Rn]]]]]].
    - rewrite (@all_nil_nth _ _ _ A Hn) in Hr. discriminate.
    - subst calls.
      destruct (Nat.lt_ge_cases i (List.length pre)) as [Hlt|Hge].
      + rewrite nth_error_app1 in Hn by exact Hlt.
        rewrite (@all_nil_nth _ _ _ A Hn) in Hr. discriminate.
      + rewrite nth_error_app2 in Hn by exact Hge.
        destruct (i - List.length pre) as [|j] eqn:Ei; simpl in Hn.
        * inversion Hn; subst c. simpl in Hr. inversion Hr; subst e'.
          rewrite length_app; simpl. split; [lia|exact Rn].
        * destruct j; discriminate. }
  split; [|split].
  - intros i c Hn Hr. destruct (Last i c _ Hn Hr) as [Hl Hres]. auto.
  - intros i c e Hn Hr Hne. destruct (Last i c _ Hn Hr) as [Hl Hres].
    split; [exact Hl|]. rewrite Hres.
    destruct (err_eqb e EachBreak) eqn:Eb; [|reflexivity].
    apply err_eqb_EachBreak in Eb. contradiction.
  - intros A. destruct R as [[_ [Hl Hr]]|[pre [k [e [Ec _]]]]]; [auto|].
    subst calls. unfold all_nil in A. rewrite Forall_app in A.
    destruct A as [_ A]. inversion A as [|? ? Hx _]. discriminate Hx.
Qed.

Lemma EachKey_counts_every_entry_witness :
  exists r u' calls w',
    Node_EachKey (node_at raw_codec ["rooms"]) "" (traced_key (break_key_at "c")) (tt, [])
                 (db_of [("rooms", Sub [("a", Leaf "1"); ("b", Sub []);
                                        ("c", Leaf "3"); ("d", Leaf "4")])]) =
      Returns (r, (u', calls), w') /\
    committed w' = [("rooms", Sub [("a", Leaf "1"); ("b", Sub []);
                                   ("c", Leaf "3"); ("d", Leaf "4")])] /\
    Forall (fun c => call_count c = 4%Z) calls /\
    map call_key calls = firstn (List.length calls) ["a"; "b"; "c"; "d"] /\
    (forall i c, nth_error calls i = Some c ->
                 call_result c = Some EachBreak ->
                 List.length calls = S i /\ r = None) /\
    (forall i c e, nth_error calls i = Some c ->
                   call_result c = Some e -> e <> EachBreak ->
                   List.length calls = S i /\ r = Some e) /\
    (all_nil calls -> List.length calls = 4 /\ r = None).
Proof.
  apply (@EachKey_counts_every_entry bytes unit (node_at raw_codec ["rooms"]) ""
           (break_key_at "c") tt
           (db_of [("rooms", Sub [("a", Leaf "1"); ("b", Sub []);
                                  ("c", Leaf "3"); ("d", Leaf "4")])])).
  - reflexivity.
  - reflexivity.
  - vm_compute. discriminate.
Defined.

(** ** DropExceptLast on a bucket that also holds nested buckets *)

Lemma filter_all {A} (P : A -> bool) (l : list A) :
  Forall (fun y => P y = true) l -> filter P l = l.
Proof.
  induction l as [|a l IH]; intros F; [reflexivity|].
  inversion F as [|? ? Ha Fl]; subst. simpl. rewrite Ha, (IH Fl). reflexivity.
Qed.

Lemma filter_filter {A} (P Q : A -> bool) (l : list A) :
  filter P (filter Q l) = filter (fun x => Q x && P x) l.
Proof.
  induction l as [|a l IH]; [reflexivity|]. simpl.
  destruct (Q a); simpl; [destruct (P a)|]; rewrite IH; reflexivity.
Qed.

Lemma above_not_key (k : key) (l : items) :
  Forall (fun b => key_lt k (fst b)) l ->
  Forall (fun y => negb (existsb (key_eqb (fst y)) [k]) = true) l.
Proof.
  intros F. rewrite Forall_forall in *. intros y Hy. simpl.
  rewrite (key_ltb_neq _ _ (F _ Hy)). reflexivity.
Qed.

Lemma del_without (k : key) (l : items) : sorted l -> del k l = without [k] l.
Proof.
  unfold without. induction l as [|[a x] r IH]; intros S; [reflexivity|].
  cbn [del]. destruct (key_ltb a k) eqn:L.
  - cbn [filter existsb fst]. rewrite (key_eqb_neq (a := a) (b := k)).
    + cbn. rewrite (IH (sorted_tail S)). reflexivity.
    + intros E; subst a. rewrite key_ltb_irrefl in L. discriminate.
  - destruct (key_eqb k a) eqn:E.
    + apply key_eqb_eq in E. subst a.
      cbn [filter existsb fst]. rewrite key_eqb_refl. cbn.
      symmetry. apply (filter_all (fun y => negb (existsb (key_eqb (fst y)) [k]))).
      apply above_not_key. inversion S; assumption.
    + symmetry. apply (filter_all (fun y => negb (existsb (key_eqb (fst y)) [k]))).
      apply above_not_key. apply (sorted_head_below S).
      apply key_trichotomy; assumption.
Qed.

Lemma sorted_filter (P : key * entry -> bool) (l : items) :
  sorted l -> sorted (filter P l).
Proof.
  induction l as [|a l IH]; intros S; [exact S|].
  inversion S as [|? ? Sl F]; subst. simpl.
  destruct (P a); [|apply IH; exact Sl].
  constructor; [apply IH; exact Sl|].
  rewrite Forall_forall in *. intros y Hy. apply F.
  apply filter_In in Hy. apply Hy.
Qed.

Lemma del_all_without (ks : list key) (l : items) :
  sorted l -> del_all ks l = without ks l.
Proof.
  revert l. induction ks as [|k ks IH]; intros l S.
  - unfold without. simpl. symmetry. apply filter_all.
    apply Forall_forall. reflexivity.
  - change (del_all (k :: ks) l) with (del_all ks (del k l)).
    rewrite (IH _ (sorted_del k S)), (del_without k S).
    unfold without. rewrite filter_filter. apply filter_ext.
    intros y. simpl. rewrite orb_false_r.
    destruct (key_eqb (fst y) k); reflexivity.
Qed.

Lemma without_same_keys (ks ks' : list key) (l : items) :
  (forall f, existsb f ks = existsb f ks') -> without ks l = without ks' l.
Proof. intros H. unfold without. apply filter_ext. intros y. rewrite H. reflexivity. Qed.

Lemma existsb_leaf_sub_keys (f : key -> bool) (d : items) :
  existsb f (leaf_keys d ++ sub_keys d) = existsb f (map fst d).
Proof.
  unfold leaf_keys, sub_keys.
  induction d as [|[k [x|c]] d IH]; [reflexivity| |].
  - cbn. rewrite IH. reflexivity.
  - cbn. rewrite existsb_app in *. cbn. rewrite <- IH.
    destruct (f k), (existsb f (map fst (filter is_leaf d))); reflexivity.
Qed.

Lemma del_all_app (a b : list key) (l : items) :
  del_all (a ++ b) l = del_all b (del_all a l).
Proof. unfold del_all. apply fold_left_app. Qed.

Lemma sorted_get_In (k : key) (e : entry) (l : items) :
  sorted l -> In (k, e) l -> get k l = Some e.
Proof.
  induction l as [|[a x] r IH]; intros S H; [contradiction|].
  rewrite get_cons. destruct H as [H|H].
  - inversion H; subst. rewrite key_ltb_irrefl, key_eqb_refl. reflexivity.
  - inversion S as [|? ? Sr F]; subst. rewrite Forall_forall in F.
    pose proof (F _ H) as L. simpl in L. unfold key_lt in L. rewrite L.
    apply IH; assumption.
Qed.

Lemma del_keeps_other (k : key) (l : items) (x : key * entry) :
  In x l -> fst x <> k -> In x (del k l).
Proof.
  induction l as [|[a y] r IH]; intros H N; [contradiction|]. simpl.
  destruct (key_ltb a k).
  - destruct H as [H|H]; [left; exact H|right; apply IH; assumption].
  - destruct (key_eqb k a) eqn:E; [|exact H].
    apply key_eqb_eq in E. subst a.
    destruct H as [H|H]; [subst x; simpl in N; congruence|exact H].
Qed.

Lemma sorted_NoDup_keys (l : items) : sorted l -> NoDup (map fst l).
Proof.
  induction l as [|[a x] r IH]; intros S; [constructor|].
  inversion S as [|? ? Sr F]; subst. simpl. constructor; [|apply IH; exact Sr].
  intros H. apply in_map_iff in H. destruct H as [[k y] [E H]]. simpl in E. subst k.
  rewrite Forall_forall in F. pose proof (F _ H) as L. simpl in L.
  unfold key_lt in L. rewrite key_ltb_irrefl in L. discriminate.
Qed.

Lemma Bucket_DeleteBucket_in_tx {U} (h : handle) (k : key) (u : U) (w : World)
      (root : items) :
  Bucket_DeleteBucket (mkBucket (next_tx w) h) k u (in_tx w true root) =
  match get k (entries_at root h) with
  | None => Returns (Some ErrBucketNotFound, u, in_tx w true root)
  | Some (Leaf _) => Returns (Some ErrIncompatibleValue, u, in_tx w true root)
  | Some (Sub _) => Returns (None, u, in_tx w true (update_at h (del k) root))
  end.
Proof.
  unfold Bucket_DeleteBucket; cbn. rewrite tx_lookup_in_tx; cbn.
  unfold set_root; cbn. rewrite tx_store_in_tx. reflexivity.
Qed.

(** On a sorted bucket, past the entries passed over, the walk deletes
    every value it meets and collects the key of every nested bucket. *)
Lemma DropExceptLast_walk_mixed {U} (h : handle) (last : Z) (lastError : error)
      (u : U) (w : World) (d : items) :
  (last <= 0)%Z ->
  forall root cur buckets,
    bucket_at root h = Some cur -> sorted cur ->
    NoDup (map fst d) -> (forall x, In x d -> In x cur) ->
    DropExceptLast_walk (mkBucket (next_tx w) h) d last buckets lastError u
                        (in_tx w true root) =
    Returns ((buckets ++ sub_keys d, lastError), u,
             in_tx w true (update_at h (del_all (leaf_keys d)) root)).
Proof.
  intros HL. induction d as [|[k [x|c]] d IH]; intros root cur buckets B S ND Hin.
  - cbn. rewrite app_nil_r, (update_at_id _ _ _ B) by reflexivity. reflexivity.
  - cbn [DropExceptLast_walk].
    replace (0 <? last)%Z with false by (symmetry; apply Z.ltb_ge; exact HL).
    unfold bind, Cursor_Delete. rewrite Bucket_Delete_in_tx, (entries_at_some _ _ B).
    rewrite (@sorted_get_In _ _ _ S (Hin _ (or_introl eq_refl))).
    inversion ND as [|? ? Hk ND']; subst.
    rewrite (IH _ (del k cur) buckets (bucket_at_update_at _ _ _ B) (sorted_del k S) ND').
    + rewrite update_at_compose. reflexivity.
    + intros y Hy. apply del_keeps_other; [apply Hin; right; exact Hy|].
      intros E. apply Hk. rewrite <- E. apply in_map. exact Hy.
  - cbn [DropExceptLast_walk].
    replace (0 <? last)%Z with false by (symmetry; apply Z.ltb_ge; exact HL).
    inversion ND as [|? ? Hk ND']; subst.
    rewrite (IH root cur (buckets ++ [k]) B S ND'
                (fun y Hy => Hin y (or_intror Hy))).
    rewrite <- app_assoc. reflexivity.
Qed.

(** The second loop then deletes the collected nested buckets. *)
Lemma DropExceptLast_buckets_all {U} (h : handle) (u : U) (w : World)
      (ks : list key) :
  forall root cur,
    bucket_at root h = Some cur -> sorted cur -> NoDup ks ->
    (forall k, In k ks -> exists c, In (k, Sub c) cur) ->
    DropExceptLast_buckets (mkBucket (next_tx w) h) ks u (in_tx w true root) =
    Returns (tt, u, in_tx w true (update_at h (del_all ks) root)).
Proof.
  induction ks as [|k ks IH]; intros root cur B S ND Hs.
  - cbn. rewrite (update_at_id _ _ _ B) by reflexivity. reflexivity.
  - cbn [DropExceptLast_buckets]. unfold bind.
    rewrite Bucket_DeleteBucket_in_tx, (entries_at_some _ _ B).
    destruct (Hs k (or_introl eq_refl)) as [c Hc].
    rewrite (@sorted_get_In _ _ _ S Hc).
    inversion ND as [|? ? Hk ND']; subst.
    rewrite (IH _ (del k cur) (bucket_at_update_at _ _ _ B) (sorted_del k S) ND').
    + rewrite update_at_compose. reflexivity.
    + intros k' Hk'. destruct (Hs k' (or_intror Hk')) as [c' Hc'].
      exists c'. apply del_keeps_other; [exact Hc'|].
      simpl. intros E. subst k'. contradiction.
Qed.

Lemma NoDup_map_filter {A B} (f : A -> B) (P : A -> bool) (l : list A) :
  NoDup (map f l) -> NoDup (map f (filter P l)).
Proof.
  induction l as [|a l IH]; intros H; [exact H|].
  simpl in *. inversion H as [|? ? Ha Hl]; subst.
  destruct (P a); [|apply IH; exact Hl].
  simpl. constructor; [|apply IH; exact Hl].
  intros Hin. apply Ha. apply in_map_iff in Hin.
  destruct Hin as [y [E Hy]]. apply filter_In in Hy.
  apply in_map_iff. exists y. split; [exact E|apply Hy].
Qed.

Lemma NoDup_keys_unique (d : items) (k : key) (e1 e2 : entry) :
  NoDup (map fst d) -> In (k, e1) d -> In (k, e2) d -> e1 = e2.
Proof.
  induction d as [|[a x] d IH]; intros ND H1 H2; [contradiction|].
  simpl in ND. inversion ND as [|? ? Ha Hd]; subst.
  destruct H1 as [H1|H1]; destruct H2 as [H2|H2].
  - congruence.
  - inversion H1; subst. exfalso. apply Ha.
    change k with (fst (k, e2)). apply in_map. exact H2.
  - inversion H2; subst. exfalso. apply Ha.
    change k with (fst (k, e1)). apply in_map. exact H1.
  - apply IH; assumption.
Qed.

Lemma prefix_walk_facts (its : items) (m : nat) :
  sorted its ->
  NoDup (map fst (rev (firstn m its))) /\
  (forall x, In x (rev (firstn m its)) -> In x its).
Proof.
  intros S. split.
  - rewrite map_rev. apply NoDup_rev.
    pose proof (sorted_NoDup_keys S) as ND.
    rewrite <- (firstn_skipn m its), map_app in ND.
    exact (NoDup_app_remove_r _ _ ND).
  - intros x H. apply in_rev in H. rewrite <- (firstn_skipn m its).
    apply in_or_app. left. exact H.
Qed.

(** DropExceptLast on any sorted bucket: what is committed. *)
Lemma Node_DropExceptLast_any {Val U} (n : Node Val) (last : Z) (u : U)
      (w : World) (its : items) :
  txn n = None -> idle w ->
  valid_path (path n) = true ->
  bucket_at (committed w) (path n) = Some its ->
  sorted its ->
  Node_DropExceptLast n last u w =
  Returns (None, u,
           after_commit w
             (update_at (path n)
                        (fun _ => skipn (List.length its - Z.to_nat last) its)
                        (committed w))).
Proof.
  intros T I V B S.
  destruct (resolves_existing _ _ V B) as [R RR].
  unfold Node_DropExceptLast.
  rewrite TxUpdate_fresh_bucket by assumption. rewrite RR.
  set (m := List.length its - Z.to_nat last).
  set (d := rev (firstn m its)).
  destruct (prefix_walk_facts m S) as [ND Hin]. fold d in ND, Hin.
  assert (Walk : DropExceptLast_walk (mkBucket (next_tx w) (path n)) (rev its) last
                   [] None u (in_tx w true (committed w)) =
                 Returns (([] ++ sub_keys d, None), u,
                          in_tx w true (update_at (path n) (del_all (leaf_keys d))
                                                  (committed w)))).
  { destruct (Z.le_gt_cases 0 last) as [H0|H0].
    - rewrite DropExceptLast_walk_skip by exact H0.
      rewrite skipn_rev. fold m. fold d.
      apply (@DropExceptLast_walk_mixed U (path n) 0 None u w d (Z.le_refl 0)
               (committed w) its [] B S ND Hin).
    - assert (E : rev its = d).
      { unfold d, m. replace (Z.to_nat last) with 0 by lia.
        rewrite Nat.sub_0_r, firstn_all. reflexivity. }
      rewrite E.
      apply (@DropExceptLast_walk_mixed U (path n) last None u w d
               ltac:(lia) (committed w) its [] B S ND Hin). }
  assert (S1 : sorted (del_all (leaf_keys d) its))
    by (rewrite (del_all_without _ S); apply sorted_filter; exact S).
  assert (Bk : DropExceptLast_buckets (mkBucket (next_tx w) (path n)) (sub_keys d) u
                 (in_tx w true (update_at (path n) (del_all (leaf_keys d)) (committed w))) =
               Returns (tt, u,
                        in_tx w true
                          (update_at (path n) (del_all (sub_keys d))
                             (update_at (path n) (del_all (leaf_keys d)) (committed w))))).
  { apply (@DropExceptLast_buckets_all U (path n) u w (sub_keys d) _
             (del_all (leaf_keys d) its) (bucket_at_update_at _ _ _ B) S1).
    - unfold sub_keys. apply NoDup_map_filter. exact ND.
    - intros k Hk. unfold sub_keys in Hk. apply in_map_iff in Hk.
      destruct Hk as [[k' [x|c]] [E Hk]]; apply filter_In in Hk;
        destruct Hk as [Hk Hl]; [discriminate Hl|].
      simpl in E. subst k'. exists c.
      rewrite (del_all_without _ S). unfold without. apply filter_In.
      split; [apply Hin; exact Hk|]. cbn [fst].
      destruct (existsb (key_eqb k) (leaf_keys d)) eqn:Ex; [|reflexivity].
      exfalso. apply existsb_exists in Ex. destruct Ex as [k' [Hk' Ek]].
      apply key_eqb_eq in Ek. subst k'.
      unfold leaf_keys in Hk'. apply in_map_iff in Hk'.
      destruct Hk' as [[k' [x|c']] [E Hl']]; apply filter_In in Hl';
        destruct Hl' as [Hl' Hleaf]; [|discriminate Hleaf].
      simpl in E. subst k'.
      pose proof (@NoDup_keys_unique _ _ _ _ ND Hk Hl') as C. discriminate C. }
  assert (E : update_at (path n) (fun _ => skipn m its) (committed w) =
              update_at (path n) (del_all (sub_keys d))
                (update_at (path n) (del_all (leaf_keys d)) (committed w))).
  { rewrite update_at_compose. apply (update_at_ext _ _ _ _ B).
    rewrite <- del_all_app, (del_all_without _ S).
    rewrite (without_same_keys _ (map fst d) its
               (fun f => existsb_leaf_sub_keys f d)).
    rewrite <- (del_all_without _ S). symmetry.
    pose proof (del_all_prefix (firstn m its) (skipn m its)) as D.
    rewrite firstn_skipn in D. exact (D S). }
  rewrite E. apply tx_body_commit.
  unfold bind. rewrite Cursor_entries_in_tx, (entries_at_some _ _ B).
  rewrite Walk. cbv beta iota. cbn [app]. rewrite Bk. reflexivity.
Qed.

(** X12: on a bucket holding values and nested buckets in the engine's key
    order, DropExceptLast(K) returns nil and commits the bucket reduced to
    its last [K] entries, values and nested buckets counted alike: the
    values before them are deleted by the cursor and the nested buckets
    before them by the second loop.  For [K <= 0] the bucket is emptied, for
    [K] at least the number of entries nothing changes. *)
Theorem DropExceptLast_mixed_bucket {Val U} (n : Node Val) (K : Z) (u : U)
        (w : World) (its : items) :
  txn n = None -> idle w ->
  valid_path (path n) = true ->
  bucket_at (committed w) (path n) = Some its ->
  sorted its ->
  exists w',
    Node_DropExceptLast n K u w = Returns (None, u, w') /\
    bucket_at (committed w') (path n) =
      Some (skipn (List.length its - Z.to_nat K) its) /\
    ((K <= 0)%Z -> bucket_at (committed w') (path n) = Some []) /\
    ((Z.of_nat (List.length its) <= K)%Z -> committed w' = committed w).
Proof.
  intros T I V B S.
  eexists. split; [apply Node_DropExceptLast_any; eassumption|].
  rewrite committed_after_commit.
  pose proof (bucket_at_update_at _
                (fun _ : items => skipn (List.length its - Z.to_nat K) its) _ B) as B'.
  split; [exact B'|]. split.
  - intros H. rewrite B'. replace (Z.to_nat K) with 0 by lia.
    rewrite Nat.sub_0_r, skipn_all. reflexivity.
  - intros H. replace (List.length its - Z.to_nat K) with 0 by lia.
    apply (update_at_id _ _ _ B). reflexivity.
Qed.

Lemma DropExceptLast_mixed_bucket_witness :
  exists w',
    Node_DropExceptLast (node_at raw_codec ["rooms"]) 2 tt
      (db_of [("rooms", Sub [("a", Leaf "1"); ("b", Sub [("x", Leaf "9")]);
                             ("c", Leaf "3"); ("d", Sub []); ("e", Leaf "5")])]) =
      Returns (None, tt, w') /\
    bucket_at (committed w') ["rooms"] = Some [("d", Sub []); ("e", Leaf "5")] /\
    ((2 <= 0)%Z -> bucket_at (committed w') ["rooms"] = Some []) /\
    ((5 <= 2)%Z ->
     committed w' =
       [("rooms", Sub [("a", Leaf "1"); ("b", Sub [("x", Leaf "9")]);
                       ("c", Leaf "3"); ("d", Sub []); ("e", Leaf "5")])]).
Proof.
  apply (@DropExceptLast_mixed_bucket bytes unit (node_at raw_codec ["rooms"]) 2 tt
           (db_of [("rooms", Sub [("a", Leaf "1"); ("b", Sub [("x", Leaf "9")]);
                                  ("c", Leaf "3"); ("d", Sub []); ("e", Leaf "5")])])
           [("a", Leaf "1"); ("b", Sub [("x", Leaf "9")]);
            ("c", Leaf "3"); ("d", Sub []); ("e", Leaf "5")]).
  - reflexivity.
  - split; reflexivity.
  - reflexivity.
  - reflexivity.
  - repeat constructor.
Defined.

(** ** Length after writes *)

Lemma length_put (k : key) (e : entry) (l : items) :
  List.length (put k e l) =
  match get k l with
  | Some _ => List.length l
  | None => S (List.length l)
  end.
Proof.
  induction l as [|[a x] r IH]; [reflexivity|].
  rewrite get_cons. cbn [put]. destruct (key_ltb a k).
  - cbn [List.length]. rewrite IH. destruct (get k r); reflexivity.
  - destruct (key_eqb k a); reflexivity.
Qed.

Lemma length_del (k : key) (l : items) :
  List.length (del k l) =
  match get k l with
  | Some _ => List.length l - 1
  | None => List.length l
  end.
Proof.
  induction l as [|[a x] r IH]; [reflexivity|].
  rewrite get_cons. cbn [del]. destruct (key_ltb a k).
  - cbn [List.length]. rewrite IH.
    destruct (get k r) eqn:G; [|reflexivity].
    destruct r; [discriminate G|simpl; lia].
  - destruct (key_eqb k a); simpl; lia.
Qed.

(** X13: Length follows the writes.  After a successful Set(k, v) Length
    answers one more than the bucket held if nothing was stored under the
    sanitized key, and the same number if a value was overwritten; after a
    successful Delete(k) it answers one less if a value was stored there,
    and the same number otherwise. *)
Theorem Length_follows_writes {Val U} (n : Node Val) (k : key) (v : Val)
        (prefix : string) (u u1 : U) (w w1 : World) :
  txn n = None -> idle w ->
  let its := entries_at (committed w) (path n) in
  (Z.of_nat (List.length its) + 1 <= max_int)%Z ->
  (Node_Set n k v u w = Returns (None, u1, w1) ->
   exists w2,
     Node_Length n prefix u1 w1 =
     Returns ((match get (mustKey k) its with
               | Some _ => Z.of_nat (List.length its)
               | None => Z.of_nat (List.length its) + 1
               end, None)%Z, u1, w2)) /\
  (Node_Delete n k u w = Returns (None, u1, w1) ->
   exists w2,
     Node_Length n prefix u1 w1 =
     Returns ((match get (mustKey k) its with
               | Some _ => Z.of_nat (List.length its) - 1
               | None => Z.of_nat (List.length its)
               end, None)%Z, u1, w2)).
Proof.
  intros T I its L. split; intros H.
  - destruct (@Set_success_commits _ _ n k v u u1 w w1 T I H) as [b [_ [_ [R [_ ->]]]]].
    eexists. rewrite Node_Length_fresh by (auto; apply I).
    rewrite committed_after_commit, entries_after_update by exact R. fold its.
    pose proof (length_put (mustKey k) (Leaf b) its) as Lp.
    rewrite count_keys_length; [|lia|rewrite Lp; destruct (get (mustKey k) its); lia].
    rewrite Lp. destruct (get (mustKey k) its); [reflexivity|].
    rewrite Nat2Z.inj_succ. unfold Z.succ. reflexivity.
  - destruct (@Delete_success_commits _ _ n k u u1 w w1 T I H) as [_ [R ->]].
    eexists. rewrite Node_Length_fresh by (auto; apply I).
    rewrite committed_after_commit, entries_after_update by exact R. fold its.
    pose proof (length_del (mustKey k) its) as Ld.
    rewrite count_keys_length; [|lia|rewrite Ld; destruct (get (mustKey k) its); lia].
    rewrite Ld. destruct (get (mustKey k) its) eqn:G; [|reflexivity].
    assert (Hpos : 1 <= List.length its)
      by (clear - G; clearbody its; destruct its; [discriminate G|simpl; lia]).
    replace (Z.of_nat (List.length its - 1)) with (Z.of_nat (List.length its) - 1)%Z
      by lia.
    reflexivity.
Qed.

Lemma Length_follows_writes_witness :
  exists w2,
    Node_Length (node_at raw_codec ["rooms"]) "" tt
        (after_commit (db_of [("rooms", Sub [("a", Leaf "1"); ("c", Leaf "3")])])
           [("rooms", Sub [("a", Leaf "1"); ("b", Leaf "2"); ("c", Leaf "3")])]) =
    Returns ((3%Z, None), tt, w2).
Proof.
  refine (proj1 (@Length_follows_writes bytes unit (node_at raw_codec ["rooms"])
                   "b" "2" "" tt tt
                   (db_of [("rooms", Sub [("a", Leaf "1"); ("c", Leaf "3")])])
                   (after_commit (db_of [("rooms", Sub [("a", Leaf "1"); ("c", Leaf "3")])])
                      [("rooms", Sub [("a", Leaf "1"); ("b", Leaf "2"); ("c", Leaf "3")])])
                   eq_refl (conj eq_refl eq_refl) _) _).
  - vm_compute. discriminate.
  - vm_compute. reflexivity.
Defined.

(** ** Reading where there is no bucket *)

(** X14: on a node whose bucket does not exist, the read operations report
    absence and create nothing: Exists answers false, Get returns
    [ErrKeyNotFound] leaving the caller's value, Length answers 0 with nil,
    Each and EachKey return nil without invoking the callback; the committed
    tree is unchanged, so the bucket is still missing. *)
Theorem reads_on_missing_bucket {Val U} (n : Node Val) (k : key) (prefix : string)
        (u : U) (s : Val * U) (w : World) :
  txn n = None -> opened w = true ->
  bucket_at (committed w) (path n) = None ->
  let w' := after_rollback w false (committed w) in
  Node_Exists n k u w = Returns (false, u, w') /\
  Node_Get n k s w = Returns (Some ErrKeyNotFound, s, w') /\
  Node_Length n prefix u w = Returns ((0%Z, None), u, w') /\
  (forall fn, Node_Each n prefix fn s w = Returns (None, s, w')) /\
  (forall fn, Node_EachKey n prefix fn u w = Returns (None, u, w')) /\
  bucket_at (committed w') (path n) = None.
Proof.
  intros T O B w'.
  assert (E : entries_at (committed w) (path n) = [])
    by (unfold entries_at; rewrite B; reflexivity).
  split; [rewrite Node_Exists_fresh by assumption; rewrite B; reflexivity|].
  split; [rewrite Node_Get_fresh by assumption; rewrite E; destruct s; reflexivity|].
  split; [rewrite Node_Length_fresh by assumption; rewrite E; reflexivity|].
  split; [|split].
  - intros fn. rewrite Node_Each_fresh by assumption. rewrite E.
    apply tx_body_view. reflexivity.
  - intros fn. rewrite Node_EachKey_fresh by assumption. rewrite E.
    apply tx_body_view. reflexivity.
  - exact B.
Qed.

Lemma reads_on_missing_bucket_witness :
  Node_Exists (node_at raw_codec ["rooms"]) "a" tt empty_db =
    Returns (false, tt, after_rollback empty_db false []) /\
  Node_Length (node_at raw_codec ["rooms"]) "" tt empty_db =
    Returns ((0%Z, None), tt, after_rollback empty_db false []).
Proof.
  pose proof (@reads_on_missing_bucket bytes unit (node_at raw_codec ["rooms"]) "a" ""
                tt ("", tt) empty_db eq_refl eq_refl eq_refl) as H.
  cbv zeta in H. split; apply H.
Defined.

(** ** Exists *)

(** X15: Exists of the empty key answers whether the node's bucket exists;
    Exists of any other key answers whether a value is stored under that key
    as given (a nested bucket of that name does not count); either way the
    committed tree is unchanged. *)
Theorem Exists_reports {Val U} (n : Node Val) (k : key) (u : U) (w : World) :
  txn n = None -> opened w = true ->
  let w' := after_rollback w false (committed w) in
  Node_Exists n "" u w =
    Returns (match bucket_at (committed w) (path n) with
             | Some _ => true
             | None => false
             end, u, w') /\
  (k <> "" ->
   Node_Exists n k u w =
     Returns (match get k (entries_at (committed w) (path n)) with
              | Some (Leaf _) => true
              | _ => false
              end, u, w')) /\
  committed w' = committed w.
Proof.
  intros T O w'. split; [|split; [|reflexivity]].
  - rewrite Node_Exists_fresh by assumption.
    destruct (bucket_at (committed w) (path n)); reflexivity.
  - intros Hk. rewrite Node_Exists_fresh by assumption.
    unfold entries_at, has_value.
    destruct (bucket_at (committed w) (path n)) as [its|].
    + replace (String.eqb k "") with false; [reflexivity|].
      symmetry. apply String.eqb_neq. exact Hk.
    + reflexivity.
Qed.

Lemma Exists_reports_witness :
  Node_Exists (node_at raw_codec ["rooms"]) "" tt
              (db_of [("rooms", Sub [("a", Leaf "1"); ("b", Sub [])])]) =
    Returns (true, tt,
             after_rollback (db_of [("rooms", Sub [("a", Leaf "1"); ("b", Sub [])])])
                            false [("rooms", Sub [("a", Leaf "1"); ("b", Sub [])])]) /\
  Node_Exists (node_at raw_codec ["rooms"]) "b" tt
              (db_of [("rooms", Sub [("a", Leaf "1"); ("b", Sub [])])]) =
    Returns (false, tt,
             after_rollback (db_of [("rooms", Sub [("a", Leaf "1"); ("b", Sub [])])])
                            false [("rooms", Sub [("a", Leaf "1"); ("b", Sub [])])]).
Proof.
  pose proof (@Exists_reports bytes unit (node_at raw_codec ["rooms"]) "b" tt
                (db_of [("rooms", Sub [("a", Leaf "1"); ("b", Sub [])])])
                eq_refl eq_refl) as H.
  cbv zeta in H. destruct H as [H1 [H2 _]].
  split; [exact H1|apply H2; discriminate].
Defined.

(** ** Deriving a node inside a transaction *)

(** X16: deriving a child with Node(names...) is not free of effects inside
    a writable transaction: FromPath resolves the child's bucket, which
    creates it, so a TxUpdate whose callback only derives the child commits
    a tree in which the child's bucket exists.  Inside a TxView the same
    callback leaves the committed tree as it was. *)
Theorem deriving_in_transaction {Val U} (n : Node Val) (names : list string)
        (u : U) (w : World) :
  txn n = None -> idle w ->
  names <> [] ->
  resolves (path n ++ names) (committed w) = true ->
  (exists w',
      Node_TxUpdate n (derive_only names) u w = Returns (None, u, w') /\
      committed w' = resolved_root (path n ++ names) (committed w) /\
      bucket_at (committed w') (path n ++ names) =
        Some (entries_at (committed w) (path n ++ names))) /\
  Node_TxView n (derive_only names) u w =
    Returns (None, u, after_rollback w false (committed w)).
Proof.
  intros T I Hn R. split.
  - eexists. split; [|split].
    + rewrite TxUpdate_fresh_general by (auto; exact (resolves_prefix _ _ _ R)).
      apply tx_body_commit. unfold derive_only, bind.
      rewrite Node_Node_in_tx by assumption. reflexivity.
    + reflexivity.
    + rewrite committed_after_commit. apply resolved_root_bucket. exact R.
  - rewrite TxView_fresh_general by (auto; apply I).
    apply tx_body_view. unfold derive_only, bind, Node_Node.
    destruct names as [|x names]; [congruence|]. cbn [List.length Z.of_nat].
    replace (Z.pos (Pos.of_succ_nat (List.length names)) =? 0)%Z with false by reflexivity.
    unfold Node_FromPath, bind. cbn [kv txn path].
    rewrite Node_bucket_lookup.
    destruct (bucket_at (committed w) (path n ++ x :: names)); reflexivity.
Qed.

Lemma deriving_in_transaction_witness :
  (exists w',
      Node_TxUpdate (node_at raw_codec ["rooms"]) (derive_only ["r1"]) tt empty_db =
        Returns (None, tt, w') /\
      committed w' = resolved_root (["rooms"] ++ ["r1"]) [] /\
      bucket_at (committed w') (["rooms"] ++ ["r1"]) = Some []) /\
  Node_TxView (node_at raw_codec ["rooms"]) (derive_only ["r1"]) tt empty_db =
    Returns (None, tt, after_rollback empty_db false []).
Proof.
  apply (@deriving_in_transaction bytes unit (node_at raw_codec ["rooms"]) ["r1"]
           tt empty_db).
  - reflexivity.
  - split; reflexivity.
  - discriminate.
  - reflexivity.
Defined.

(** ** Each and a value that does not decode *)

Lemma Each_visit_undecodable {Val U} (codec : KV Val)
      (fn : key -> Z -> Val * U -> error * (Val * U)) (length : Z)
      (k : key) (b : bytes) (e : err) (rest : items) (pre : items) :
  decodes codec pre ->
  (forall v, fst (Unmarshal codec b v) = Some e) ->
  (forall k' l s, fst (fn k' l s) = None) ->
  forall v u calls0 w,
  exists v' u' calls1,
    Each_visit codec (pre ++ (k, Leaf b) :: rest) length (traced fn)
               (v, (u, calls0)) w =
      Returns (Some (Wrapf e "failed to unmarshal %q" k),
               (v', (u', calls0 ++ calls1)), w) /\
    map call_key calls1 = leaf_keys pre.
Proof.
  intros D Hb Hf. induction pre as [|[k' [b'|sub]] pre IH]; intros v u calls0 w.
  - cbn [app Each_visit]. unfold bind at 1, on_locals at 1. cbn [fst snd].
    pose proof (Hb v) as Hv.
    destruct (Unmarshal codec b v) as [e0 v1]. simpl in Hv. subst e0.
    exists v1, u, []. rewrite app_nil_r. split; reflexivity.
  - cbn [app Each_visit]. unfold bind at 1, on_locals at 1. cbn [fst snd].
    pose proof (D k' b' v (or_introl eq_refl)) as Dk.
    destruct (Unmarshal codec b' v) as [e0 v1]. simpl in Dk. subst e0.
    cbv beta iota zeta. unfold bind at 1, on_locals at 1, traced at 1. cbn [fst snd].
    pose proof (Hf k' length (v1, u)) as Hk.
    destruct (fn k' length (v1, u)) as [e1 [v2 u2]]. simpl in Hk. subst e1.
    cbv beta iota zeta.
    destruct (IH (decodes_tail D) v2 u2 (calls0 ++ [(k', length, None)]) w)
      as [v' [u' [calls1 [E K]]]].
    exists v', u', ((k', length, None) :: calls1).
    split; [rewrite <- app_assoc in E; exact E|].
    unfold leaf_keys in *. simpl. rewrite K. reflexivity.
  - cbn [app Each_visit]. apply IH. exact (decodes_tail D).
Qed.

(** X17: Each stops at the first value that does not decode: with a
    callback that never fails, it is invoked for the values before that one,
    in order, and for nothing after; Each returns the codec's error wrapped
    by [errors.Wrapf] with the format [failed to unmarshal %q] applied to the
    key of that value, and the committed tree is unchanged. *)
Theorem Each_stops_at_undecodable {Val U} (n : Node Val) (prefix : string)
        (fn : key -> Z -> Val * U -> error * (Val * U))
        (k : key) (b : bytes) (e : err) (pre rest : items)
        (v0 : Val) (u0 : U) (w : World) :
  txn n = None -> opened w = true ->
  entries_at (committed w) (path n) = pre ++ (k, Leaf b) :: rest ->
  decodes (kv n) pre ->
  (forall v, fst (Unmarshal (kv n) b v) = Some e) ->
  (forall k' l s, fst (fn k' l s) = None) ->
  exists v' u' calls w',
    Node_Each n prefix (traced fn) (v0, (u0, [])) w =
      Returns (Some (Wrapf e "failed to unmarshal %q" k),
               (v', (u', calls)), w') /\
    map call_key calls = leaf_keys pre /\
    committed w' = committed w.
Proof.
  intros T O E D Hb Hf.
  destruct (@Each_visit_undecodable Val U (kv n) fn
              (count_values (pre ++ (k, Leaf b) :: rest) 0) k b e rest pre D Hb Hf
              v0 u0 [] (in_tx w false (committed w)))
    as [v' [u' [calls [Ev K]]]].
  simpl in Ev.
  exists v', u', calls, (after_rollback w false (committed w)).
  split; [|split; [exact K|reflexivity]].
  rewrite Node_Each_fresh by assumption. rewrite E.
  apply tx_body_rollback. exact Ev.
Qed.

Lemma Each_stops_at_undecodable_witness :
  exists v' u' calls w',
    Node_Each (node_at picky_codec ["rooms"]) "" (traced visit_all) ("", (tt, []))
              (db_of [("rooms", Sub [("a", Leaf "1"); ("b", Leaf "bad"); ("c", Leaf "3")])]) =
      Returns (Some (Wrapf (CodecError "bad value") "failed to unmarshal %q" "b"),
               (v', (u', calls)), w') /\
    map call_key calls = leaf_keys [("a", Leaf "1")] /\
    committed w' = [("rooms", Sub [("a", Leaf "1"); ("b", Leaf "bad"); ("c", Leaf "3")])].
Proof.
  apply (@Each_stops_at_undecodable bytes unit (node_at picky_codec ["rooms"]) ""
           visit_all "b" "bad" (CodecError "bad value")
           [("a", Leaf "1")] [("c", Leaf "3")] "" tt
           (db_of [("rooms", Sub [("a", Leaf "1"); ("b", Leaf "bad"); ("c", Leaf "3")])])).
  - reflexivity.
  - reflexivity.
  - reflexivity.
  - intros k' b' v [H|[]]. inversion H; subst. reflexivity.
  - intros v. reflexivity.
  - intros k' l s. reflexivity.
Defined.

(** ** A key that names a nested bucket *)

(** X18: values and nested buckets share the bucket's keys.  When the
    sanitized key names a nested bucket, Delete returns
    [ErrIncompatibleValue], Set and SetIfNone of a serializable value fail
    too, and each leaves the committed tree as it was: the nested bucket is
    neither deleted nor overwritten. *)
Theorem key_of_nested_bucket {Val U} (n : Node Val) (k : key) (v : Val) (b : bytes)
        (u : U) (w : World) (its c : items) :
  txn n = None -> idle w ->
  valid_path (path n) = true ->
  bucket_at (committed w) (path n) = Some its ->
  get (mustKey k) its = Some (Sub c) ->
  Marshal (kv n) v = inr b ->
  Node_Delete n k u w =
    Returns (Some ErrIncompatibleValue, u, after_rollback w true (committed w)) /\
  (exists e, Node_Set n k v u w =
             Returns (Some e, u, after_rollback w true (committed w))) /\
  (exists e, Node_SetIfNone n k v u w =
             Returns (Some e, u, after_rollback w true (committed w))) /\
  committed (after_rollback w true (committed w)) = committed w.
Proof.
  intros T I V B G Mv.
  destruct (resolves_existing _ _ V B) as [R RR].
  assert (P : exists e, put_error (mustKey k) b its = Some e).
  { unfold put_error. rewrite G.
    destruct (len (mustKey k) =? 0)%Z; [eexists; reflexivity|].
    destruct (MaxKeySize <? len (mustKey k))%Z; [eexists; reflexivity|].
    destruct (MaxValueSize <? len b)%Z; eexists; reflexivity. }
  destruct P as [e P].
  split; [|split; [|split; [|reflexivity]]].
  - rewrite Node_Delete_fresh by assumption. cbv zeta.
    rewrite RR, (entries_at_some _ _ B), G. reflexivity.
  - exists e. rewrite Node_Set_fresh with (b := b) by assumption. cbv zeta.
    rewrite RR, (entries_at_some _ _ B), P. reflexivity.
  - exists e. rewrite Node_SetIfNone_fresh with (b := b) by assumption. cbv zeta.
    rewrite RR, (entries_at_some _ _ B). unfold has_value. rewrite G, P.
    reflexivity.
Qed.

Lemma key_of_nested_bucket_witness :
  Node_Delete (node_at raw_codec ["rooms"]) "b" tt
              (db_of [("rooms", Sub [("a", Leaf "1"); ("b", Sub [("x", Leaf "9")])])]) =
    Returns (Some ErrIncompatibleValue, tt,
             after_rollback
               (db_of [("rooms", Sub [("a", Leaf "1"); ("b", Sub [("x", Leaf "9")])])])
               true [("rooms", Sub [("a", Leaf "1"); ("b", Sub [("x", Leaf "9")])])]).
Proof.
  apply (proj1 (@key_of_nested_bucket bytes unit (node_at raw_codec ["rooms"])
                  "b" "2" "2" tt
                  (db_of [("rooms", Sub [("a", Leaf "1"); ("b", Sub [("x", Leaf "9")])])])
                  [("a", Leaf "1"); ("b", Sub [("x", Leaf "9")])] [("x", Leaf "9")]
                  eq_refl (conj eq_refl eq_refl) eq_refl eq_refl eq_refl eq_refl)).
Defined.
